(** * Distributed Elevator Control System: floor codec, controller queue,
      call routing, safety monitor, car watchdog and service panel.

    A shallow embedding of the C sources (controller.c, car.c, safety.c,
    internal.c).  C [int]s are [Z]; NUL-terminated strings are [string]s
    (the terminator is left implicit, so a [string] never holds a NUL);
    the fixed arrays of the controller are lists read and written by index;
    code that sends frames or prints returns what it sent next to the new
    state. *)

From Stdlib Require Import ZArith String Ascii List Lia Bool.
From stdpp Require Import base list.

Open Scope string_scope.
Open Scope Z_scope.

(** ** C library pieces used by the sources *)

Module CLib.

Definition isspace (c : ascii) : bool :=
  let n := nat_of_ascii c in
  Nat.eqb n 32 || (Nat.leb 9 n && Nat.leb n 13).

Definition isdigit (c : ascii) : bool :=
  let n := nat_of_ascii c in
  Nat.leb 48 n && Nat.leb n 57.

Definition digit_val (c : ascii) : Z := Z.of_nat (nat_of_ascii c) - 48.

Definition LONG_MAX : Z := 2 ^ 63 - 1.
Definition LONG_MIN : Z := - 2 ^ 63.

Definition clamp_long (v : Z) : Z :=
  if v >? LONG_MAX then LONG_MAX else if v <? LONG_MIN then LONG_MIN else v.

Fixpoint skip_space (s : string) : string :=
  match s with
  | String c r => if isspace c then skip_space r else s
  | EmptyString => s
  end.

(** The digits at the head of [s], accumulated base 10 from [acc]; the
    second component counts how many were read. *)
Fixpoint read_digits (s : string) (acc : Z) (n : nat) : Z * nat :=
  match s with
  | String c r =>
      if isdigit c then read_digits r (acc * 10 + digit_val c) (S n)
      else (acc, n)
  | EmptyString => (acc, n)
  end.

(** [strtol s &end 10]: white space, an optional sign, then digits.  The
    boolean is [end != s]: false when no digit could be read, in which case
    the value is 0.  Out-of-range values saturate. *)
Definition strtol (s : string) : Z * bool :=
  let s1 := skip_space s in
  let '(neg, s2) :=
    match s1 with
    | String "-"%char r => (true, r)
    | String "+"%char r => (false, r)
    | _ => (false, s1)
    end in
  let '(v, n) := read_digits s2 0 0 in
  match n with
  | O => (0, false)
  | S _ => (clamp_long (if neg then - v else v), true)
  end.

Definition digit_char (d : Z) : ascii := ascii_of_nat (48 + Z.to_nat d).

Fixpoint dec_digits (fuel : nat) (n : Z) (acc : string) : string :=
  match fuel with
  | O => acc
  | S k =>
      let acc' := String (digit_char (n mod 10)) acc in
      if n / 10 =? 0 then acc' else dec_digits k (n / 10) acc'
  end.

(** What printf's [%d] writes. *)
Definition fmt_d (n : Z) : string :=
  if n <? 0
  then String "-"%char (dec_digits (S (Z.to_nat (Z.log2 (- n)))) (- n) "")
  else dec_digits (S (Z.to_nat (Z.log2 n))) n "".

(** The first [n] characters: what [strncpy (dst, src, n)] leaves in a
    buffer of [n + 1] bytes whose last byte is NUL, what [snprintf] with
    size [n + 1] keeps, and what a [%ns] conversion reads of a token. *)
Fixpoint strtake (n : nat) (s : string) : string :=
  match n, s with
  | S k, String c r => String c (strtake k r)
  | _, _ => EmptyString
  end.

Definition streq (a b : string) : bool := String.eqb a b.

End CLib.

(** ** Floor codec (the same two functions in controller.c, car.c,
       safety.c and internal.c) *)

Module Floor.
Import CLib.

Definition floor_num_handler (f : string) : option Z :=
  match f with
  | EmptyString => None
  | String c rest =>
      if Ascii.eqb c "b" || Ascii.eqb c "B" then
        let '(i, moved) := strtol rest in
        if negb moved || (i <? 1) || (i >? 99) then None else Some (- i)
      else
        let '(i, moved) := strtol f in
        if negb moved || (i <? 1) || (i >? 999) then None else Some i
  end.

Definition index_handler (index : Z) : string :=
  if index <? 0
  then strtake 3 (String "B" (fmt_d (- index)))
  else strtake 3 (fmt_d index).

(** *** The spec's grammar of labels *)

Fixpoint all_digits (s : string) : bool :=
  match s with
  | EmptyString => true
  | String c r => isdigit c && all_digits r
  end.

Fixpoint digits_value_from (acc : Z) (s : string) : Z :=
  match s with
  | EmptyString => acc
  | String c r => digits_value_from (acc * 10 + digit_val c) r
  end.

Definition digits_value (s : string) : Z := digits_value_from 0 s.

(** A decimal numeral without leading zero denoting a number of [lo..hi]. *)
Definition decimal_in (lo hi : Z) (s : string) : bool :=
  match s with
  | EmptyString => false
  | String c _ =>
      all_digits s && negb (Ascii.eqb c "0")
      && (lo <=? digits_value s) && (digits_value s <=? hi)
  end.

Definition is_basement (s : string) : bool :=
  match s with
  | String c _ => Ascii.eqb c "B"
  | EmptyString => false
  end.

(** A decimal [1..999], or [B] followed by a decimal [1..99]. *)
Definition valid_label (s : string) : bool :=
  match s with
  | String c r => if Ascii.eqb c "B" then decimal_in 1 99 r else decimal_in 1 999 s
  | EmptyString => false
  end.

End Floor.

(** ** The shared car block *)

Module Shm.

(** Modelled from the spec: the [car_shared_mem] declaration of shared.h,
    which the sources include but which is not among them.  The mutex and
    the condition variable are left out; the two floors and the status are
    character arrays, every other field is a [uint8_t]. *)
Record car_shared_mem : Type := mk_shm {
  current_floor : string;
  destination_floor : string;
  status : string;
  open_button : Z;
  close_button : Z;
  safety_system : Z;
  door_obstruction : Z;
  overload : Z;
  emergency_stop : Z;
  individual_service_mode : Z;
  emergency_mode : Z
}.

Definition set_current_floor (v : string) (m : car_shared_mem) :=
  mk_shm v (destination_floor m) (status m) (open_button m) (close_button m)
    (safety_system m) (door_obstruction m) (overload m) (emergency_stop m)
    (individual_service_mode m) (emergency_mode m).

Definition set_destination_floor (v : string) (m : car_shared_mem) :=
  mk_shm (current_floor m) v (status m) (open_button m) (close_button m)
    (safety_system m) (door_obstruction m) (overload m) (emergency_stop m)
    (individual_service_mode m) (emergency_mode m).

Definition set_status (v : string) (m : car_shared_mem) :=
  mk_shm (current_floor m) (destination_floor m) v (open_button m)
    (close_button m) (safety_system m) (door_obstruction m) (overload m)
    (emergency_stop m) (individual_service_mode m) (emergency_mode m).

Definition set_open_button (v : Z) (m : car_shared_mem) :=
  mk_shm (current_floor m) (destination_floor m) (status m) v
    (close_button m) (safety_system m) (door_obstruction m) (overload m)
    (emergency_stop m) (individual_service_mode m) (emergency_mode m).

Definition set_close_button (v : Z) (m : car_shared_mem) :=
  mk_shm (current_floor m) (destination_floor m) (status m) (open_button m)
    v (safety_system m) (door_obstruction m) (overload m)
    (emergency_stop m) (individual_service_mode m) (emergency_mode m).

Definition set_safety_system (v : Z) (m : car_shared_mem) :=
  mk_shm (current_floor m) (destination_floor m) (status m) (open_button m)
    (close_button m) v (door_obstruction m) (overload m)
    (emergency_stop m) (individual_service_mode m) (emergency_mode m).

Definition set_emergency_stop (v : Z) (m : car_shared_mem) :=
  mk_shm (current_floor m) (destination_floor m) (status m) (open_button m)
    (close_button m) (safety_system m) (door_obstruction m) (overload m)
    v (individual_service_mode m) (emergency_mode m).

Definition set_individual_service_mode (v : Z) (m : car_shared_mem) :=
  mk_shm (current_floor m) (destination_floor m) (status m) (open_button m)
    (close_button m) (safety_system m) (door_obstruction m) (overload m)
    (emergency_stop m) v (emergency_mode m).

Definition set_emergency_mode (v : Z) (m : car_shared_mem) :=
  mk_shm (current_floor m) (destination_floor m) (status m) (open_button m)
    (close_button m) (safety_system m) (door_obstruction m) (overload m)
    (emergency_stop m) (individual_service_mode m) v.

(** A [uint8_t] store of an [int]. *)
Definition to_uint8 (v : Z) : Z := v mod 256.

End Shm.

(** ** controller.c *)

Module Controller.
Import CLib Floor.

Definition MAX_CARS : Z := 16.
Definition MAX_QUEUE : Z := 32.

(** A registry row.  [shm_fd] and [shm_ptr] are left out: no queue or
    routing decision reads them. *)
Record CarID : Type := mk_car {
  in_use : Z;
  socket_fd : Z;
  name : string;
  lowest_floor : Z;
  highest_floor : Z;
  q : list Z;
  queue_len : Z;
  status : string;
  cur_floor : string;
  dst_floor : string
}.

Definition set_queue (a : list Z) (len : Z) (car : CarID) : CarID :=
  mk_car (in_use car) (socket_fd car) (name car) (lowest_floor car)
    (highest_floor car) a len (status car) (cur_floor car) (dst_floor car).

Definition set_row (st cur dst : string) (car : CarID) : CarID :=
  mk_car (in_use car) (socket_fd car) (name car) (lowest_floor car)
    (highest_floor car) (q car) (queue_len car) st cur dst.

(** [a[i]] and [a[i] = v] on an [int] array. *)
Definition aget (a : list Z) (i : Z) : Z := default 0 (a !! Z.to_nat i).
Definition aset (a : list Z) (i : Z) (v : Z) : list Z := <[Z.to_nat i := v]> a.

(** [for (i = lo; i < hi; ++i) body], for a body that leaves [hi] alone. *)
Fixpoint for_loop {S : Type} (n : nat) (i : Z) (body : Z -> S -> S) (s : S) : S :=
  match n with
  | O => s
  | S k => for_loop k (i + 1) body (body i s)
  end.

Definition for_range {S : Type} (lo hi : Z) (body : Z -> S -> S) (s : S) : S :=
  for_loop (Z.to_nat (hi - lo)) lo body s.

(** *** Queue operations *)

Definition in_queue (car : CarID) (fnum : Z) : bool :=
  for_range 0 (queue_len car)
    (fun i found => found || (aget (q car) i =? fnum)) false.

Definition queue_floor (car : CarID) (fnum : Z) : CarID :=
  if queue_len car <? MAX_QUEUE
  then set_queue (aset (q car) (queue_len car) fnum) (queue_len car + 1) car
  else car.

(** The shifting loop shared by [dequeue_floor] (from 1) and by the
    removal inside [enqueue] (from [dst_index + 1]). *)
Definition shift_down (from len : Z) (a : list Z) : list Z :=
  for_range from len (fun i a => aset a (i - 1) (aget a i)) a.

Definition dequeue_floor (car : CarID) : CarID :=
  if queue_len car <=? 0 then car
  else set_queue (shift_down 1 (queue_len car) (q car)) (queue_len car - 1) car.

(** The index search of [enqueue]: first positions of the two floors, or
    -1. *)
Definition find_indexes (car : CarID) (src_floor dst_floor : Z) : Z * Z :=
  for_range 0 (queue_len car)
    (fun i '(src_index, dst_index) =>
       let src_index :=
         if (aget (q car) i =? src_floor) && (src_index <? 0) then i
         else src_index in
       let dst_index :=
         if (aget (q car) i =? dst_floor) && (dst_index <? 0) then i
         else dst_index in
       (src_index, dst_index))
    (-1, -1).

(** The caller's pointer is never null, so [!car] is left out. *)
Definition enqueue (car : CarID) (src_floor dst_floor : Z) : CarID :=
  if src_floor =? dst_floor then car
  else
    let car := if negb (in_queue car src_floor)
               then queue_floor car src_floor else car in
    let '(src_index, dst_index) := find_indexes car src_floor dst_floor in
    let '(car, dst_index) :=
      if (dst_index >=? 0) && (dst_index <? src_index)
      then (set_queue (shift_down (dst_index + 1) (queue_len car) (q car))
              (queue_len car - 1) car, -1)
      else (car, dst_index) in
    if dst_index <? 0 then queue_floor car dst_floor else car.

(** The live part of the queue array. *)
Definition queue (car : CarID) : list Z :=
  take (Z.to_nat (queue_len car)) (q car).

(** *** Registry and routing *)

Definition can_service (car : CarID) (src_floor dst_floor : Z) : bool :=
  if in_use car =? 0 then false
  else if (src_floor <? lowest_floor car) || (src_floor >? highest_floor car)
  then false
  else if (dst_floor <? lowest_floor car) || (dst_floor >? highest_floor car)
  then false
  else true.

(** The scan of [g_cars] in slot order; the result is [out_name]. *)
Fixpoint car_selector (cars : list CarID) (src_floor dst_floor : Z)
  : option string :=
  match cars with
  | [] => None
  | car :: rest =>
      if in_use car =? 0 then car_selector rest src_floor dst_floor
      else if can_service car src_floor dst_floor
      then Some (strtake 31 (name car))
      else car_selector rest src_floor dst_floor
  end.

(** The slot [find_registry] returns a pointer to. *)
Fixpoint find_registry_from (i : nat) (cars : list CarID) (nm : string)
  : option nat :=
  match cars with
  | [] => None
  | car :: rest =>
      if negb (in_use car =? 0) && streq (name car) nm then Some i
      else find_registry_from (S i) rest nm
  end.

Definition find_registry (cars : list CarID) (nm : string) : option nat :=
  find_registry_from 0 cars nm.

(** The frame [send_car] hands to [send_frame], if any. *)
Definition send_car (car : CarID) : list string :=
  if queue_len car <=? 0 then []
  else [strtake 31 ("FLOOR " ++ index_handler (aget (q car) 0))].

(** The row update of [update_status]. *)
Definition update_row (st cur dst : string) (car : CarID) : CarID :=
  set_row (strtake 15 st) (strtake 3 cur) (strtake 3 dst) car.

Definition car_scheduler_handler (car : CarID) : CarID * list string :=
  let car :=
    if queue_len car >? 0 then
      let head_str := index_handler (aget (q car) 0) in
      if streq (status car) "Opening" && streq (cur_floor car) head_str
      then dequeue_floor car
      else car
    else car in
  (car, if queue_len car >? 0 then send_car car else []).

(** *** The CALL frame *)

(** A [%ns] conversion after its white space: up to [n] characters that
    are not white space, and the rest of the input. *)
Fixpoint scan_token (n : nat) (s : string) : string * string :=
  match n, s with
  | S k, String c r =>
      if isspace c then (EmptyString, s)
      else let '(t, rest) := scan_token k r in (String c t, rest)
  | _, _ => (EmptyString, s)
  end.

Definition scan_s (n : nat) (s : string) : string * string :=
  scan_token n (skip_space s).

Fixpoint strip_prefix (p s : string) : option string :=
  match p, s with
  | EmptyString, _ => Some s
  | String a p', String b s' =>
      if Ascii.eqb a b then strip_prefix p' s' else None
  | String _ _, EmptyString => None
  end.

(** [sscanf (frame, "CALL %3s %3s", src_floor, dst_floor)] into two zeroed
    buffers: a conversion that finds nothing leaves its buffer empty and
    ends the scan. *)
Definition sscanf_call (frame : string) : string * string :=
  match strip_prefix "CALL" frame with
  | None => (EmptyString, EmptyString)
  | Some r =>
      let '(src_floor, r1) := scan_s 3 r in
      match src_floor with
      | EmptyString => (EmptyString, EmptyString)
      | _ => let '(dst_floor, _) := scan_s 3 r1 in (src_floor, dst_floor)
      end
  end.

Record call_result : Type := mk_call_result {
  registry_after : list CarID;
  to_client : list string;
  to_car : list string
}.

Definition tcp_call_thread (cars : list CarID) (frame : string) : call_result :=
  let '(src_floor, dst_floor) := sscanf_call frame in
  match floor_num_handler src_floor, floor_num_handler dst_floor with
  | Some src_floor_int, Some dst_floor_int =>
      if src_floor_int =? dst_floor_int
      then mk_call_result cars ["UNAVAILABLE"] []
      else
        match car_selector cars src_floor_int dst_floor_int with
        | Some car_name =>
            let reply := strtake 63 ("CAR " ++ car_name) in
            match find_registry cars car_name with
            | Some i =>
                match cars !! i with
                | Some car =>
                    let car := enqueue car src_floor_int dst_floor_int in
                    mk_call_result (<[i := car]> cars) [reply] (send_car car)
                | None => mk_call_result cars [reply] []
                end
            | None => mk_call_result cars [reply] []
            end
        | None => mk_call_result cars ["UNAVAILABLE"] []
        end
  | _, _ => mk_call_result cars ["UNAVAILABLE"] []
  end.

(** *** The queue as a list *)

(** The array holds 32 slots, of which the first [queue_len] are live. *)
Definition wf_queue (car : CarID) : Prop :=
  0 <= queue_len car <= MAX_QUEUE /\ length (q car) = Z.to_nat MAX_QUEUE.

(** First position of [x] in [l] counted from [i], or -1. *)
Fixpoint index_from (i : Z) (x : Z) (l : list Z) : Z :=
  match l with
  | [] => -1
  | y :: r => if y =? x then i else index_from (i + 1) x r
  end.

Definition index_of (x : Z) (l : list Z) : Z := index_from 0 x l.

Definition mem (x : Z) (l : list Z) : bool := existsb (fun y => y =? x) l.

(** [queue_floor] and [enqueue] as they act on the live part. *)
Definition push (l : list Z) (fnum : Z) : list Z :=
  if Z.of_nat (length l) <? MAX_QUEUE then l ++ [fnum] else l.

(** The second half of [enqueue]: the destination is placed behind the
    source. *)
Definition place_dst (l : list Z) (s d : Z) : list Z :=
  let src_index := index_of s l in
  let dst_index := index_of d l in
  let '(l, dst_index) :=
    if (dst_index >=? 0) && (dst_index <? src_index)
    then (delete (Z.to_nat dst_index) l, -1)
    else (l, dst_index) in
  if dst_index <? 0 then push l d else l.

Definition enqueue_list (l : list Z) (src dst : Z) : list Z :=
  if src =? dst then l
  else place_dst (if negb (mem src l) then push l src else l) src dst.

(** The rows a running controller can hold: registration and removal
    leave an empty queue; calls, status frames and the scheduler do the
    rest. *)
Inductive queue_reachable : CarID -> Prop :=
  | reach_empty (car : CarID) :
      length (q car) = Z.to_nat MAX_QUEUE -> queue_len car = 0 ->
      queue_reachable car
  | reach_enqueue (car : CarID) (src dst : Z) :
      queue_reachable car -> queue_reachable (enqueue car src dst)
  | reach_dequeue (car : CarID) :
      queue_reachable car -> queue_reachable (dequeue_floor car)
  | reach_row (car : CarID) (st cur dst : string) :
      queue_reachable car -> queue_reachable (update_row st cur dst car).

(** How many slots a call for [src], [dst] needs on top of [l]. *)
Definition slots_needed (src dst : Z) (l : list Z) : Z :=
  (if mem src l then 0 else 1) + (if mem dst l then 0 else 1).

(** *** Reading a CALL frame and the registry *)

(** A floor field that fits its buffer: at most three characters, none of
    them white space. *)
Fixpoint no_space (s : string) : bool :=
  match s with
  | EmptyString => true
  | String c r => negb (isspace c) && no_space r
  end.

Definition is_token (s : string) : bool :=
  Nat.leb (String.length s) 3 && no_space s.

Definition call_frame (src dst : string) : string :=
  "CALL " ++ src ++ " " ++ dst.

(** An in-use car whose inclusive range holds both floors. *)
Definition covers (car : CarID) (s d : Z) : Prop :=
  in_use car <> 0
  /\ lowest_floor car <= s <= highest_floor car
  /\ lowest_floor car <= d <= highest_floor car.

Definition first_cover (cars : list CarID) (s d : Z) (car : CarID) : Prop :=
  exists i : nat,
    cars !! i = Some car /\ covers car s d
    /\ forall (j : nat) (c : CarID),
         (j < i)%nat -> cars !! j = Some c -> ~ covers c s d.

Definition none_covers (cars : list CarID) (s d : Z) : Prop :=
  forall c : CarID, c ∈ cars -> ~ covers c s d.

(** Names fit [char name[32]]. *)
Definition names_fit (cars : list CarID) : Prop :=
  forall c : CarID, c ∈ cars -> (String.length (name c) <= 31)%nat.

(** Two rows with the same routing data: in-use flag, name and range. *)
Definition same_routing_data (c c' : CarID) : Prop :=
  in_use c = in_use c' /\ name c = name c'
  /\ lowest_floor c = lowest_floor c' /\ highest_floor c = highest_floor c'.

End Controller.

(** ** car.c *)

Module Car.
Import CLib Floor Shm.

(** The configured range, [g_lowest_floor_int] and [g_highest_floor_int]. *)
Record car_range : Type := mk_range {
  g_lowest_floor_int : Z;
  g_highest_floor_int : Z
}.

Definition floor_validator (cfg : car_range) (f : Z) : Z :=
  if f <? g_lowest_floor_int cfg then g_lowest_floor_int cfg
  else if f >? g_highest_floor_int cfg then g_highest_floor_int cfg
  else f.

Definition next_floor (current_floor destination_floor : Z) : Z :=
  if current_floor <? destination_floor then
    let nf := current_floor + 1 in
    if nf =? 0 then 1 else nf
  else if current_floor >? destination_floor then
    let nf := current_floor - 1 in
    if nf =? 0 then -1 else nf
  else current_floor.

(** [floor_num_handler] into an [int] initialised to 0, result ignored. *)
Definition floor_or_zero (f : string) : Z := default 0 (floor_num_handler f).

(** [status_handler], for a delay during which no other thread or process
    writes the block: the new block and [output]. *)
Definition status_handler (status_update : string) (m : car_shared_mem)
  : car_shared_mem * string :=
  let m := set_status status_update m in
  (m, strtake 7 (status m)).

Definition move_one_floor (cfg : car_range) (m : car_shared_mem)
  : car_shared_mem :=
  let '(m, _) := status_handler "Between" m in
  if streq (status m) "Between" then
    let current := floor_or_zero (current_floor m) in
    let destination := floor_or_zero (destination_floor m) in
    let next := next_floor current destination in
    let next := floor_validator cfg next in
    set_status "Closed" (set_current_floor (index_handler next) m)
  else m.

Definition service_between (cfg : car_range) (m : car_shared_mem)
  : car_shared_mem :=
  if (individual_service_mode m =? 0) || negb (streq (status m) "Closed")
  then m
  else
    let current := floor_or_zero (current_floor m) in
    let destination := floor_or_zero (destination_floor m) in
    if negb ((destination =? current + 1) || (destination =? current - 1))
    then set_destination_floor (strtake 3 (current_floor m)) m
    else move_one_floor cfg m.

(** *** The transmit thread *)

(** The frame [post_status] builds. *)
Definition post_status (m : car_shared_mem) : string :=
  strtake 63 ("STATUS " ++ strtake 7 (status m) ++ " "
              ++ strtake 3 (current_floor m) ++ " "
              ++ strtake 3 (destination_floor m)).

Record tx_state : Type := mk_tx {
  block : car_shared_mem;
  sent : list string;
  link_up : bool
}.

(** What the thread meets while no shutdown is requested: a timed wait
    that returns with [g_tx_flag] still 0, or [flag_status] raising the
    flag.  In the second case [post_ok] tells whether [post_status]
    succeeded and [expired] is the outcome of the clock comparison
    [now >= transmit_timeout] made after it. *)
Inductive tx_event : Type :=
  | Timed_out
  | Flagged (post_ok expired : bool).

(** The mode check that ends an iteration. *)
Definition tx_mode_check (m : car_shared_mem) (out : list string) : tx_state :=
  if negb (individual_service_mode m =? 0)
  then mk_tx m (out ++ ["INDIVIDUAL SERVICE"])%list false
  else if negb (emergency_mode m =? 0)
  then mk_tx m (out ++ ["EMERGENCY"])%list false
  else mk_tx m out true.

(** The counter block guarded by the clock comparison. *)
Definition tx_tick (m : car_shared_mem) (out : list string) : tx_state :=
  let val := safety_system m + 1 in
  let m := set_safety_system (to_uint8 val) m in
  if val >=? 3
  then mk_tx (set_emergency_mode 1 m) (out ++ ["EMERGENCY"])%list false
  else tx_mode_check m out.

(** One pass of the [for (;;)] body once the wait loop is left with the
    flag raised. *)
Definition tx_round (post_ok expired : bool) (st : tx_state) : tx_state :=
  let m := block st in
  if negb post_ok then mk_tx m (sent st) false
  else
    let out := (sent st ++ [post_status m])%list in
    if expired then tx_tick m out else tx_mode_check m out.

(** The wait loop is [while (!g_tx_flag)]: a timed wait that ends with the
    flag still 0 goes round again. *)
Definition tx_step (st : tx_state) (e : tx_event) : tx_state :=
  if negb (link_up st) then st
  else
    match e with
    | Timed_out => st
    | Flagged post_ok expired => tx_round post_ok expired st
    end.

Definition tcp_transmit_thread (st : tx_state) (es : list tx_event) : tx_state :=
  fold_left tx_step es st.

End Car.

(** ** safety.c *)

Module Safety.
Import CLib Floor Shm.

Record wake_result : Type := mk_wake {
  block_after : car_shared_mem;
  broadcasts : nat;
  printed : list string
}.

Definition is_valid_status (m : car_shared_mem) : bool :=
  streq (status m) "Closed" || streq (status m) "Opening"
  || streq (status m) "Open" || streq (status m) "Closing"
  || streq (status m) "Between".

Definition flag01 (v : Z) : bool := (v =? 0) || (v =? 1).

Definition are_valid_fields (m : car_shared_mem) : bool :=
  flag01 (open_button m) && flag01 (close_button m)
  && flag01 (door_obstruction m) && flag01 (overload m)
  && flag01 (emergency_stop m) && flag01 (individual_service_mode m)
  && flag01 (emergency_mode m).

Definition is_valid_obstruction (m : car_shared_mem) : bool :=
  (door_obstruction m =? 1)
  || (streq (status m) "Closing" || streq (status m) "Opening").

(** The return value of [floor_num_handler]. *)
Definition parses (f : string) : bool :=
  match floor_num_handler f with Some _ => true | None => false end.

(** The consistency check at the end of a wakeup. *)
Definition validate (n : nat) (m : car_shared_mem) : wake_result :=
  let valid_cur_floor := parses (current_floor m) in
  let valid_dst_floor := parses (destination_floor m) in
  if negb (emergency_mode m =? 1)
     && (negb valid_cur_floor || negb valid_dst_floor
         || negb (is_valid_status m) || negb (are_valid_fields m)
         || negb (is_valid_obstruction m))
  then mk_wake (set_emergency_mode 1 m) (S n) ["Data consistency error!"]
  else mk_wake m n [].

(** One pass of the monitor's loop after [pthread_cond_wait] returns. *)
Definition safety_wakeup (m : car_shared_mem) : wake_result :=
  let '(m, n) :=
    if negb (safety_system m =? 1)
    then (set_safety_system 1 m, 1%nat) else (m, 0%nat) in
  let '(m, n) :=
    if streq (status m) "Closing" && (door_obstruction m =? 1)
    then (set_status "Opening" m, S n) else (m, n) in
  if (emergency_stop m =? 1) && (emergency_mode m =? 0)
  then mk_wake (set_emergency_stop 0 (set_emergency_mode 1 m)) (S n)
         ["The emergency stop button has been pressed!"]
  else if (overload m =? 1) && (emergency_mode m =? 0)
  then mk_wake (set_emergency_mode 1 m) (S n)
         ["The overload sensor has been tripped!"]
  else validate n m.

(** *** Invariants 1 to 4 of the data model *)

Definition inv_status (m : car_shared_mem) : bool :=
  existsb (streq (status m)) ["Closed"; "Opening"; "Open"; "Closing"; "Between"].

Definition inv_floors (m : car_shared_mem) : bool :=
  parses (current_floor m) && parses (destination_floor m).

Definition inv_flags (m : car_shared_mem) : bool :=
  forallb flag01
    [open_button m; close_button m; door_obstruction m; overload m;
     emergency_stop m; individual_service_mode m; emergency_mode m].

Definition inv_obstruction (m : car_shared_mem) : bool :=
  implb (door_obstruction m =? 1)
    (existsb (streq (status m)) ["Opening"; "Closing"]).

Definition invariants_1_4 (m : car_shared_mem) : bool :=
  inv_status m && inv_floors m && inv_flags m && inv_obstruction m.

End Safety.

(** ** internal.c *)

Module Internal.
Import CLib Floor Shm.

Record panel_result : Type := mk_panel {
  exit_code : Z;
  block_after : car_shared_mem;
  broadcast : bool
}.

Definition succeed (m : car_shared_mem) : panel_result := mk_panel 0 m true.
Definition refuse (m : car_shared_mem) : panel_result := mk_panel 1 m false.

(** [main] from the lock on, for a block that could be attached. *)
Definition internal_main (operation : string) (m : car_shared_mem)
  : panel_result :=
  if streq operation "open" then succeed (set_open_button 1 m)
  else if streq operation "close" then succeed (set_close_button 1 m)
  else if streq operation "stop" then succeed (set_emergency_stop 1 m)
  else if streq operation "service_on"
  then succeed (set_emergency_mode 0 (set_individual_service_mode 1 m))
  else if streq operation "service_off"
  then succeed (set_individual_service_mode 0 m)
  else if streq operation "up" || streq operation "down" then
    if individual_service_mode m =? 0 then refuse m
    else if streq (status m) "Between" then refuse m
    else if negb (streq (status m) "Closed") then refuse m
    else
      match floor_num_handler (current_floor m) with
      | Some current_floor =>
          let next_floor :=
            current_floor + (if streq operation "up" then 1 else -1) in
          let next_floor :=
            if next_floor =? 0
            then (if streq operation "up" then 1 else -1)
            else next_floor in
          let dst_floor := index_handler next_floor in
          succeed (set_destination_floor (strtake 3 dst_floor) m)
      | None => succeed m
      end
  else refuse m.







End Internal.

(** ** Sample states *)

Module Samples.
Import CLib Floor Shm Controller.

(** Car A, serving floors 1 to 40, just registered. *)
Definition car_A : CarID :=
  mk_car 1 5 "A" 1 40 (repeat 0 32) 0 "Closed" "1" "1".

Definition calls (car : CarID) (ps : list (Z * Z)) : CarID :=
  fold_left (fun c p => enqueue c (fst p) (snd p)) ps car.

Definition pairs_upto (n : nat) : list (Z * Z) :=
  map (fun k => (2 * Z.of_nat k + 1, 2 * Z.of_nat k + 2)) (seq 0 n).

(** Car A after the calls 1 to 2, 3 to 4, ..., 31 to 32: its queue is full. *)
Definition car_full : CarID := calls car_A (pairs_upto 16).

(** Car A with one free slot: floors 1 to 31 queued. *)
Definition car_31 : CarID := enqueue (calls car_A (pairs_upto 15)) 30 31.

(** A block at rest: doors closed at floor 1, no flag raised, the monitor's
    token in place. *)
Definition healthy : car_shared_mem :=
  mk_shm "1" "1" "Closed" 0 0 1 0 0 0 0 0.

(** The obstruction sensor raised while the doors are closed. *)
Definition obstructed_closed : car_shared_mem :=
  mk_shm "1" "1" "Closed" 0 0 1 1 0 0 0 0.

(** A car in service mode at B1, doors closed. *)
Definition service_at_B1 : car_shared_mem :=
  mk_shm "B1" "B1" "Closed" 0 0 1 0 0 0 1 0.


End Samples.

(** ** Floor indices *)

Module FloorIndex.
Import CLib Floor Controller.

(** The indices floors have: 1..999 above ground, -99..-1 below. *)
Definition valid_index (i : Z) : bool :=
  ((1 <=? i) && (i <=? 999)) || ((-99 <=? i) && (i <=? -1)).

Definition valid_indices : list Z :=
  (map Z.of_nat (seq 1 999) ++ map (fun k => - Z.of_nat k) (seq 1 99))%list.

(** A text that does not go on with a digit. *)
Definition no_digit_ahead (t : string) : bool :=
  match t with
  | EmptyString => true
  | String c _ => negb (isdigit c)
  end.

(** The check behind the round trip from an index. *)
Definition round_trip_ok (i : Z) : bool :=
  match floor_num_handler (index_handler i) with
  | Some j => (j =? i) && valid_label (index_handler i)
  | None => false
  end.

(** A label is one field of a frame: one to three characters, none of
    them white space. *)
Definition label_is_field (i : Z) : bool :=
  is_token (index_handler i)
  && negb (String.eqb (index_handler i) EmptyString).

End FloorIndex.

(** ** What the floor parser accepts *)

Module FloorGrammar.
Import CLib Floor FloorIndex.

Fixpoint all_space (s : string) : bool :=
  match s with
  | EmptyString => true
  | String c r => isspace c && all_space r
  end.

(** A numeral as [strtol] takes it when the result is positive: white
    space, an optional plus sign, a run of digits (leading zeros allowed)
    that denotes [v], and then any text that does not go on with a
    digit. *)
Definition lenient_numeral (s : string) (v : Z) : Prop :=
  exists ws sign ds rest : string,
    s = ws ++ sign ++ ds ++ rest
    /\ all_space ws = true
    /\ (sign = "" \/ sign = "+")
    /\ ds <> "" /\ all_digits ds = true
    /\ no_digit_ahead rest = true
    /\ digits_value ds = v.

(** The strings that are read as the floor of index [i]: a lenient
    numeral of 1..999, or B or b and a lenient numeral of 1..99. *)
Definition reads_as (f : string) (i : Z) : Prop :=
  (1 <= i <= 999 /\ lenient_numeral f i)
  \/ (-99 <= i <= -1
      /\ exists r : string,
           (f = String "B" r \/ f = String "b" r) /\ lenient_numeral r (- i)).

(** *** The two readings of the spec's grammar *)

(** A decimal string denoting a number of [lo..hi], leading zeros
    allowed. *)
Definition numeral_in (lo hi : Z) (s : string) : bool :=
  match s with
  | EmptyString => false
  | String _ _ =>
      all_digits s && (lo <=? digits_value s) && (digits_value s <=? hi)
  end.

(** [valid_label] with leading zeros allowed. *)
Definition liberal_label (s : string) : bool :=
  match s with
  | String c r =>
      if Ascii.eqb c "B" then numeral_in 1 99 r else numeral_in 1 999 s
  | EmptyString => false
  end.

(** The round trip and the rejection as the spec states them, for a
    grammar [valid] of labels. *)
Definition codec_claim (valid : string -> bool) : Prop :=
  (forall s : string, valid s = true ->
     exists i : Z,
       floor_num_handler s = Some i /\ i <> 0 /\ index_handler i = s)
  /\ (forall s : string, valid s = false -> floor_num_handler s = None).

End FloorGrammar.

(** ** The frame codec (controller.c, car.c, call.c) *)

Module Frame.
Import CLib.

(** How one call of [read] or [write] ends, as far as the loops can tell:
    some bytes were moved ([k + 1] at most, never more than asked for or
    than there are), or the call was interrupted, or it failed (for [write]
    this includes a return of 0).  A [read] returns 0 exactly when the
    stream has ended.  Once a schedule is used up every call moves all it
    is asked for. *)
Inductive sys_result : Type :=
  | Sys_some (k : nat)
  | Sys_eintr
  | Sys_fail.

Definition quiet_result (r : sys_result) : bool :=
  match r with
  | Sys_fail => false
  | _ => true
  end.

(** A schedule without failures. *)
Definition quiet (os : list sys_result) : bool := forallb quiet_result os.

(** [write_all]: the bytes that reached the descriptor, whether all of
    them did, and what is left of the schedule. *)
Fixpoint write_all (os : list sys_result) (p : list ascii)
  : list ascii * bool * list sys_result :=
  match p with
  | [] => ([], true, os)
  | _ :: _ =>
      match os with
      | [] => (p, true, [])
      | Sys_eintr :: os' => write_all os' p
      | Sys_fail :: os' => ([], false, os')
      | Sys_some k :: os' =>
          let n := Nat.min (S k) (length p) in
          let '(out, ok, os'') := write_all os' (drop n p) in
          ((take n p ++ out)%list, ok, os'')
      end
  end.

(** [read_all] on the bytes [w] that are still to come: the [n] bytes
    read, the rest of the stream and of the schedule; [None] is -1. *)
Fixpoint read_all (os : list sys_result) (n : nat) (w : list ascii)
  : option (list ascii * list ascii * list sys_result) :=
  match n with
  | O => Some ([], w, os)
  | S _ =>
      match os with
      | [] =>
          if Nat.leb n (length w) then Some (take n w, drop n w, [])
          else None
      | Sys_eintr :: os' => read_all os' n w
      | Sys_fail :: _ => None
      | Sys_some k :: os' =>
          match w with
          | [] => None
          | _ :: _ =>
              let got := Nat.min (S k) (Nat.min n (length w)) in
              match read_all os' (n - got) (drop got w) with
              | Some (bs, rest, os'') => Some ((take got w ++ bs)%list, rest, os'')
              | None => None
              end
          end
      end
  end.

Definition byte_of (v : Z) : ascii := ascii_of_nat (Z.to_nat v).
Definition byte_val (b : ascii) : Z := Z.of_nat (nat_of_ascii b).

(** The string a buffer holds: its bytes up to the first NUL. *)
Fixpoint cstr (bs : list ascii) : string :=
  match bs with
  | [] => EmptyString
  | b :: r => if Ascii.eqb b zero then EmptyString else String b (cstr r)
  end.

(** The length is clamped to 16 bits and sent first, high byte first. *)
Definition send_frame (os : list sys_result) (s : string)
  : list ascii * Z * list sys_result :=
  let len := Z.of_nat (String.length s) in
  let len := if len >? 65535 then 65535 else len in
  let nlen := [byte_of (len / 256); byte_of (len mod 256)] in
  let '(out1, ok1, os1) := write_all os nlen in
  if negb ok1 then (out1, -1, os1)
  else
    let '(out2, ok2, os2) :=
      write_all os1 (take (Z.to_nat len) (list_ascii_of_string s)) in
    ((out1 ++ out2)%list, if ok2 then 0 else -1, os2).

(** The loop that reads and discards what does not fit, 512 bytes at a
    time. *)
Fixpoint drain (fuel : nat) (os : list sys_result) (remainder : Z)
    (w : list ascii) : option (list ascii * list sys_result) :=
  if remainder >? 0 then
    match fuel with
    | O => None
    | S fuel' =>
        let chunk := if remainder >? 512 then 512 else remainder in
        match read_all os (Z.to_nat chunk) w with
        | None => None
        | Some (_, w', os') => drain fuel' os' (remainder - chunk) w'
        end
    end
  else Some (w, os).

(** [receive_frame] into a buffer of [capacity] bytes, [capacity] at least
    1 as at every call: the string left in the buffer, and the rest of the
    stream and of the schedule. *)
Definition receive_frame (os : list sys_result) (w : list ascii)
    (capacity : Z) : option (string * list ascii * list sys_result) :=
  match read_all os 2 w with
  | Some ([hi; lo], w1, os1) =>
      let len := byte_val hi * 256 + byte_val lo in
      if len >=? capacity then
        let keep := capacity - 1 in
        match read_all os1 (Z.to_nat keep) w1 with
        | None => None
        | Some (buf, w2, os2) =>
            let remainder := len - keep in
            match drain (Z.to_nat remainder) os2 remainder w2 with
            | None => None
            | Some (w3, os3) => Some (cstr buf, w3, os3)
            end
        end
      else
        match read_all os1 (Z.to_nat len) w1 with
        | None => None
        | Some (buf, w2, os2) => Some (cstr buf, w2, os2)
        end
  | _ => None
  end.

(** No NUL inside, as for every C string. *)
Fixpoint nul_free (s : string) : bool :=
  match s with
  | EmptyString => true
  | String c r => negb (Ascii.eqb c zero) && nul_free r
  end.

Definition frame_ret (r : list ascii * Z * list sys_result) : Z := snd (fst r).
Definition frame_bytes (r : list ascii * Z * list sys_result) : list ascii :=
  fst (fst r).

(** The length [send_frame] announces. *)
Definition sent_len (s : string) : Z :=
  if Z.of_nat (String.length s) >? 65535 then 65535
  else Z.of_nat (String.length s).

End Frame.

(** ** The other stops of a queue *)

Module QueueView.
Import CLib Floor Controller.

(** The stops of [l] other than [d], in order. *)
Fixpoint without (d : Z) (l : list Z) : list Z :=
  match l with
  | [] => []
  | x :: r => if x =? d then without d r else x :: without d r
  end.

(** The source of a call as a new last stop: none when the call is for one
    floor, when the source is queued already or when the queue is full. *)
Definition new_source (l : list Z) (s d : Z) : list Z :=
  if (s =? d) || mem s l || (MAX_QUEUE <=? Z.of_nat (length l)) then []
  else [s].

End QueueView.

(** ** Floors in a row *)

Module CarMotion.
Import CLib Floor Shm Car.

(** The position of a floor in the shaft: B1 is 0 and 1 is 1, so that
    floors next to each other differ by one although no floor has index
    0. *)
Definition ordinal (f : Z) : Z := if f <? 0 then f + 1 else f.

(** How many floors lie between two floors. *)
Definition floor_distance (c d : Z) : nat :=
  Z.to_nat (Z.abs (ordinal d - ordinal c)).

(** The configured range as [main] accepts it. *)
Definition valid_range (cfg : car_range) : Prop :=
  FloorIndex.valid_index (g_lowest_floor_int cfg) = true
  /\ FloorIndex.valid_index (g_highest_floor_int cfg) = true
  /\ g_lowest_floor_int cfg <= g_highest_floor_int cfg.

Definition in_range (cfg : car_range) (f : Z) : Prop :=
  g_lowest_floor_int cfg <= f <= g_highest_floor_int cfg.

End CarMotion.

(** ** controller.c: the registry of cars *)

Module Registry.
Import CLib Floor Controller.

(** [g_cars] when the program starts: static storage is zeroed. *)
Definition empty_row : CarID :=
  mk_car 0 0 "" 0 0 (repeat 0 32) 0 "" "" "".

Definition g_cars_initial : list CarID := repeat empty_row 16.

(** The search loop of [car_connection_manager]: [free_idx] and [index]
    when it ends, the break included. *)
Fixpoint find_slot (i : Z) (cars : list CarID) (nm : string) (free_idx : Z)
  : Z * Z :=
  match cars with
  | [] => (free_idx, -1)
  | car :: rest =>
      if negb (in_use car =? 0) && streq (name car) nm then (free_idx, i)
      else find_slot (i + 1) rest nm
             (if (in_use car =? 0) && (free_idx <? 0) then i else free_idx)
  end.

(** The writes of [car_connection_manager] to the row it has chosen. *)
Definition register_row (fd : Z) (nm lowest : string)
    (lowest_floor highest_floor : Z) (car : CarID) : CarID :=
  mk_car 1 fd (strtake 31 nm) lowest_floor highest_floor (q car) 0
    "Closed" (strtake 3 lowest) (strtake 3 lowest).

(** The new registry and the returned index.  The writes of
    [shm_attach_car] go to the block of the car, not to the registry. *)
Definition car_connection_manager (cars : list CarID) (fd : Z)
    (nm lowest highest : string) : list CarID * Z :=
  match floor_num_handler lowest, floor_num_handler highest with
  | Some lowest_floor, Some highest_floor =>
      let '(lowest_floor, highest_floor) :=
        if lowest_floor >? highest_floor
        then (highest_floor, lowest_floor)
        else (lowest_floor, highest_floor) in
      let '(free_idx, index) := find_slot 0 cars nm (-1) in
      let index := if index <? 0 then free_idx else index in
      if index <? 0 then (cars, -2)
      else (alter (register_row fd nm lowest lowest_floor highest_floor)
              (Z.to_nat index) cars, index)
  | _, _ => (cars, -1)
  end.

(** The row [update_status] and [remove_car] stop at: the first one in
    use that holds the socket. *)
Fixpoint socket_row_from (i : nat) (cars : list CarID) (fd : Z)
  : option nat :=
  match cars with
  | [] => None
  | car :: rest =>
      if negb (in_use car =? 0) && (socket_fd car =? fd) then Some i
      else socket_row_from (S i) rest fd
  end.

Definition socket_row (cars : list CarID) (fd : Z) : option nat :=
  socket_row_from 0 cars fd.

(** The writes of [remove_car]: the name is cut at its first byte. *)
Definition free_row (car : CarID) : CarID :=
  mk_car 0 (-1) "" (lowest_floor car) (highest_floor car) (q car) 0
    (status car) (cur_floor car) (dst_floor car).

Definition remove_car (cars : list CarID) (fd : Z) : list CarID :=
  match socket_row cars fd with
  | Some i => alter free_row i cars
  | None => cars
  end.

Definition update_status (cars : list CarID) (fd : Z) (st cur dst : string)
  : list CarID :=
  match socket_row cars fd with
  | Some i => alter (update_row st cur dst) i cars
  | None => cars
  end.

(** [sscanf (s, "%15s %3s %3s", status, curr_floor, dst_floor)] into
    three zeroed buffers. *)
Definition sscanf_status (s : string) : string * string * string :=
  let '(st, r1) := scan_s 15 s in
  match st with
  | EmptyString => (EmptyString, EmptyString, EmptyString)
  | _ =>
      let '(cur, r2) := scan_s 3 r1 in
      match cur with
      | EmptyString => (st, EmptyString, EmptyString)
      | _ => let '(dst, _) := scan_s 3 r2 in (st, cur, dst)
      end
  end.

(** [sscanf (first_frame, "CAR %31s %3s %3s", name, lowest, highest)]. *)
Definition sscanf_car (frame : string) : string * string * string :=
  match strip_prefix "CAR" frame with
  | None => (EmptyString, EmptyString, EmptyString)
  | Some r =>
      let '(nm, r1) := scan_s 31 r in
      match nm with
      | EmptyString => (EmptyString, EmptyString, EmptyString)
      | _ =>
          let '(lo, r2) := scan_s 3 r1 in
          match lo with
          | EmptyString => (nm, EmptyString, EmptyString)
          | _ => let '(hi, _) := scan_s 3 r2 in (nm, lo, hi)
          end
      end
  end.

(** What handling one frame does: the registry, the frames sent to the
    car, and whether the thread goes on. *)
Record frame_result : Type := mk_frame_result {
  cars_after : list CarID;
  to_the_car : list string;
  goes_on : bool
}.

(** One pass of the loop of [tcp_car_thread]; [None] is a failed
    [receive_frame]. *)
Definition tcp_car_frame (cars : list CarID) (fd : Z) (nm : string)
    (frame : option string) : frame_result :=
  match frame with
  | None => mk_frame_result (remove_car cars fd) [] false
  | Some frame =>
      match strip_prefix "STATUS " frame with
      | Some r =>
          let '(status, curr_floor, dst_floor) := sscanf_status r in
          let cars := update_status cars fd status curr_floor dst_floor in
          match find_registry cars nm with
          | Some i =>
              match cars !! i with
              | Some car =>
                  let '(car, out) := car_scheduler_handler car in
                  mk_frame_result (<[i := car]> cars) out true
              | None => mk_frame_result cars [] true
              end
          | None => mk_frame_result cars [] true
          end
      | None =>
          if streq frame "INDIVIDUAL SERVICE" || streq frame "EMERGENCY"
          then mk_frame_result cars [] true
          else mk_frame_result (remove_car cars fd) [] false
      end
  end.

(** What [tcp_thread] does with a new connection: the registry, the
    frames sent back to the peer, the frames sent to a car, and the name
    under which [tcp_car_thread] takes over, if it does. *)
Record accept_result : Type := mk_accept {
  registry : list CarID;
  to_peer : list string;
  to_served_car : list string;
  car_thread : option string
}.

Definition tcp_thread (cars : list CarID) (fd : Z)
    (first_frame : option string) : accept_result :=
  match first_frame with
  | None => mk_accept cars [] [] None
  | Some first_frame =>
      match strip_prefix "CAR " first_frame with
      | Some _ =>
          let '(nm, car_lowest_floor, car_highest_floor) :=
            sscanf_car first_frame in
          let '(cars', index) :=
            car_connection_manager cars fd nm car_lowest_floor
              car_highest_floor in
          if index <? 0 then mk_accept cars' [] [] None
          else mk_accept cars' [] [] (Some nm)
      | None =>
          match strip_prefix "CALL " first_frame with
          | Some _ =>
              let r := tcp_call_thread cars first_frame in
              mk_accept (registry_after r) (to_client r) (to_car r) None
          | None => mk_accept cars [] [] None
          end
      end
  end.





(** A row in use under a name, and a row in use on a socket. *)
Definition named (nm : string) (c : CarID) : Prop :=
  in_use c <> 0 /\ name c = nm.

Definition holds (fd : Z) (c : CarID) : Prop :=
  in_use c <> 0 /\ socket_fd c = fd.

(** *** What every registry satisfies *)



(** No two rows in use carry the same name. *)
Definition unique_names (cars : list CarID) : Prop :=
  forall (i j : nat) (ci cj : CarID),
    cars !! i = Some ci -> cars !! j = Some cj ->
    in_use ci <> 0 -> in_use cj <> 0 -> name ci = name cj -> i = j.


End Registry.

(** ** controller.c: threads and critical sections *)

Module Sections.
Import CLib Floor FloorIndex Controller Registry.

(** The registry is shared by the threads of the controller and guarded
    by one lock.  Here each thread goes from one place where it does not
    hold the lock to the next, one critical section at a time, and the
    steps of different threads come in any order.  The handlers
    [tcp_thread], [tcp_call_thread] and [tcp_car_frame] above are the
    steps of one thread run back to back. *)

(** Where a thread of the controller stands while it does not hold the
    lock of the registry: [tcp_thread] before its first frame;
    [tcp_call_thread] between the critical section of [car_selector] and
    its own; [tcp_car_thread] at its [receive_frame], or between the
    critical section of [update_status] and the one of the scheduler. *)
Inductive thread : Type :=
  | Connected (socket_fd : Z)
  | Call_chosen (socket_fd : Z) (car_name : string)
      (src_floor_int dst_floor_int : Z)
  | Car_listens (socket_fd : Z) (name : string)
  | Car_reported (socket_fd : Z) (name : string)
  | Finished.

(** What a step of a thread leaves: the registry, the thread, and the
    frames it has sent, each with the socket it went to. *)
Record step_result : Type := mk_step {
  cars_now : list CarID;
  thread_now : thread;
  sent : list (Z * string)
}.

(** [tcp_call_thread] up to its reply: the frame is read, and
    [car_selector] runs in its critical section. *)
Definition call_select (cars : list CarID) (fd : Z) (frame : string)
  : step_result :=
  let '(src_floor, dst_floor) := sscanf_call frame in
  match floor_num_handler src_floor, floor_num_handler dst_floor with
  | Some src_floor_int, Some dst_floor_int =>
      if src_floor_int =? dst_floor_int
      then mk_step cars Finished [(fd, "UNAVAILABLE")]
      else
        match car_selector cars src_floor_int dst_floor_int with
        | Some car_name =>
            mk_step cars (Call_chosen fd car_name src_floor_int dst_floor_int)
              [(fd, strtake 63 ("CAR " ++ car_name))]
        | None => mk_step cars Finished [(fd, "UNAVAILABLE")]
        end
  | _, _ => mk_step cars Finished [(fd, "UNAVAILABLE")]
  end.

(** The critical section of [tcp_call_thread]: [find_registry], [enqueue]
    and [send_car]. *)
Definition call_enqueue (cars : list CarID) (car_name : string)
    (src_floor_int dst_floor_int : Z) : step_result :=
  match find_registry cars car_name with
  | Some i =>
      match cars !! i with
      | Some car =>
          let car := enqueue car src_floor_int dst_floor_int in
          mk_step (<[i := car]> cars) Finished
            (map (pair (Controller.socket_fd car)) (send_car car))
      | None => mk_step cars Finished []
      end
  | None => mk_step cars Finished []
  end.

(** [tcp_car_thread] from its [receive_frame] to the end of
    [update_status], or of [remove_car]. *)
Definition car_receive (cars : list CarID) (fd : Z) (nm : string)
    (frame : option string) : step_result :=
  match frame with
  | None => mk_step (remove_car cars fd) Finished []
  | Some frame =>
      match strip_prefix "STATUS " frame with
      | Some r =>
          let '(status, curr_floor, dst_floor) := sscanf_status r in
          mk_step (update_status cars fd status curr_floor dst_floor)
            (Car_reported fd nm) []
      | None =>
          if streq frame "INDIVIDUAL SERVICE" || streq frame "EMERGENCY"
          then mk_step cars (Car_listens fd nm) []
          else mk_step (remove_car cars fd) Finished []
      end
  end.

(** The critical section of [tcp_car_thread]: [find_registry] and the
    scheduler. *)
Definition car_schedule (cars : list CarID) (fd : Z) (nm : string)
  : step_result :=
  match find_registry cars nm with
  | Some i =>
      match cars !! i with
      | Some car =>
          let '(car, out) := car_scheduler_handler car in
          mk_step (<[i := car]> cars) (Car_listens fd nm)
            (map (pair (Controller.socket_fd car)) out)
      | None => mk_step cars (Car_listens fd nm) []
      end
  | None => mk_step cars (Car_listens fd nm) []
  end.

(** [tcp_thread] from its [receive_frame] to the end of the first
    critical section. *)
Definition first_frame_step (cars : list CarID) (fd : Z)
    (first_frame : option string) : step_result :=
  match first_frame with
  | None => mk_step cars Finished []
  | Some first_frame =>
      match strip_prefix "CAR " first_frame with
      | Some _ =>
          let '(nm, car_lowest_floor, car_highest_floor) :=
            sscanf_car first_frame in
          let '(cars', index) :=
            car_connection_manager cars fd nm car_lowest_floor
              car_highest_floor in
          mk_step cars' (if index <? 0 then Finished else Car_listens fd nm) []
      | None =>
          match strip_prefix "CALL " first_frame with
          | Some _ => call_select cars fd first_frame
          | None => mk_step cars Finished []
          end
      end
  end.

(** One step of a thread: from where it stands, through at most one
    critical section, to the next place where it does not hold the lock.
    [input] is what its [receive_frame] delivers ([None] when it fails);
    a thread that is not at a [receive_frame] does not look at it. *)
Definition thread_step (cars : list CarID) (th : thread)
    (input : option string) : step_result :=
  match th with
  | Connected fd => first_frame_step cars fd input
  | Call_chosen fd car_name src_floor_int dst_floor_int =>
      call_enqueue cars car_name src_floor_int dst_floor_int
  | Car_listens fd nm => car_receive cars fd nm input
  | Car_reported fd nm => car_schedule cars fd nm
  | Finished => mk_step cars Finished []
  end.

(** The controller: the registry and its threads. *)
Record controller_state : Type := mk_state {
  g_cars : list CarID;
  threads : list thread
}.

(** What happens next: [main] accepts a connection and starts a thread
    for it, or one of the threads takes its next step.  The lock makes
    the critical sections follow one another; any order of the steps of
    different threads is possible. *)
Inductive controller_event : Type :=
  | Accepts (socket_fd : Z)
  | Runs (k : nat) (input : option string).

Definition controller_step (st : controller_state) (e : controller_event)
  : controller_state :=
  match e with
  | Accepts fd => mk_state (g_cars st) (threads st ++ [Connected fd])
  | Runs k input =>
      match threads st !! k with
      | Some th =>
          let r := thread_step (g_cars st) th input in
          mk_state (cars_now r) (<[k := thread_now r]> (threads st))
      | None => st
      end
  end.

Definition controller_run (es : list controller_event) : controller_state :=
  fold_left controller_step es (mk_state g_cars_initial []).

(** *** What every registry satisfies *)

Definition row_sound (car : CarID) : Prop :=
  wf_queue car /\ NoDup (queue car)
  /\ (forall f, f ∈ queue car -> valid_index f = true)
  /\ (in_use car = 0 -> queue_len car = 0)
  /\ (in_use car <> 0 ->
      valid_index (lowest_floor car) = true
      /\ valid_index (highest_floor car) = true
      /\ lowest_floor car <= highest_floor car
      /\ no_space (Controller.name car) = true
      /\ Controller.name car <> EmptyString
      /\ (String.length (Controller.name car) <= 31)%nat).

Definition registry_sound (cars : list CarID) : Prop :=
  length cars = Z.to_nat MAX_CARS
  /\ (forall car, car ∈ cars -> row_sound car)
  /\ unique_names cars.

(** A call thread holds two floors that it has read. *)
Definition thread_sound (th : thread) : Prop :=
  match th with
  | Call_chosen _ _ src_floor_int dst_floor_int =>
      valid_index src_floor_int = true /\ valid_index dst_floor_int = true
  | _ => True
  end.

(** A call is chosen a car, the car registers again with other floors,
    and the call is queued. *)
Definition late_call : list controller_event :=
  [Accepts 6; Runs 0 (Some "CAR A 1 10");
   Accepts 7; Runs 1 (Some "CALL 3 7");
   Accepts 8; Runs 2 (Some "CAR A 20 30");
   Runs 1 None].

End Sections.

(** ** car.c: the link to the controller *)

Module CarLink.
Import CLib Floor Controller Shm Car.





(** The state the receive thread shares with the main loop. *)
Record car_process : Type := mk_process {
  shm : car_shared_mem;
  pending_floor : string;
  has_pending : Z
}.

(** [sscanf (rx_buf, "FLOOR %3s", floor)] into a zeroed buffer. *)
Definition sscanf_floor (rx_buf : string) : string :=
  match strip_prefix "FLOOR" rx_buf with
  | Some r => fst (scan_s 3 r)
  | None => EmptyString
  end.

(** One received frame in [tcp_receive_thread]. *)
Definition tcp_receive_frame (rx_buf : string) (p : car_process)
  : car_process :=
  match strip_prefix "FLOOR " rx_buf with
  | Some _ =>
      let floor := sscanf_floor rx_buf in
      if streq (status (shm p)) "Between"
      then mk_process (shm p) (strtake 3 floor) 1
      else mk_process (set_destination_floor (strtake 3 floor) (shm p))
             (pending_floor p) (has_pending p)
  | None => p
  end.

Definition exists_pending (p : car_process) : car_process :=
  if negb (has_pending p =? 0)
  then mk_process
         (set_destination_floor (strtake 3 (pending_floor p)) (shm p))
         EmptyString 0
  else p.


End CarLink.

(** ** call.c *)

Module Call.
Import CLib Floor Controller.




End Call.

(** ** car.c: what the transmit thread may write *)

Module CarWrites.
Import CLib Floor Shm Car.

(** Two blocks that differ at most in the watchdog counter and in
    [emergency_mode], the second never lowering a raised flag. *)
Definition watchdog_only (a b : car_shared_mem) : Prop :=
  current_floor b = current_floor a
  /\ destination_floor b = destination_floor a
  /\ status b = status a
  /\ open_button b = open_button a /\ close_button b = close_button a
  /\ door_obstruction b = door_obstruction a /\ overload b = overload a
  /\ emergency_stop b = emergency_stop a
  /\ individual_service_mode b = individual_service_mode a
  /\ (emergency_mode b = emergency_mode a \/ emergency_mode b = 1).

(** A STATUS frame or one of the two mode frames. *)
Definition car_frame (f : string) : Prop :=
  (exists m, f = post_status m) \/ f = "INDIVIDUAL SERVICE" \/ f = "EMERGENCY".

End CarWrites.

(** ** car.c: the main loop *)

Module CarLoop.
Import CLib Floor Controller Shm Car CarLink.

(** The main loop as it runs when nothing else writes the block while a
    pass is under way: the process, and the statuses written to the block
    so far, oldest first.  Every write of a status is followed by a
    notification and, through [flag_status], by a report to the
    controller. *)
Record loop_state : Type := mk_loop {
  process : car_process;
  written : list string
}.

Definition block_of (st : loop_state) : car_shared_mem := shm (process st).

Definition with_block (m : car_shared_mem) (st : loop_state) : loop_state :=
  mk_loop (mk_process m (pending_floor (process st))
             (has_pending (process st)))
    (written st).

(** [strcpy (g_shm_ptr->status, s)]. *)
Definition write_status (s : string) (st : loop_state) : loop_state :=
  mk_loop (process (with_block (set_status s (block_of st)) st))
    (written st ++ [s])%list.

Definition fetch_status (s : string) (st : loop_state) : bool :=
  streq (status (block_of st)) s.

Definition at_destination (st : loop_state) : bool :=
  streq (current_floor (block_of st)) (destination_floor (block_of st)).

(** [status_handler] with its [output]. *)
Definition status_handler_l (status_update : string) (st : loop_state)
  : loop_state * string :=
  let st := write_status status_update st in
  (st, strtake 7 (status (block_of st))).

(** The wait of [open_status_handler]: it is not entered when the close
    button is down; else a pressed open button is taken once and the wait
    ends by its timeout. *)
Definition open_window (m : car_shared_mem) : car_shared_mem :=
  if close_button m =? 0
  then (if open_button m =? 1 then set_open_button 0 m else m)
  else m.

Definition open_status_handler_l (status_update : string) (st : loop_state)
  : loop_state * string :=
  let st := write_status status_update st in
  let st := with_block (open_window (block_of st)) st in
  let st :=
    if close_button (block_of st) =? 1
    then with_block (set_close_button 0 (block_of st)) st else st in
  let st := write_status "Closing" st in
  let st :=
    if streq (status (block_of st)) "Closing"
    then write_status "Closed" st else st in
  (st, strtake 7 (status (block_of st))).

Definition to_close (st : loop_state) : loop_state := write_status "Closed" st.

Definition to_open (st : loop_state) : loop_state :=
  let '(st, out) := status_handler_l "Opening" st in
  if negb (streq out "Opening") then st
  else fst (open_status_handler_l "Open" st).

Definition exists_pending_l (st : loop_state) : loop_state :=
  mk_loop (exists_pending (process st)) (written st).

Definition move_one_floor_l (cfg : car_range) (st : loop_state) : loop_state :=
  let '(st, _) := status_handler_l "Between" st in
  if streq (status (block_of st)) "Between" then
    let current := floor_or_zero (current_floor (block_of st)) in
    let destination := floor_or_zero (destination_floor (block_of st)) in
    let next := next_floor current destination in
    let next := floor_validator cfg next in
    write_status "Closed"
      (with_block (set_current_floor (index_handler next) (block_of st)) st)
  else st.

Definition service_between_l (cfg : car_range) (st : loop_state) : loop_state :=
  if (individual_service_mode (block_of st) =? 0)
     || negb (fetch_status "Closed" st)
  then st
  else
    let current := floor_or_zero (current_floor (block_of st)) in
    let destination := floor_or_zero (destination_floor (block_of st)) in
    if negb ((destination =? current + 1) || (destination =? current - 1))
    then with_block
           (set_destination_floor (strtake 3 (current_floor (block_of st)))
              (block_of st)) st
    else move_one_floor_l cfg st.

(** The two buttons are read and released. *)
Definition take_buttons (st : loop_state) : Z * Z * loop_state :=
  (open_button (block_of st), close_button (block_of st),
   with_block (set_close_button 0 (set_open_button 0 (block_of st))) st).

(** The open button in service and in emergency mode: the doors open and
    stay open. *)
Definition open_and_hold (st : loop_state) : loop_state :=
  if fetch_status "Closed" st || fetch_status "Closing" st then
    let '(st, out) := status_handler_l "Opening" st in
    if streq out "Opening" then write_status "Open" st else st
  else st.

(** The condition of the wait at the head of the loop. *)
Definition main_waits (m : car_shared_mem) : bool :=
  (open_button m =? 0) && (close_button m =? 0)
  && (individual_service_mode m =? 0) && (emergency_mode m =? 0)
  && streq (current_floor m) (destination_floor m).

Definition service_pass (cfg : car_range) (st : loop_state) : loop_state :=
  let st := service_between_l cfg st in
  let '(open, close, st) := take_buttons st in
  let st := if negb (open =? 0) then open_and_hold st else st in
  if negb (close =? 0) then
    if fetch_status "Open" st
    then to_close (fst (status_handler_l "Closing" st))
    else st
  else st.

Definition emergency_pass (st : loop_state) : loop_state :=
  let '(open, close, st) := take_buttons st in
  let st := if negb (open =? 0) then open_and_hold st else st in
  if negb (close =? 0) then
    if fetch_status "Open" st then
      let '(st, out) := status_handler_l "Closing" st in
      if streq out "Closing" then write_status "Closed" st else st
    else if fetch_status "Closing" st then write_status "Closed" st
    else st
  else st.

(** Normal operation: the doors or one floor, ... *)
Definition normal_advance (cfg : car_range) (st : loop_state) : loop_state :=
  if at_destination st then exists_pending_l (to_open st)
  else if fetch_status "Closed" st then
    let st := move_one_floor_l cfg st in
    let st := if at_destination st then to_open st else st in
    exists_pending_l st
  else if fetch_status "Closing" st
  then to_close (fst (status_handler_l "Closing" st))
  else if fetch_status "Opening" st then to_open st
  else st.

(** ... then the buttons pressed meanwhile. *)
Definition normal_buttons (st : loop_state) : loop_state :=
  let '(open, close, st) := take_buttons st in
  let st :=
    if negb (open =? 0) then
      if fetch_status "Closed" st || fetch_status "Closing" st
      then to_open st else st
    else st in
  if negb (close =? 0) then
    if fetch_status "Open" st
    then to_close (fst (status_handler_l "Closing" st))
    else st
  else st.

Definition normal_pass (cfg : car_range) (st : loop_state) : loop_state :=
  normal_buttons (normal_advance cfg st).

(** One pass of the loop of [main], no shutdown requested: while the
    wait at its head holds the pass does not begin. *)
Definition main_loop_pass (cfg : car_range) (st : loop_state) : loop_state :=
  if main_waits (block_of st) then st
  else if negb (individual_service_mode (block_of st) =? 0)
  then service_pass cfg st
  else if negb (emergency_mode (block_of st) =? 0)
  then emergency_pass st
  else normal_pass cfg st.

(** *** The order of the statuses *)

(** The doors' rules over the statuses written after [prev]: Between
    is written only over Closed, and Open only over Opening. *)
Fixpoint door_rules (prev : string) (log : list string) : bool :=
  match log with
  | [] => true
  | s :: rest =>
      (if streq s "Between" then streq prev "Closed" else true)
      && (if streq s "Open" then streq prev "Opening" else true)
      && door_rules s rest
  end.

(** The last status of a log written over [prev]. *)
Fixpoint last_status (prev : string) (log : list string) : string :=
  match log with
  | [] => prev
  | s :: rest => last_status s rest
  end.

(** [st'] comes after [st] by the rules: it has only added to the log,
    the statuses added obey the rules of the doors and end in the status
    of the block, and the car has changed floor only if Between was
    written. *)
Definition follows (st st' : loop_state) : Prop :=
  exists new,
    written st' = (written st ++ new)%list
    /\ door_rules (status (block_of st)) new = true
    /\ status (block_of st') = last_status (status (block_of st)) new
    /\ (current_floor (block_of st') <> current_floor (block_of st) ->
        In "Between" new).

(** The car has stayed from [st] to [st']: same floor, same modes, and
    Between is not among the statuses added to the log. *)
Definition stays (st st' : loop_state) : Prop :=
  current_floor (block_of st') = current_floor (block_of st)
  /\ individual_service_mode (block_of st')
     = individual_service_mode (block_of st)
  /\ emergency_mode (block_of st') = emergency_mode (block_of st)
  /\ exists new,
       written st' = (written st ++ new)%list /\ ~ In "Between" new.

(** The statuses of [n] floors travelled and of the doors at arrival. *)
Fixpoint trip_statuses (n : nat) : list string :=
  match n with
  | O => ["Opening"; "Open"; "Closing"; "Closed"]
  | S k => "Between" :: "Closed" :: trip_statuses k
  end.

End CarLoop.

(** * Properties *)

(** ** Floor codec *)

Module FloorFacts.
Import CLib Floor.

Lemma isdigit_cases (c : ascii) :
  isdigit c = true ->
  In c ["0"; "1"; "2"; "3"; "4"; "5"; "6"; "7"; "8"; "9"]%char.
Proof.
  destruct c as [b0 b1 b2 b3 b4 b5 b6 b7].
  destruct b0, b1, b2, b3, b4, b5, b6, b7; vm_compute; intros H;
    try discriminate H; tauto.
Qed.

Lemma isdigit_val (c : ascii) : isdigit c = true -> 0 <= digit_val c <= 9.
Proof.
  intros H. apply isdigit_cases in H. simpl in H.
  repeat (destruct H as [<- | H]; [vm_compute; split; discriminate |]).
  destruct H.
Qed.

Lemma digits_value_from_ge (s : string) :
  forall acc, all_digits s = true -> 0 <= acc -> acc <= digits_value_from acc s.
Proof.
  induction s as [| c r IH]; intros acc Hd Hacc; simpl in *.
  - lia.
  - apply andb_prop in Hd as [Hc Hr].
    pose proof (isdigit_val c Hc).
    specialize (IH (acc * 10 + digit_val c) Hr). lia.
Qed.

Lemma read_digits_all (s : string) :
  forall acc n, all_digits s = true ->
    read_digits s acc n = (digits_value_from acc s, (n + String.length s)%nat).
Proof.
  induction s as [| c r IH]; intros acc n Hd; simpl in *.
  - f_equal. lia.
  - apply andb_prop in Hd as [Hc Hr]. rewrite Hc, IH by assumption.
    f_equal. lia.
Qed.

(** On a string of digits [strtol] reads the whole numeral. *)
Lemma strtol_digits (c : ascii) (r : string) :
  all_digits (String c r) = true ->
  strtol (String c r) = (clamp_long (digits_value (String c r)), true).
Proof.
  intros Hd. pose proof Hd as Hd'. simpl in Hd'.
  apply andb_prop in Hd' as [Hc _].
  unfold strtol.
  assert (Hs : skip_space (String c r) = String c r).
  { apply isdigit_cases in Hc. simpl in Hc.
    repeat (destruct Hc as [<- | Hc]; [reflexivity |]). destruct Hc. }
  rewrite Hs.
  assert (Hm : match String c r with
               | String "-"%char r0 => (true, r0)
               | String "+"%char r0 => (false, r0)
               | _ => (false, String c r)
               end = (false, String c r)).
  { apply isdigit_cases in Hc. simpl in Hc.
    repeat (destruct Hc as [<- | Hc]; [reflexivity |]). destruct Hc. }
  rewrite Hm, read_digits_all by assumption. reflexivity.
Qed.

Lemma digit_not_prefix (c : ascii) :
  isdigit c = true -> Ascii.eqb c "b" || Ascii.eqb c "B" = false.
Proof.
  intros Hc. apply isdigit_cases in Hc. simpl in Hc.
  repeat (destruct Hc as [<- | Hc]; [reflexivity |]). destruct Hc.
Qed.

Lemma clamp_long_small (v : Z) : 0 <= v <= 999 -> clamp_long v = v.
Proof.
  intros H. unfold clamp_long, LONG_MAX, LONG_MIN.
  destruct (v >? 2 ^ 63 - 1) eqn:E1; [lia |].
  destruct (v <? - 2 ^ 63) eqn:E2; [lia | reflexivity].
Qed.

Lemma clamp_long_big (v : Z) : 999 < v -> 999 < clamp_long v.
Proof.
  intros H. unfold clamp_long, LONG_MAX, LONG_MIN.
  destruct (v >? 2 ^ 63 - 1) eqn:E1; [lia |].
  destruct (v <? - 2 ^ 63) eqn:E2; lia.
Qed.

Lemma digits_value_nonneg (s : string) : all_digits s = true -> 0 <= digits_value s.
Proof. intros H. apply (digits_value_from_ge s 0 H). lia. Qed.

(** A digit string denoting a number outside [1..hi] is turned down by the
    range test, whichever branch reads it. *)
Lemma out_of_range_digits (s : string) (hi : Z) :
  all_digits s = true -> 0 < hi <= 999 ->
  digits_value s < 1 \/ hi < digits_value s ->
  let '(i, moved) := strtol s in
  negb moved || (i <? 1) || (i >? hi) = true.
Proof.
  intros Hd Hhi Hv. destruct s as [| c r].
  - reflexivity.
  - rewrite strtol_digits by assumption.
    pose proof (digits_value_nonneg _ Hd) as H0.
    destruct (Z_le_gt_dec (digits_value (String c r)) 999) as [Hle | Hgt].
    + rewrite clamp_long_small by lia. simpl negb. simpl orb.
      destruct Hv as [Hv | Hv].
      * apply Z.ltb_lt in Hv. rewrite Hv. reflexivity.
      * apply Z.gt_lt_iff, Z.gtb_gt in Hv. rewrite Hv. apply orb_true_r.
    + pose proof (clamp_long_big (digits_value (String c r)) ltac:(lia)) as Hb.
      assert (Hb' : (clamp_long (digits_value (String c r)) >? hi) = true)
        by (apply Z.gtb_gt; lia).
      rewrite Hb'. apply orb_true_r.
Qed.

Lemma reject_plain_digits (s : string) :
  all_digits s = true ->
  digits_value s < 1 \/ 999 < digits_value s ->
  floor_num_handler s = None.
Proof.
  intros Hd Hv. pose proof (out_of_range_digits s 999 Hd ltac:(lia) Hv) as H.
  destruct s as [| c r]; [reflexivity |].
  unfold floor_num_handler.
  pose proof Hd as Hd'. simpl in Hd'. apply andb_prop in Hd' as [Hc _].
  rewrite (digit_not_prefix c Hc).
  destruct (strtol (String c r)) as [i moved]. rewrite H. reflexivity.
Qed.

Lemma reject_basement_digits (p : ascii) (s : string) :
  p = "B"%char \/ p = "b"%char ->
  all_digits s = true ->
  digits_value s < 1 \/ 99 < digits_value s ->
  floor_num_handler (String p s) = None.
Proof.
  intros Hp Hd Hv. pose proof (out_of_range_digits s 99 Hd ltac:(lia) Hv) as H.
  unfold floor_num_handler.
  replace (Ascii.eqb p "b" || Ascii.eqb p "B") with true
    by (destruct Hp as [-> | ->]; reflexivity).
  destruct (strtol s) as [i moved]. rewrite H. reflexivity.
Qed.

(** A numeral without leading zero that denotes at most 999 has at most
    three digits. *)
Lemma decimal_in_short (lo hi : Z) (s : string) :
  hi <= 999 -> decimal_in lo hi s = true -> (String.length s <= 3)%nat.
Proof.
  intros Hhi H.
  destruct s as [| c1 [| c2 [| c3 [| c4 r]]]]; simpl String.length; try lia.
  exfalso. unfold decimal_in in H.
  apply andb_prop in H as [H Hle]. apply andb_prop in H as [H _].
  apply andb_prop in H as [Hd Hnz].
  pose proof Hd as Hd'. simpl in Hd'.
  apply andb_prop in Hd' as [H1 Hd']. apply andb_prop in Hd' as [H2 Hd'].
  apply andb_prop in Hd' as [H3 Hd']. apply andb_prop in Hd' as [H4 Hr].
  pose proof (isdigit_val _ H2). pose proof (isdigit_val _ H3).
  pose proof (isdigit_val _ H4).
  assert (1 <= digit_val c1).
  { apply isdigit_cases in H1. simpl in H1.
    destruct H1 as [<- | H1]; [discriminate Hnz |].
    repeat (destruct H1 as [<- | H1]; [vm_compute; discriminate |]).
    destruct H1. }
  unfold digits_value in Hle. simpl in Hle.
  pose proof (digits_value_from_ge r
    ((((0 * 10 + digit_val c1) * 10 + digit_val c2) * 10 + digit_val c3) * 10
     + digit_val c4) Hr ltac:(lia)).
  lia.
Qed.

Lemma decimal_in_digits (lo hi : Z) (s : string) :
  decimal_in lo hi s = true -> all_digits s = true.
Proof.
  destruct s; [discriminate |]. unfold decimal_in. intros H.
  apply andb_prop in H as [H _]. apply andb_prop in H as [H _].
  apply andb_prop in H as [H _]. exact H.
Qed.

Ltac digit_split H :=
  apply isdigit_cases in H; simpl in H;
  repeat (destruct H as [<- | H]); try contradiction.

(** The round trip on plain numerals. *)
Lemma plain_round_trip (s : string) :
  decimal_in 1 999 s = true ->
  exists i, floor_num_handler s = Some i /\ 0 < i /\ index_handler i = s.
Proof.
  intros H. pose proof (decimal_in_short 1 999 s ltac:(lia) H) as Hlen.
  pose proof (decimal_in_digits _ _ _ H) as Hd.
  destruct s as [| c1 [| c2 [| c3 [| c4 r]]]]; simpl in Hlen; try lia;
    try discriminate H; simpl in Hd;
    repeat match type of Hd with
      | (_ && _)%bool = true => let Hc := fresh "Hc" in apply andb_prop in Hd as [Hc Hd]
      end; clear Hd Hlen;
    repeat match goal with
      | Hc : isdigit _ = true |- _ => digit_split Hc
      end;
    try discriminate H;
    (eexists; split; [vm_compute; reflexivity | split; [reflexivity | reflexivity]]).
Qed.

Lemma basement_round_trip (r : string) :
  decimal_in 1 99 r = true ->
  exists i, floor_num_handler (String "B" r) = Some i /\ i < 0
            /\ index_handler i = String "B" r.
Proof.
  intros H. pose proof (decimal_in_short 1 99 r ltac:(lia) H) as Hlen.
  pose proof (decimal_in_digits _ _ _ H) as Hd.
  destruct r as [| c1 [| c2 [| c3 [| c4 r]]]]; simpl in Hlen; try lia;
    try discriminate H; simpl in Hd;
    repeat match type of Hd with
      | (_ && _)%bool = true => let Hc := fresh "Hc" in apply andb_prop in Hd as [Hc Hd]
      end; clear Hd Hlen;
    repeat match goal with
      | Hc : isdigit _ = true |- _ => digit_split Hc
      end;
    try discriminate H;
    (eexists; split; [vm_compute; reflexivity | split; [reflexivity | reflexivity]]).
Qed.

End FloorFacts.

(** ** The controller's queue *)

Module QueueFacts.
Import CLib Floor Controller.
Local Open Scope list_scope.

Ltac conj_split := repeat match goal with |- _ /\ _ => split end.

Lemma mem_elem (x : Z) (l : list Z) : mem x l = true <-> x ∈ l.
Proof.
  unfold mem. rewrite existsb_exists. split.
  - intros (y & Hin & Hy). apply Z.eqb_eq in Hy. subst. now apply list_elem_of_In.
  - intros Hin. exists x. split; [now apply list_elem_of_In | apply Z.eqb_refl].
Qed.

Lemma mem_false (x : Z) (l : list Z) : mem x l = false <-> x ∉ l.
Proof.
  rewrite <- mem_elem. destruct (mem x l); split; intros H; congruence.
Qed.

(** *** [index_of] *)

Lemma index_from_shift (x : Z) (l : list Z) :
  forall i, index_from i x l = -1 \/ i <= index_from i x l < i + Z.of_nat (length l).
Proof.
  induction l as [| y r IH]; intros i; simpl.
  - now left.
  - destruct (y =? x); [right; lia |].
    destruct (IH (i + 1)) as [-> | H]; [now left | right; lia].
Qed.

Lemma index_from_offset (x : Z) (l : list Z) :
  forall i, 0 <= i ->
    index_from i x l = if index_from 0 x l <? 0 then -1 else i + index_from 0 x l.
Proof.
  induction l as [| y r IH]; intros i Hi; simpl.
  - reflexivity.
  - destruct (y =? x); [simpl; lia |].
    rewrite (IH (i + 1)) by lia. rewrite (IH (0 + 1)) by lia.
    destruct (index_from_shift x r 0) as [-> | H]; simpl; [reflexivity |].
    destruct (index_from 0 x r <? 0) eqn:E; [lia |].
    destruct (0 + 1 + index_from 0 x r <? 0) eqn:E'; lia.
Qed.

Lemma index_of_range (x : Z) (l : list Z) :
  index_of x l = -1 \/ 0 <= index_of x l < Z.of_nat (length l).
Proof. unfold index_of. destruct (index_from_shift x l 0); [now left | right; lia]. Qed.

Lemma index_of_cons (x y : Z) (r : list Z) :
  index_of x (y :: r) =
  if y =? x then 0 else if index_of x r <? 0 then -1 else 1 + index_of x r.
Proof.
  unfold index_of. simpl. destruct (y =? x); [reflexivity |].
  now rewrite (index_from_offset x r (0 + 1)) by lia.
Qed.

Lemma index_of_absent (x : Z) (l : list Z) : index_of x l = -1 <-> x ∉ l.
Proof.
  induction l as [| y r IH].
  - split; [intros _; apply not_elem_of_nil | reflexivity].
  - rewrite index_of_cons, not_elem_of_cons.
    destruct (Z.eqb_spec y x) as [-> | Hne].
    + split; [lia | intros [H _]; congruence].
    + destruct (index_of_range x r) as [E | E].
      * rewrite E. simpl. split; [intros _; split; [congruence | now apply IH] | reflexivity].
      * destruct (index_of x r <? 0) eqn:E'; [lia |].
        split; [lia | intros [_ H]; apply IH in H; lia].
Qed.

Lemma index_of_present (x : Z) (l : list Z) : 0 <= index_of x l <-> x ∈ l.
Proof.
  destruct (decide (x ∈ l)) as [Hin | Hout].
  - split; [auto |]. intros _.
    destruct (index_of_range x l) as [E | E]; [| lia].
    apply index_of_absent in E. contradiction.
  - pose proof (proj2 (index_of_absent x l) Hout). split; [lia | contradiction].
Qed.

Lemma index_of_lookup (x : Z) (l : list Z) :
  x ∈ l -> l !! Z.to_nat (index_of x l) = Some x.
Proof.
  induction l as [| y r IH]; intros Hin.
  - now apply elem_of_nil in Hin.
  - rewrite index_of_cons. destruct (Z.eqb_spec y x) as [-> | Hne]; [reflexivity |].
    apply elem_of_cons in Hin as [-> | Hin]; [congruence |].
    pose proof (proj2 (index_of_present x r) Hin).
    destruct (index_of x r <? 0) eqn:E; [lia |].
    replace (Z.to_nat (1 + index_of x r)) with (S (Z.to_nat (index_of x r))) by lia.
    simpl. now apply IH.
Qed.

Lemma index_of_app_l (x : Z) (l r : list Z) :
  x ∈ l -> index_of x (l ++ r) = index_of x l.
Proof.
  induction l as [| y l IH]; intros Hin.
  - now apply elem_of_nil in Hin.
  - simpl app. rewrite !index_of_cons.
    destruct (Z.eqb_spec y x) as [-> | Hne]; [reflexivity |].
    apply elem_of_cons in Hin as [-> | Hin]; [congruence |].
    now rewrite IH.
Qed.

Lemma index_of_app_r (x : Z) (l : list Z) :
  x ∉ l -> index_of x (l ++ [x]) = Z.of_nat (length l).
Proof.
  induction l as [| y l IH]; intros Hout.
  - simpl app. rewrite index_of_cons. now rewrite Z.eqb_refl.
  - apply not_elem_of_cons in Hout as [Hne Hout]. simpl app.
    rewrite index_of_cons. destruct (Z.eqb_spec y x) as [-> | _]; [congruence |].
    rewrite IH by assumption. simpl length.
    destruct (Z.of_nat (length l) <? 0) eqn:E; lia.
Qed.

(** Deleting an earlier element moves a later one down by one. *)
Lemma index_of_delete_before (x : Z) (l : list Z) :
  forall d : nat, x ∈ l -> (Z.of_nat d < index_of x l) ->
    index_of x (delete d l) = index_of x l - 1.
Proof.
  induction l as [| y r IH]; intros d Hin Hlt.
  - now apply elem_of_nil in Hin.
  - rewrite index_of_cons in Hlt |- *.
    destruct (Z.eqb_spec y x) as [-> | Hne]; [lia |].
    apply elem_of_cons in Hin as [-> | Hin]; [congruence |].
    pose proof (proj2 (index_of_present x r) Hin) as Hp.
    destruct (index_of x r <? 0) eqn:E; [lia |].
    destruct d as [| d]; simpl delete.
    + lia.
    + rewrite index_of_cons. destruct (Z.eqb_spec y x); [congruence |].
      rewrite IH by (assumption || lia).
      destruct (index_of x r - 1 <? 0) eqn:E'; lia.
Qed.

Lemma delete_index_absent (x : Z) (l : list Z) :
  NoDup l -> x ∈ l -> x ∉ delete (Z.to_nat (index_of x l)) l.
Proof.
  induction l as [| y r IH]; intros Hnd Hin.
  - now apply elem_of_nil in Hin.
  - apply NoDup_cons in Hnd as [Hy Hnd]. rewrite index_of_cons.
    destruct (Z.eqb_spec y x) as [-> | Hne]; [exact Hy |].
    apply elem_of_cons in Hin as [-> | Hin]; [congruence |].
    pose proof (proj2 (index_of_present x r) Hin) as Hp.
    destruct (index_of x r <? 0) eqn:E; [lia |].
    replace (Z.to_nat (1 + index_of x r)) with (S (Z.to_nat (index_of x r))) by lia.
    simpl delete. apply not_elem_of_cons. split; [congruence | now apply IH].
Qed.

(** *** The loops over the array *)

Lemma in_queue_loop (a : list Z) (f : Z) (l : list Z) :
  forall (i : Z) (b : bool), 0 <= i ->
    (forall k : nat, (k < length l)%nat -> a !! (Z.to_nat i + k)%nat = l !! k) ->
    for_loop (length l) i (fun i found => found || (aget a i =? f)) b
    = b || mem f l.
Proof.
  induction l as [| x r IH]; intros i b Hi Hl; simpl.
  - now rewrite orb_false_r.
  - rewrite IH.
    + assert (Hx : aget a i = x).
      { unfold aget. specialize (Hl 0%nat ltac:(simpl; lia)).
        rewrite Nat.add_0_r in Hl. now rewrite Hl. }
      rewrite Hx. now rewrite orb_assoc.
    + lia.
    + intros k Hk. specialize (Hl (S k) ltac:(simpl; lia)). simpl in Hl.
      rewrite <- Hl. f_equal. lia.
Qed.

Lemma find_loop (a : list Z) (s d : Z) (l : list Z) :
  forall (i si di : Z), 0 <= i -> -1 <= si -> -1 <= di ->
    (forall k : nat, (k < length l)%nat -> a !! (Z.to_nat i + k)%nat = l !! k) ->
    for_loop (length l) i
      (fun i '(src_index, dst_index) =>
         let src_index :=
           if (aget a i =? s) && (src_index <? 0) then i else src_index in
         let dst_index :=
           if (aget a i =? d) && (dst_index <? 0) then i else dst_index in
         (src_index, dst_index)) (si, di)
    = (if si <? 0 then index_from i s l else si,
       if di <? 0 then index_from i d l else di).
Proof.
  induction l as [| x r IH]; intros i si di Hi Hsi Hdi Hl; simpl.
  - destruct (si <? 0) eqn:E1, (di <? 0) eqn:E2; f_equal; lia.
  - assert (Hx : aget a i = x).
    { unfold aget. specialize (Hl 0%nat ltac:(simpl; lia)).
      rewrite Nat.add_0_r in Hl. now rewrite Hl. }
    rewrite Hx, IH.
    + f_equal.
      * destruct (x =? s), (si <? 0) eqn:E; simpl; try rewrite E; try reflexivity.
        destruct (i <? 0) eqn:E'; [lia | reflexivity].
      * destruct (x =? d), (di <? 0) eqn:E; simpl; try rewrite E; try reflexivity.
        destruct (i <? 0) eqn:E'; [lia | reflexivity].
    + lia.
    + destruct ((x =? s) && (si <? 0)); lia.
    + destruct ((x =? d) && (di <? 0)); lia.
    + intros k Hk. specialize (Hl (S k) ltac:(simpl; lia)). simpl in Hl.
      rewrite <- Hl. f_equal. lia.
Qed.

Lemma shift_loop_length (n : nat) :
  forall (i : Z) (a : list Z),
    length (for_loop n i (fun i a => aset a (i - 1) (aget a i)) a) = length a.
Proof.
  induction n as [| n IH]; intros i a; simpl; [reflexivity |].
  rewrite IH. unfold aset. apply length_insert.
Qed.

Lemma shift_loop_lookup (n : nat) :
  forall (i : Z) (a : list Z) (k : nat),
    1 <= i -> (Z.to_nat i + n <= length a)%nat ->
    for_loop n i (fun i a => aset a (i - 1) (aget a i)) a !! k
    = if decide (k < Z.to_nat i - 1)%nat then a !! k
      else if decide (k < Z.to_nat i - 1 + n)%nat then a !! S k
      else a !! k.
Proof.
  induction n as [| n IH]; intros i a k Hi Hlen; simpl for_loop.
  - repeat case_decide; try lia; reflexivity.
  - rewrite IH by (unfold aset; rewrite ?length_insert; lia).
    unfold aset, aget.
    destruct (lookup_lt_is_Some_2 a (Z.to_nat i) ltac:(lia)) as [v Hv].
    rewrite Hv. simpl default.
    rewrite !list_lookup_insert.
    repeat case_decide; try lia; try reflexivity.
    + rewrite <- Hv. f_equal. lia.
Qed.

(** *** The array operations on the live part *)

Lemma queue_length (car : CarID) :
  wf_queue car -> length (queue car) = Z.to_nat (queue_len car).
Proof.
  intros [Hl Hq]. unfold queue. rewrite length_take. unfold MAX_QUEUE in *. lia.
Qed.

Lemma queue_lookup (car : CarID) (k : nat) :
  (k < length (queue car))%nat -> q car !! (Z.to_nat 0 + k)%nat = queue car !! k.
Proof.
  intros Hk. unfold queue in *. rewrite length_take in Hk.
  simpl. now rewrite lookup_take_lt by lia.
Qed.

Lemma in_queue_mem (car : CarID) (f : Z) :
  wf_queue car -> in_queue car f = mem f (queue car).
Proof.
  intros Hwf. unfold in_queue, for_range. rewrite Z.sub_0_r.
  rewrite <- (queue_length car Hwf).
  rewrite (in_queue_loop (q car) f (queue car) 0 false); [reflexivity | lia |].
  apply queue_lookup.
Qed.

Lemma find_indexes_index_of (car : CarID) (s d : Z) :
  wf_queue car ->
  find_indexes car s d = (index_of s (queue car), index_of d (queue car)).
Proof.
  intros Hwf. unfold find_indexes, for_range. rewrite Z.sub_0_r.
  rewrite <- (queue_length car Hwf).
  apply (find_loop (q car) s d (queue car) 0 (-1) (-1)); [lia.. |].
  apply queue_lookup.
Qed.

Lemma queue_floor_wf (car : CarID) (f : Z) :
  wf_queue car -> wf_queue (queue_floor car f).
Proof.
  intros [Hl Hq]. unfold queue_floor.
  destruct (queue_len car <? MAX_QUEUE) eqn:E; [| now split].
  split; simpl; [lia |]. unfold aset. now rewrite length_insert.
Qed.

Lemma queue_floor_push (car : CarID) (f : Z) :
  wf_queue car -> queue (queue_floor car f) = push (queue car) f.
Proof.
  intros Hwf. pose proof (queue_length car Hwf) as Hlen.
  destruct Hwf as [Hl Hq]. unfold queue_floor, push. rewrite Hlen.
  rewrite Z2Nat.id by lia.
  destruct (queue_len car <? MAX_QUEUE) eqn:E; [| reflexivity].
  unfold queue, aset. simpl. unfold MAX_QUEUE in *.
  replace (Z.to_nat (queue_len car + 1)) with (S (Z.to_nat (queue_len car))) by lia.
  rewrite (take_S_r _ _ f).
  - now rewrite take_insert_ge by lia.
  - apply list_lookup_insert_eq. lia.
Qed.

Lemma shift_down_wf (car : CarID) (d : Z) :
  wf_queue car -> 0 <= d < queue_len car ->
  wf_queue (set_queue (shift_down (d + 1) (queue_len car) (q car))
              (queue_len car - 1) car).
Proof.
  intros [Hl Hq] Hd. split; simpl; [lia |].
  unfold shift_down, for_range. now rewrite shift_loop_length.
Qed.

Lemma shift_down_delete (car : CarID) (d : Z) :
  wf_queue car -> 0 <= d < queue_len car ->
  queue (set_queue (shift_down (d + 1) (queue_len car) (q car))
           (queue_len car - 1) car)
  = delete (Z.to_nat d) (queue car).
Proof.
  intros [Hl Hq] Hd. unfold queue. simpl. unfold MAX_QUEUE in *.
  apply list_eq. intros k.
  rewrite list_lookup_delete, !lookup_take.
  unfold shift_down, for_range.
  rewrite shift_loop_lookup by lia.
  repeat case_decide; try lia; try reflexivity.
Qed.

Lemma dequeue_floor_wf (car : CarID) : wf_queue car -> wf_queue (dequeue_floor car).
Proof.
  intros Hwf. unfold dequeue_floor.
  destruct (queue_len car <=? 0) eqn:E; [assumption |].
  apply (shift_down_wf car 0 Hwf). lia.
Qed.

Lemma dequeue_floor_tail (car : CarID) :
  wf_queue car -> queue (dequeue_floor car) = tail (queue car).
Proof.
  intros Hwf. unfold dequeue_floor.
  destruct (queue_len car <=? 0) eqn:E.
  - unfold queue. replace (Z.to_nat (queue_len car)) with 0%nat by lia.
    reflexivity.
  - pose proof (shift_down_delete car 0 Hwf ltac:(lia)) as H.
    change (0 + 1) with 1 in H. rewrite H.
    now destruct (queue car).
Qed.

Lemma enqueue_wf (car : CarID) (s d : Z) :
  wf_queue car -> wf_queue (enqueue car s d).
Proof.
  intros Hwf. unfold enqueue.
  destruct (s =? d); [assumption |].
  set (car1 := if negb (in_queue car s) then queue_floor car s else car).
  assert (Hwf1 : wf_queue car1)
    by (subst car1; destruct (negb (in_queue car s)); auto using queue_floor_wf).
  rewrite (find_indexes_index_of car1 s d Hwf1).
  destruct ((index_of d (queue car1) >=? 0)
            && (index_of d (queue car1) <? index_of s (queue car1))) eqn:E.
  - simpl. apply queue_floor_wf. apply shift_down_wf; [assumption |].
    apply andb_prop in E as [E1 E2].
    destruct (index_of_range d (queue car1)) as [H | H]; [lia |].
    rewrite (queue_length car1 Hwf1) in H. lia.
  - destruct (index_of d (queue car1) <? 0); auto using queue_floor_wf.
Qed.

(** [enqueue] acts on the live part as [enqueue_list] does. *)
Lemma enqueue_queue (car : CarID) (s d : Z) :
  wf_queue car -> queue (enqueue car s d) = enqueue_list (queue car) s d.
Proof.
  intros Hwf. unfold enqueue, enqueue_list, place_dst.
  destruct (s =? d); [reflexivity |].
  rewrite (in_queue_mem car s Hwf).
  set (car1 := if negb (mem s (queue car)) then queue_floor car s else car).
  assert (Hwf1 : wf_queue car1)
    by (subst car1; destruct (negb (mem s (queue car))); auto using queue_floor_wf).
  assert (Hq1 : queue car1
                = if negb (mem s (queue car)) then push (queue car) s else queue car).
  { subst car1. destruct (negb (mem s (queue car))); [| reflexivity].
    now apply queue_floor_push. }
  rewrite (find_indexes_index_of car1 s d Hwf1). rewrite <- Hq1.
  destruct ((index_of d (queue car1) >=? 0)
            && (index_of d (queue car1) <? index_of s (queue car1))) eqn:E.
  - apply andb_prop in E as [E1 E2].
    assert (Hd : 0 <= index_of d (queue car1) < queue_len car1).
    { destruct (index_of_range d (queue car1)) as [H | H]; [lia |].
      rewrite (queue_length car1 Hwf1) in H. lia. }
    simpl. rewrite queue_floor_push by (now apply shift_down_wf).
    now rewrite shift_down_delete.
  - destruct (index_of d (queue car1) <? 0); [| reflexivity].
    now apply queue_floor_push.
Qed.

(** *** [enqueue] on a list without duplicates *)

Lemma push_cases (l : list Z) (f : Z) :
  (Z.of_nat (length l) < MAX_QUEUE /\ push l f = l ++ [f])
  \/ (MAX_QUEUE <= Z.of_nat (length l) /\ push l f = l).
Proof.
  unfold push. destruct (Z.of_nat (length l) <? MAX_QUEUE) eqn:E;
    [left | right]; split; (lia || reflexivity).
Qed.

(** Inserting the source. *)
Lemma insert_src_post (l : list Z) (s : Z) :
  NoDup l -> Z.of_nat (length l) <= MAX_QUEUE ->
  let l1 := if negb (mem s l) then push l s else l in
  NoDup l1 /\ Z.of_nat (length l1) <= MAX_QUEUE
  /\ (s ∈ l1 \/ Z.of_nat (length l1) = MAX_QUEUE)
  /\ (forall x, x <> s -> (x ∈ l1 <-> x ∈ l))
  /\ (Z.of_nat (length l) + (if mem s l then 0 else 1) <= MAX_QUEUE ->
      s ∈ l1
      /\ Z.of_nat (length l1) = Z.of_nat (length l) + (if mem s l then 0 else 1)).
Proof.
  intros Hnd Hlen. destruct (mem s l) eqn:Hm; simpl.
  - apply mem_elem in Hm. conj_split; auto; try lia.
    intros _. split; [assumption | lia].
  - apply mem_false in Hm.
    destruct (push_cases l s) as [[Hlt ->] | [Hge ->]].
    + rewrite length_app. simpl length. conj_split.
      * apply NoDup_app. conj_split; [assumption | | apply NoDup_singleton].
        intros x Hx Hx'. apply list_elem_of_singleton in Hx'. congruence.
      * lia.
      * left. apply elem_of_app. right. now apply list_elem_of_singleton.
      * intros x Hx. rewrite elem_of_app, list_elem_of_singleton. tauto.
      * intros _. split; [| lia].
        apply elem_of_app. right. now apply list_elem_of_singleton.
    + conj_split; auto; lia.
Qed.

Lemma place_dst_post (l : list Z) (s d : Z) :
  NoDup l -> Z.of_nat (length l) <= MAX_QUEUE -> s <> d ->
  let l' := place_dst l s d in
  NoDup l' /\ Z.of_nat (length l') <= MAX_QUEUE
  /\ (s ∈ l -> s ∈ l')
  /\ (Z.of_nat (length l) = MAX_QUEUE -> Z.of_nat (length l') = MAX_QUEUE)
  /\ (d ∈ l' \/ Z.of_nat (length l') = MAX_QUEUE)
  /\ (s ∈ l' -> d ∈ l' -> index_of s l' < index_of d l')
  /\ (Z.of_nat (length l) + (if mem d l then 0 else 1) <= MAX_QUEUE -> d ∈ l').
Proof.
  intros Hnd Hlen Hne. unfold place_dst.
  destruct ((index_of d l >=? 0) && (index_of d l <? index_of s l)) eqn:E.
  - (* the destination sits before the source: it is removed and appended *)
    apply andb_prop in E as [E1 E2].
    assert (Hd : d ∈ l) by (apply index_of_present; lia).
    assert (Hs : s ∈ l) by (apply index_of_present; lia).
    pose proof (index_of_range d l) as Hrd.
    pose proof (index_of_range s l) as Hrs.
    set (l2 := delete (Z.to_nat (index_of d l)) l).
    assert (Hlen2 : Z.of_nat (length l2) = Z.of_nat (length l) - 1).
    { subst l2. rewrite length_delete; [lia |].
      apply lookup_lt_is_Some. lia. }
    assert (Hd2 : d ∉ l2) by (now apply delete_index_absent).
    assert (Hs2 : index_of s l2 = index_of s l - 1).
    { subst l2. apply index_of_delete_before; [assumption | lia]. }
    assert (Hnd2 : NoDup l2).
    { subst l2. eapply sublist_NoDup; [exact Hnd | apply sublist_delete]. }
    assert (Hs2' : s ∈ l2) by (apply index_of_present; lia).
    simpl. destruct (push_cases l2 d) as [[Hlt ->] | [Hge _]]; [| lia].
    rewrite length_app. simpl length. conj_split.
    + apply NoDup_app. repeat split; [assumption | | apply NoDup_singleton].
      intros x Hx Hx'. apply list_elem_of_singleton in Hx'. congruence.
    + lia.
    + intros _. apply elem_of_app. now left.
    + lia.
    + left. apply elem_of_app. right. now apply list_elem_of_singleton.
    + intros _ _. rewrite index_of_app_l by assumption.
      rewrite index_of_app_r by assumption. lia.
    + intros _. apply elem_of_app. right. now apply list_elem_of_singleton.
  - destruct (index_of d l <? 0) eqn:E0.
    + (* the destination is absent *)
      assert (Hd : d ∉ l).
      { apply index_of_absent. destruct (index_of_range d l); lia. }
      pose proof (proj2 (mem_false d l) Hd) as Hm. rewrite Hm.
      destruct (push_cases l d) as [[Hlt ->] | [Hge ->]].
      * rewrite length_app. simpl length. conj_split.
        -- apply NoDup_app. repeat split; [assumption | | apply NoDup_singleton].
           intros x Hx Hx'. apply list_elem_of_singleton in Hx'. congruence.
        -- lia.
        -- intros Hs. apply elem_of_app. now left.
        -- lia.
        -- left. apply elem_of_app. right. now apply list_elem_of_singleton.
        -- intros Hs _. apply elem_of_app in Hs as [Hs | Hs];
             [| apply list_elem_of_singleton in Hs; congruence].
           rewrite index_of_app_l by assumption.
           rewrite index_of_app_r by assumption.
           destruct (index_of_range s l); lia.
        -- intros _. apply elem_of_app. right. now apply list_elem_of_singleton.
      * conj_split; auto; try lia.
        intros _ Hd'. contradiction.
    + (* the destination is there, and not before the source *)
      assert (Hd : d ∈ l) by (apply index_of_present; lia).
      conj_split; auto.
      * intros Hs _. apply andb_false_iff in E as [E | E]; [lia |].
        pose proof (index_of_lookup s l Hs) as Ls.
        pose proof (index_of_lookup d l Hd) as Ld.
        pose proof (proj2 (index_of_present s l) Hs).
        destruct (Z.eq_dec (index_of s l) (index_of d l)) as [Heq | Hneq];
          [rewrite Heq in Ls; congruence | lia].
Qed.

Lemma enqueue_list_place (l : list Z) (s d : Z) :
  s <> d ->
  enqueue_list l s d = place_dst (if negb (mem s l) then push l s else l) s d.
Proof.
  intros Hne. unfold enqueue_list.
  destruct (Z.eqb_spec s d); [contradiction | reflexivity].
Qed.

Lemma enqueue_list_post (l : list Z) (s d : Z) :
  NoDup l -> Z.of_nat (length l) <= MAX_QUEUE -> s <> d ->
  let l' := enqueue_list l s d in
  NoDup l' /\ Z.of_nat (length l') <= MAX_QUEUE
  /\ (s ∈ l' \/ Z.of_nat (length l') = MAX_QUEUE)
  /\ (d ∈ l' \/ Z.of_nat (length l') = MAX_QUEUE)
  /\ (s ∈ l' -> d ∈ l' -> index_of s l' < index_of d l')
  /\ (Z.of_nat (length l) + slots_needed s d l <= MAX_QUEUE -> s ∈ l' /\ d ∈ l').
Proof.
  intros Hnd Hlen Hne. simpl. rewrite enqueue_list_place by assumption.
  destruct (insert_src_post l s Hnd Hlen) as (Hnd1 & Hlen1 & Hs1 & Hsame & Hroom1).
  set (l1 := if negb (mem s l) then push l s else l) in *.
  destruct (place_dst_post l1 s d Hnd1 Hlen1 Hne)
    as (Hnd' & Hlen' & Hs' & Hfull & Hd' & Hord & Hroom').
  conj_split; auto.
  - destruct Hs1 as [Hs1 | Hs1]; [left; auto | right; auto].
  - intros Hroom.
    assert (Hroom_s : Z.of_nat (length l) + (if mem s l then 0 else 1) <= MAX_QUEUE).
    { unfold slots_needed in Hroom. destruct (mem s l), (mem d l); lia. }
    destruct (Hroom1 Hroom_s) as [Hin1 Hl1].
    split; [now apply Hs' |].
    apply Hroom'.
    assert (Hmd : mem d l1 = mem d l).
    { destruct (mem d l) eqn:Hm.
      - apply mem_elem. apply mem_elem in Hm. apply Hsame; [congruence | assumption].
      - apply mem_false. apply mem_false in Hm. intros Hin. apply Hm.
        apply Hsame; [congruence | assumption]. }
    rewrite Hmd, Hl1. unfold slots_needed in Hroom. lia.
Qed.

Lemma queue_floor_full (car : CarID) (f : Z) :
  MAX_QUEUE <= queue_len car -> queue_floor car f = car.
Proof.
  intros H. unfold queue_floor.
  destruct (queue_len car <? MAX_QUEUE) eqn:E; [lia | reflexivity].
Qed.

(** A row on which a call has nothing left to do. *)
Lemma enqueue_fixed (car : CarID) (s d : Z) :
  wf_queue car ->
  (s ∈ queue car \/ queue_len car = MAX_QUEUE) ->
  (d ∈ queue car \/ queue_len car = MAX_QUEUE) ->
  (s ∈ queue car -> d ∈ queue car ->
   index_of s (queue car) < index_of d (queue car)) ->
  enqueue car s d = car.
Proof.
  intros Hwf Hs Hd Hord. unfold enqueue.
  destruct (s =? d); [reflexivity |].
  rewrite (in_queue_mem car s Hwf).
  assert (H1 : (if negb (mem s (queue car)) then queue_floor car s else car) = car).
  { destruct (mem s (queue car)) eqn:Hm; [reflexivity |]. simpl.
    apply mem_false in Hm. destruct Hs as [Hs | Hs]; [contradiction |].
    apply queue_floor_full. lia. }
  rewrite H1, (find_indexes_index_of car s d Hwf).
  destruct ((index_of d (queue car) >=? 0)
            && (index_of d (queue car) <? index_of s (queue car))) eqn:E.
  - exfalso. apply andb_prop in E as [E1 E2].
    assert (d ∈ queue car) by (apply index_of_present; lia).
    assert (s ∈ queue car) by (apply index_of_present; lia).
    specialize (Hord ltac:(assumption) ltac:(assumption)). lia.
  - destruct (index_of d (queue car) <? 0) eqn:E0; [| reflexivity].
    destruct Hd as [Hd | Hd]; [apply index_of_present in Hd; lia |].
    apply queue_floor_full. lia.
Qed.

(** *** What every reachable row satisfies *)

Lemma update_row_queue (car : CarID) (st cur dst : string) :
  queue (update_row st cur dst car) = queue car.
Proof. reflexivity. Qed.

Lemma reachable_invariant (car : CarID) :
  queue_reachable car -> wf_queue car /\ NoDup (queue car).
Proof.
  induction 1 as [car Hq Hl | car s d _ [Hwf Hnd] | car _ [Hwf Hnd]
                 | car st cur dst _ [Hwf Hnd]].
  - split; [split; [unfold MAX_QUEUE; lia | assumption] |].
    unfold queue. rewrite Hl. apply NoDup_nil_2.
  - split; [now apply enqueue_wf |].
    rewrite enqueue_queue by assumption.
    destruct (Z.eq_dec s d) as [-> | Hne].
    + unfold enqueue_list. now rewrite Z.eqb_refl.
    + apply enqueue_list_post; [assumption | | assumption].
      rewrite queue_length by assumption. destruct Hwf. lia.
  - split; [now apply dequeue_floor_wf |].
    rewrite dequeue_floor_tail by assumption.
    destruct (queue car) as [| x r]; [assumption |].
    now apply NoDup_cons in Hnd as [_ Hnd].
  - split; assumption.
Qed.

Lemma calls_reachable (ps : list (Z * Z)) :
  forall car, queue_reachable car -> queue_reachable (Samples.calls car ps).
Proof.
  induction ps as [| p ps IH]; intros car H; simpl; [assumption |].
  apply IH. now apply reach_enqueue.
Qed.

Lemma car_A_reachable : queue_reachable Samples.car_A.
Proof. apply reach_empty; reflexivity. Qed.

(** *** Source before destination *)

(** C4, as the code has it: for every accepted call (the two floors
    differ) and every reachable queue with room for the floors the call
    adds, after [enqueue] the source floor sits at a strictly earlier
    position than the destination floor, and no floor is queued twice. *)
Theorem enqueue_src_before_dst (car : CarID) (src dst : Z) :
  queue_reachable car ->
  src <> dst ->
  queue_len car + slots_needed src dst (queue car) <= MAX_QUEUE ->
  NoDup (queue (enqueue car src dst))
  /\ exists i j : nat,
       queue (enqueue car src dst) !! i = Some src
       /\ queue (enqueue car src dst) !! j = Some dst
       /\ (i < j)%nat.
Proof.
  intros Hreach Hne Hroom.
  destruct (reachable_invariant car Hreach) as [Hwf Hnd].
  pose proof (queue_length car Hwf) as Hlen.
  assert (Hl : Z.of_nat (length (queue car)) <= MAX_QUEUE)
    by (destruct Hwf; lia).
  rewrite enqueue_queue by assumption.
  destruct (enqueue_list_post (queue car) src dst Hnd Hl Hne)
    as (Hnd' & _ & _ & _ & Hord & Hin).
  destruct Hin as [Hs Hd]; [destruct Hwf; lia |].
  split; [assumption |].
  exists (Z.to_nat (index_of src (enqueue_list (queue car) src dst))),
         (Z.to_nat (index_of dst (enqueue_list (queue car) src dst))).
  split; [now apply index_of_lookup |].
  split; [now apply index_of_lookup |].
  specialize (Hord Hs Hd).
  apply index_of_present in Hs. lia.
Qed.

Lemma enqueue_src_before_dst_witness :
  queue_reachable Samples.car_A /\ 3 <> 7
  /\ NoDup (queue (enqueue Samples.car_A 3 7))
  /\ exists i j : nat,
       queue (enqueue Samples.car_A 3 7) !! i = Some 3
       /\ queue (enqueue Samples.car_A 3 7) !! j = Some 7
       /\ (i < j)%nat.
Proof.
  split; [apply reach_empty; reflexivity |].
  split; [lia |].
  apply (enqueue_src_before_dst Samples.car_A 3 7).
  - apply reach_empty; reflexivity.
  - lia.
  - vm_compute. discriminate.
Defined.

Lemma car_full_reachable : queue_reachable Samples.car_full.
Proof. apply calls_reachable, car_A_reachable. Qed.

(** A full queue takes neither floor of a call the car can service. *)
Lemma enqueue_full_queue_counterexample :
  ~ (forall (car : CarID) (src dst : Z),
       queue_reachable car -> can_service car src dst = true -> src <> dst ->
       exists i j : nat,
         queue (enqueue car src dst) !! i = Some src
         /\ queue (enqueue car src dst) !! j = Some dst
         /\ (i < j)%nat).
Proof.
  intros H.
  destruct (H Samples.car_full 33 34 car_full_reachable eq_refl ltac:(lia))
    as (i & j & Hi & _).
  apply list_elem_of_lookup_2, mem_elem in Hi.
  vm_compute in Hi. discriminate Hi.
Qed.

(** *** Idempotence *)

(** C5: on every reachable queue, a call repeated right after itself
    leaves the row as the first call left it, and no floor is queued
    twice, before the call or after it. *)
Theorem enqueue_idempotent (car : CarID) (src dst : Z) :
  queue_reachable car ->
  enqueue (enqueue car src dst) src dst = enqueue car src dst
  /\ NoDup (queue car)
  /\ NoDup (queue (enqueue car src dst)).
Proof.
  intros Hreach.
  destruct (reachable_invariant car Hreach) as [Hwf Hnd].
  destruct (reachable_invariant _ (reach_enqueue car src dst Hreach))
    as [Hwf' Hnd'].
  split; [| split; assumption].
  destruct (Z.eq_dec src dst) as [-> | Hne].
  - unfold enqueue. now rewrite Z.eqb_refl.
  - assert (Hl : Z.of_nat (length (queue car)) <= MAX_QUEUE)
      by (rewrite queue_length by assumption; destruct Hwf; lia).
    pose proof (enqueue_list_post (queue car) src dst Hnd Hl Hne) as Hpost.
    simpl in Hpost. rewrite <- enqueue_queue in Hpost by assumption.
    destruct Hpost as (_ & _ & Hs & Hd & Hord & _).
    rewrite (queue_length _ Hwf') in Hs, Hd.
    assert (Hlen' : 0 <= queue_len (enqueue car src dst)) by (destruct Hwf'; lia).
    apply enqueue_fixed; try assumption.
    + destruct Hs as [Hs | Hs]; [now left | right; lia].
    + destruct Hd as [Hd | Hd]; [now left | right; lia].
Qed.

Lemma enqueue_idempotent_witness :
  queue_reachable Samples.car_A
  /\ enqueue (enqueue Samples.car_A 3 7) 3 7 = enqueue Samples.car_A 3 7
  /\ NoDup (queue Samples.car_A)
  /\ NoDup (queue (enqueue Samples.car_A 3 7)).
Proof.
  split; [apply reach_empty; reflexivity |].
  apply (enqueue_idempotent Samples.car_A 3 7).
  apply reach_empty; reflexivity.
Defined.

End QueueFacts.

(** ** The per-car scheduler *)

Module SchedulerFacts.
Import CLib Floor Controller QueueFacts.
Local Open Scope list_scope.

Lemma strtake_length (n : nat) :
  forall s : string, (String.length (strtake n s) <= n)%nat.
Proof.
  induction n as [| n IH]; intros [| c r]; simpl; try lia.
  specialize (IH r). lia.
Qed.

Lemma strtake_all (n : nat) :
  forall s : string, (String.length s <= n)%nat -> strtake n s = s.
Proof.
  induction n as [| n IH]; intros [| c r] H; simpl in *; try reflexivity; try lia.
  f_equal. apply IH. lia.
Qed.

Lemma index_handler_length (i : Z) : (String.length (index_handler i) <= 3)%nat.
Proof. unfold index_handler. destruct (i <? 0); apply strtake_length. Qed.

Lemma floor_frame (i : Z) :
  strtake 31 ("FLOOR " ++ index_handler i)%string
  = ("FLOOR " ++ index_handler i)%string.
Proof.
  apply strtake_all. pose proof (index_handler_length i). simpl. lia.
Qed.

Lemma queue_head (car : CarID) (h : Z) (t : list Z) :
  queue car = h :: t -> 0 < queue_len car /\ aget (q car) 0 = h.
Proof.
  unfold queue, aget. intros H.
  destruct (Z.to_nat (queue_len car)) as [| n] eqn:E; [discriminate H |].
  split; [lia |]. simpl. destruct (q car) as [| x r]; [discriminate H |].
  simpl in H. now inversion H.
Qed.

Lemma queue_nil (car : CarID) :
  wf_queue car -> queue car = [] -> queue_len car = 0.
Proof.
  intros Hwf H. pose proof (queue_length car Hwf) as Hl.
  rewrite H in Hl. simpl in Hl. destruct Hwf. lia.
Qed.

Lemma send_car_head (car : CarID) :
  wf_queue car ->
  send_car car = match queue car with
                 | [] => []
                 | h :: _ => [("FLOOR " ++ index_handler h)%string]
                 end.
Proof.
  intros Hwf. unfold send_car. destruct (queue car) as [| h t] eqn:Hq.
  - rewrite (queue_nil car Hwf Hq). reflexivity.
  - destruct (queue_head car h t Hq) as [Hl Hh].
    destruct (queue_len car <=? 0) eqn:E; [lia |].
    now rewrite Hh, floor_frame.
Qed.



End SchedulerFacts.

(** ** Call routing *)

Module RoutingFacts.
Import CLib Floor Controller QueueFacts SchedulerFacts.
Local Open Scope list_scope.

Lemma can_service_covers (car : CarID) (s d : Z) :
  can_service car s d = true <-> covers car s d.
Proof.
  unfold can_service, covers.
  destruct (Z.eqb_spec (in_use car) 0) as [H0 | H0].
  - split; [discriminate | intros [H _]; contradiction].
  - destruct (s <? lowest_floor car) eqn:E1; simpl.
    { split; [discriminate | lia]. }
    destruct (s >? highest_floor car) eqn:E2; simpl.
    { split; [discriminate | lia]. }
    destruct (d <? lowest_floor car) eqn:E3; simpl.
    { split; [discriminate | lia]. }
    destruct (d >? highest_floor car) eqn:E4; simpl.
    { split; [discriminate | lia]. }
    split; [intros _; lia | reflexivity].
Qed.

Lemma car_selector_skip (c : CarID) (rest : list CarID) (s d : Z) :
  ~ covers c s d -> car_selector (c :: rest) s d = car_selector rest s d.
Proof.
  intros H. simpl. destruct (in_use c =? 0); [reflexivity |].
  destruct (can_service c s d) eqn:E; [| reflexivity].
  apply can_service_covers in E. contradiction.
Qed.

Lemma car_selector_first (cars : list CarID) (s d : Z) (car : CarID) :
  names_fit cars -> first_cover cars s d car ->
  car_selector cars s d = Some (name car).
Proof.
  intros Hfit (i & Hi & Hc & Hbefore). revert cars Hfit Hi Hbefore.
  induction i as [| i IH]; intros [| c rest] Hfit Hi Hbefore;
    try discriminate Hi.
  - simpl in Hi. inversion Hi; subst c. cbn [car_selector].
    pose proof Hc as [Hu _]. apply Z.eqb_neq in Hu. rewrite Hu.
    apply can_service_covers in Hc. rewrite Hc.
    rewrite strtake_all; [reflexivity |]. apply Hfit. apply elem_of_cons. now left.
  - rewrite car_selector_skip by (apply (Hbefore 0%nat); [lia | reflexivity]).
    apply IH.
    + intros x Hx. apply Hfit. apply elem_of_cons. now right.
    + exact Hi.
    + intros j x Hj Hx. apply (Hbefore (S j)); [lia | exact Hx].
Qed.

Lemma car_selector_none (cars : list CarID) (s d : Z) :
  none_covers cars s d -> car_selector cars s d = None.
Proof.
  induction cars as [| c rest IH]; intros Hn; [reflexivity |].
  rewrite car_selector_skip by (apply Hn; apply elem_of_cons; now left).
  apply IH. intros x Hx. apply Hn. apply elem_of_cons. now right.
Qed.

Lemma car_selector_same (cars cars' : list CarID) (s d : Z) :
  Forall2 same_routing_data cars cars' ->
  car_selector cars s d = car_selector cars' s d.
Proof.
  induction 1 as [| c c' rest rest' (Hu & Hn & Hlo & Hhi) _ IH]; [reflexivity |].
  simpl. unfold can_service. rewrite Hu, Hn, Hlo, Hhi, IH. reflexivity.
Qed.

(** *** The two [%3s] conversions on a well-formed frame *)

Lemma scan_token_field (t : string) :
  forall (n : nat) (rest : string),
    no_space t = true -> (String.length t <= n)%nat ->
    scan_token n (t ++ String " " rest)%string = (t, String " "%char rest).
Proof.
  induction t as [| c r IH]; intros n rest Hns Hlen; simpl in *.
  - destruct n; reflexivity.
  - apply andb_prop in Hns as [Hc Hr]. apply negb_true_iff in Hc.
    destruct n as [| n]; [lia |]. simpl. rewrite Hc.
    rewrite IH by (assumption || lia). reflexivity.
Qed.

Lemma scan_token_last (t : string) :
  forall n : nat,
    no_space t = true -> (String.length t <= n)%nat ->
    scan_token n t = (t, EmptyString).
Proof.
  induction t as [| c r IH]; intros n Hns Hlen; simpl in *.
  - destruct n; reflexivity.
  - apply andb_prop in Hns as [Hc Hr]. apply negb_true_iff in Hc.
    destruct n as [| n]; [lia |]. simpl. rewrite Hc.
    rewrite IH by (assumption || lia). reflexivity.
Qed.

Lemma skip_space_token (t rest : string) :
  no_space t = true -> t <> EmptyString ->
  skip_space (t ++ rest)%string = (t ++ rest)%string.
Proof.
  destruct t as [| c r]; [congruence |]. simpl. intros Hns _.
  apply andb_prop in Hns as [Hc _]. apply negb_true_iff in Hc. now rewrite Hc.
Qed.

Lemma skip_space_last (t : string) : no_space t = true -> skip_space t = t.
Proof.
  destruct t as [| c r]; [reflexivity |]. simpl. intros Hns.
  apply andb_prop in Hns as [Hc _]. apply negb_true_iff in Hc. now rewrite Hc.
Qed.

Lemma is_token_parts (t : string) :
  is_token t = true -> (String.length t <= 3)%nat /\ no_space t = true.
Proof.
  unfold is_token. intros H. apply andb_prop in H as [H1 H2].
  apply Nat.leb_le in H1. now split.
Qed.

Lemma scan_s_last (t : string) :
  is_token t = true -> scan_s 3 (String " " t) = (t, EmptyString).
Proof.
  intros H. apply is_token_parts in H as [Hl Hn]. unfold scan_s.
  change (skip_space (String " " t)) with (skip_space t).
  rewrite skip_space_last by assumption. now apply scan_token_last.
Qed.

Lemma sscanf_call_fields (src dst : string) :
  is_token src = true -> is_token dst = true -> src <> EmptyString ->
  sscanf_call (call_frame src dst) = (src, dst).
Proof.
  intros Hs Hd Hne. pose proof Hs as Hs'. apply is_token_parts in Hs' as [Hl Hn].
  unfold sscanf_call, call_frame.
  change (strip_prefix "CALL" ("CALL " ++ src ++ " " ++ dst)%string)
    with (Some (String " " (src ++ String " " dst)%string)).
  unfold scan_s at 1.
  change (skip_space (String " " (src ++ String " " dst)%string))
    with (skip_space (src ++ String " " dst)%string).
  rewrite skip_space_token by assumption.
  rewrite scan_token_field by assumption.
  rewrite scan_s_last by assumption.
  destruct src; [congruence | reflexivity].
Qed.

Lemma sscanf_call_no_source (dst : string) :
  is_token dst = true -> snd (sscanf_call (call_frame "" dst)) = EmptyString.
Proof.
  intros Hd. unfold sscanf_call, call_frame.
  change (strip_prefix "CALL" ("CALL " ++ "" ++ " " ++ dst)%string)
    with (Some (String " " (String " " dst))).
  cbv iota beta.
  change (scan_s 3 (String " " (String " " dst)))
    with (scan_s 3 (String " " dst)).
  rewrite scan_s_last by assumption.
  destruct dst; reflexivity.
Qed.

Lemma parse_empty : floor_num_handler "" = None.
Proof. reflexivity. Qed.

(** C7, as the code has it: for a CALL frame whose two floor fields have
    at most three characters each, the reply is UNAVAILABLE when a floor
    does not parse or both parse to one index; otherwise it is CAR with
    the name of the first in-use car, in slot order, whose inclusive range
    holds both indices, and UNAVAILABLE when no in-use car holds both. *)
Theorem call_routing (cars : list CarID) (src dst : string) :
  names_fit cars ->
  is_token src = true -> is_token dst = true ->
  match floor_num_handler src, floor_num_handler dst with
  | Some s, Some d =>
      if s =? d
      then to_client (tcp_call_thread cars (call_frame src dst)) = ["UNAVAILABLE"]
      else
        (forall car, first_cover cars s d car ->
           to_client (tcp_call_thread cars (call_frame src dst))
           = [("CAR " ++ name car)%string])
        /\ (none_covers cars s d ->
            to_client (tcp_call_thread cars (call_frame src dst))
            = ["UNAVAILABLE"])
  | _, _ =>
      to_client (tcp_call_thread cars (call_frame src dst)) = ["UNAVAILABLE"]
  end.
Proof.
  intros Hfit Hs Hd.
  destruct (string_dec src EmptyString) as [-> | Hne].
  - rewrite parse_empty. unfold tcp_call_thread.
    pose proof (sscanf_call_no_source dst Hd) as H.
    destruct (sscanf_call (call_frame "" dst)) as [a b]. simpl in H. subst b.
    rewrite parse_empty. destruct (floor_num_handler a); reflexivity.
  - unfold tcp_call_thread. rewrite sscanf_call_fields by assumption.
    destruct (floor_num_handler src) as [s |]; [| reflexivity].
    destruct (floor_num_handler dst) as [d |]; [| reflexivity].
    destruct (s =? d); [reflexivity |]. split.
    + intros car Hfc. rewrite (car_selector_first cars s d car Hfit Hfc).
      assert (Hname : strtake 63 ("CAR " ++ name car)%string
                      = ("CAR " ++ name car)%string).
      { apply strtake_all. destruct Hfc as (i & Hi & _).
        apply list_elem_of_lookup_2, Hfit in Hi. simpl. lia. }
      rewrite Hname.
      destruct (find_registry cars (name car)) as [k |]; [| reflexivity].
      destruct (cars !! k); reflexivity.
    + intros Hn. now rewrite car_selector_none.
Qed.

Lemma call_routing_witness :
  names_fit [Samples.car_A]
  /\ to_client (tcp_call_thread [Samples.car_A] (call_frame "3" "7")) = ["CAR A"].
Proof.
  assert (Hfit : names_fit [Samples.car_A]).
  { intros c Hc. apply list_elem_of_singleton in Hc. subst c. simpl. lia. }
  split; [exact Hfit |].
  pose proof (call_routing [Samples.car_A] "3" "7" Hfit eq_refl eq_refl) as H.
  simpl in H. destruct H as [H _].
  apply (H Samples.car_A). exists 0%nat.
  split; [reflexivity |].
  split; [vm_compute; repeat split; discriminate |].
  intros j c Hj. lia.
Defined.

(** A source field of four characters that is no label: the first three
    are routed as the source, the fourth as the destination. *)
Lemma long_field_counterexample :
  ~ (forall (cars : list CarID) (src dst : string),
       names_fit cars ->
       floor_num_handler src = None \/ floor_num_handler dst = None ->
       to_client (tcp_call_thread cars (call_frame src dst)) = ["UNAVAILABLE"]).
Proof.
  intros H.
  assert (Hfit : names_fit [mk_car 1 5 "A" 1 200 (repeat 0 32) 0 "Closed" "1" "1"]).
  { intros c Hc. apply list_elem_of_singleton in Hc. subst c. simpl. lia. }
  specialize (H _ "1234" "5" Hfit (or_introl eq_refl)).
  vm_compute in H. discriminate H.
Qed.

End RoutingFacts.

(** ** Queue capacity *)

Module CapacityFacts.
Import CLib Floor Controller QueueFacts RoutingFacts.
Local Open Scope list_scope.

Lemma to_client_same (cars cars' : list CarID) (frame : string) :
  Forall2 same_routing_data cars cars' ->
  to_client (tcp_call_thread cars frame) = to_client (tcp_call_thread cars' frame).
Proof.
  intros H. unfold tcp_call_thread.
  destruct (sscanf_call frame) as [a b].
  destruct (floor_num_handler a) as [s |]; [| reflexivity].
  destruct (floor_num_handler b) as [d |]; [| reflexivity].
  destruct (s =? d); [reflexivity |].
  rewrite (car_selector_same cars cars' s d H).
  destruct (car_selector cars' s d) as [n |]; [| reflexivity].
  destruct (find_registry cars n) as [i |], (find_registry cars' n) as [i' |];
    try destruct (cars !! i); try destruct (cars' !! i'); reflexivity.
Qed.

End CapacityFacts.

(** ** The safety monitor *)

Module SafetyFacts.
Import CLib Floor Shm Safety.

(** What the check of the code amounts to. *)
Lemma validate_cases (n : nat) (m : car_shared_mem) :
  emergency_mode m = 0 ->
  validate n m
  = if inv_floors m && is_valid_status m && are_valid_fields m
       && is_valid_obstruction m
    then mk_wake m n []
    else mk_wake (set_emergency_mode 1 m) (S n) ["Data consistency error!"].
Proof.
  intros He. unfold validate, inv_floors. rewrite He. simpl negb. simpl andb.
  destruct (parses (current_floor m)), (parses (destination_floor m)),
    (is_valid_status m), (are_valid_fields m), (is_valid_obstruction m);
    reflexivity.
Qed.

(** C1 on blocks at rest: whenever the doors are closed and nothing
    obstructs them, the check sets [emergency_mode], whatever the other
    fields hold.  At the sample block invariants 1 to 4 hold and
    [emergency_mode] is 0, yet the check (alone, and as the last step of a
    wakeup) sets [emergency_mode] and reports a consistency error; and
    with the obstruction sensor raised while the doors are closed, where
    invariant 4 fails, the check lets the block pass. *)
Theorem validate_at_rest :
  (forall (n : nat) (m : car_shared_mem),
     emergency_mode m = 0 -> door_obstruction m = 0 -> status m = "Closed" ->
     validate n m
     = mk_wake (set_emergency_mode 1 m) (S n) ["Data consistency error!"])
  /\ invariants_1_4 Samples.healthy = true
  /\ emergency_mode Samples.healthy = 0
  /\ validate 0 Samples.healthy
     = mk_wake (set_emergency_mode 1 Samples.healthy) 1
         ["Data consistency error!"]
  /\ safety_wakeup Samples.healthy
     = mk_wake (set_emergency_mode 1 Samples.healthy) 1
         ["Data consistency error!"]
  /\ invariants_1_4 Samples.obstructed_closed = false
  /\ validate 0 Samples.obstructed_closed
     = mk_wake Samples.obstructed_closed 0 [].
Proof.
  split.
  - intros n m He Ho Hs. rewrite validate_cases by assumption.
    unfold is_valid_obstruction. rewrite Ho, Hs.
    change ((0 =? 1) || (streq "Closed" "Closing" || streq "Closed" "Opening"))
      with false.
    now rewrite andb_false_r.
  - repeat split; reflexivity.
Qed.

End SafetyFacts.

(** ** The car: watchdog and service moves *)

Module CarFacts.
Import CLib Floor Shm Car.

Lemma timed_out_stays (st : tx_state) (n : nat) :
  tcp_transmit_thread st (repeat Timed_out n) = st.
Proof.
  induction n as [| n IH]; [reflexivity |].
  simpl. unfold tcp_transmit_thread in IH.
  replace (tx_step st Timed_out) with st; [exact IH |].
  unfold tx_step. now destruct (link_up st).
Qed.

Lemma tick_from_one (m : car_shared_mem) (out : list string) :
  safety_system m = 1 -> individual_service_mode m = 0 -> emergency_mode m = 0 ->
  tx_tick m out = mk_tx (set_safety_system 2 m) out true
  /\ tx_tick (set_safety_system 2 m) out
     = mk_tx (set_emergency_mode 1 (set_safety_system 3 m))
         (out ++ ["EMERGENCY"])%list false.
Proof.
  intros H1 Hs He. unfold tx_tick, tx_mode_check. simpl. rewrite H1, Hs, He.
  split; reflexivity.
Qed.

(** C2 at a healthy block (counter at 1, link up): any number of timed
    waits that end without a status event leave the counter, the block and
    the link as they are; and when the counter block does run, the first
    run takes the counter from 1 to 2 and the second already declares the
    emergency. *)
Theorem watchdog_at_healthy_block :
  (forall (st : tx_state) (n : nat),
     tcp_transmit_thread st (repeat Timed_out n) = st)
  /\ (forall (m : car_shared_mem) (out : list string),
        safety_system m = 1 -> individual_service_mode m = 0 ->
        emergency_mode m = 0 ->
        tx_tick m out = mk_tx (set_safety_system 2 m) out true
        /\ tx_tick (set_safety_system 2 m) out
           = mk_tx (set_emergency_mode 1 (set_safety_system 3 m))
               (out ++ ["EMERGENCY"])%list false)
  /\ tcp_transmit_thread (mk_tx Samples.healthy [] true)
       (repeat Timed_out 3)
     = mk_tx Samples.healthy [] true
  /\ tcp_transmit_thread (mk_tx Samples.healthy [] true)
       [Flagged true true; Flagged true true]
     = mk_tx (set_emergency_mode 1 (set_safety_system 3 Samples.healthy))
         ["STATUS Closed 1 1"; "STATUS Closed 1 1"; "EMERGENCY"] false.
Proof.
  split; [intros st n; apply timed_out_stays |].
  split; [intros m out; apply tick_from_one |].
  split; reflexivity.
Qed.

Lemma service_between_reset (cfg : car_range) (m : car_shared_mem) (cur dst : string) :
  individual_service_mode m <> 0 -> status m = "Closed" ->
  current_floor m = cur -> destination_floor m = dst ->
  (floor_or_zero dst =? floor_or_zero cur + 1)
  || (floor_or_zero dst =? floor_or_zero cur - 1) = false ->
  service_between cfg m = set_destination_floor (strtake 3 cur) m.
Proof.
  intros Hs Hst Hc Hd Hadj. unfold service_between.
  apply Z.eqb_neq in Hs. rewrite Hs, Hst, Hc, Hd, Hadj. reflexivity.
Qed.

(** C8 between B1 and 1 in service mode, doors closed: with the car at B1
    and the destination 1, or at 1 with the destination B1,
    [service_between] resets the destination to the current floor and does
    not move, whatever the range and the other fields.  At the sample
    block the panel's up writes 1 as the destination, and the step function
    of normal mode agrees that 1 and B1 are next to each other. *)
Theorem service_between_at_B1 :
  (forall (cfg : car_range) (m : car_shared_mem),
     individual_service_mode m <> 0 -> status m = "Closed" ->
     current_floor m = "B1" -> destination_floor m = "1" ->
     service_between cfg m = set_destination_floor "B1" m)
  /\ (forall (cfg : car_range) (m : car_shared_mem),
        individual_service_mode m <> 0 -> status m = "Closed" ->
        current_floor m = "1" -> destination_floor m = "B1" ->
        service_between cfg m = set_destination_floor "1" m)
  /\ Internal.block_after (Internal.internal_main "up" Samples.service_at_B1)
     = set_destination_floor "1" Samples.service_at_B1
  /\ next_floor (-1) 1 = 1
  /\ next_floor 1 (-1) = -1
  /\ service_between (mk_range (-5) 10)
       (set_destination_floor "1" Samples.service_at_B1)
     = Samples.service_at_B1.
Proof.
  split; [| split].
  - intros cfg m Hs Hst Hc Hd.
    now apply (service_between_reset cfg m "B1" "1").
  - intros cfg m Hs Hst Hc Hd.
    now apply (service_between_reset cfg m "1" "B1").
  - repeat split; reflexivity.
Qed.

End CarFacts.

(** ** The service panel *)

Module PanelFacts.
Import CLib Floor Shm Internal.














End PanelFacts.

(** ** More on the floor codec *)

Module FloorIndexFacts.
Import CLib Floor FloorIndex FloorFacts.
Local Open Scope list_scope.

Lemma valid_index_listed (i : Z) : valid_index i = true -> In i valid_indices.
Proof.
  unfold valid_index, valid_indices. intros H. apply in_or_app.
  apply orb_prop in H as [H | H]; apply andb_prop in H as [H1 H2];
    apply Z.leb_le in H1; apply Z.leb_le in H2.
  - left. apply in_map_iff. exists (Z.to_nat i). split; [lia |].
    apply in_seq. lia.
  - right. apply in_map_iff. exists (Z.to_nat (- i)). split; [lia |].
    apply in_seq. lia.
Qed.

Lemma round_trip_checked : forallb round_trip_ok valid_indices = true.
Proof. vm_compute. reflexivity. Qed.

Lemma round_trip_ok_spec (i : Z) :
  round_trip_ok i = true ->
  floor_num_handler (index_handler i) = Some i
  /\ valid_label (index_handler i) = true.
Proof.
  unfold round_trip_ok. destruct (floor_num_handler (index_handler i)) as [j |];
    [| discriminate].
  intros H. apply andb_prop in H as [Hj Hv]. apply Z.eqb_eq in Hj.
  subst j. now split.
Qed.

Lemma index_parses (i : Z) :
  valid_index i = true -> floor_num_handler (index_handler i) = Some i.
Proof.
  intros H. apply round_trip_ok_spec.
  pose proof round_trip_checked as Hall. rewrite forallb_forall in Hall.
  apply Hall. now apply valid_index_listed.
Qed.

Lemma labels_checked : forallb label_is_field valid_indices = true.
Proof. vm_compute. reflexivity. Qed.

Lemma label_field (i : Z) :
  valid_index i = true ->
  Controller.is_token (index_handler i) = true
  /\ index_handler i <> EmptyString.
Proof.
  intros H. pose proof labels_checked as Hall.
  rewrite forallb_forall in Hall.
  specialize (Hall i (valid_index_listed i H)). unfold label_is_field in Hall.
  apply andb_prop in Hall as [H1 H2]. split; [exact H1 |].
  apply negb_true_iff in H2. now apply String.eqb_neq in H2.
Qed.

Lemma valid_index_range (i : Z) :
  valid_index i = true <-> (1 <= i <= 999 \/ -99 <= i <= -1).
Proof. unfold valid_index. lia. Qed.

(** X1: Index to label and back: on every floor index [index_handler] writes a
    valid label of at most three characters that [floor_num_handler] reads
    back as the same index. *)
Theorem index_label_round_trip (i : Z) :
  valid_index i = true ->
  floor_num_handler (index_handler i) = Some i
  /\ valid_label (index_handler i) = true.
Proof.
  intros H. apply round_trip_ok_spec.
  pose proof round_trip_checked as Hall. rewrite forallb_forall in Hall.
  apply Hall. now apply valid_index_listed.
Qed.

Lemma index_label_round_trip_witness :
  valid_index (-12) = true
  /\ floor_num_handler (index_handler (-12)) = Some (-12)
  /\ valid_label (index_handler (-12)) = true.
Proof.
  split; [reflexivity |]. apply (index_label_round_trip (-12)). reflexivity.
Defined.

Lemma accepted_index_valid (f : string) (i : Z) :
  floor_num_handler f = Some i -> valid_index i = true.
Proof.
  unfold floor_num_handler, valid_index. destruct f as [| c r]; [discriminate |].
  destruct (Ascii.eqb c "b" || Ascii.eqb c "B").
  - destruct (strtol r) as [v moved].
    destruct (negb moved || (v <? 1) || (v >? 99)) eqn:E; [discriminate |].
    intros H. inversion H; subst i. clear H.
    apply orb_false_elim in E as [E E3]. apply orb_false_elim in E as [_ E2].
    apply Z.ltb_ge in E2. rewrite Z.gtb_ltb in E3. apply Z.ltb_ge in E3.
    apply orb_true_iff. right. apply andb_true_iff.
    split; apply Z.leb_le; lia.
  - destruct (strtol (String c r)) as [v moved].
    destruct (negb moved || (v <? 1) || (v >? 999)) eqn:E; [discriminate |].
    intros H. inversion H; subst i. clear H.
    apply orb_false_elim in E as [E E3]. apply orb_false_elim in E as [_ E2].
    apply Z.ltb_ge in E2. rewrite Z.gtb_ltb in E3. apply Z.ltb_ge in E3.
    apply orb_true_iff. left. apply andb_true_iff.
    split; apply Z.leb_le; lia.
Qed.

(** X2: Whatever spelling [floor_num_handler] accepts (lower-case b, leading
    zeros, a sign, text after the number), the index it returns is a floor
    index, never 0, and [index_handler] turns it into the valid label of
    that floor. *)
Theorem accepted_floor_normalised (f : string) (i : Z) :
  floor_num_handler f = Some i ->
  valid_index i = true
  /\ valid_label (index_handler i) = true
  /\ floor_num_handler (index_handler i) = Some i.
Proof.
  intros H. pose proof (accepted_index_valid f i H) as Hv.
  split; [exact Hv |].
  pose proof round_trip_checked as Hall. rewrite forallb_forall in Hall.
  destruct (round_trip_ok_spec i (Hall i (valid_index_listed i Hv))) as [H1 H2].
  now split.
Qed.

Lemma accepted_floor_normalised_witness :
  floor_num_handler "b05" = Some (-5)
  /\ valid_index (-5) = true
  /\ valid_label (index_handler (-5)) = true
  /\ floor_num_handler (index_handler (-5)) = Some (-5).
Proof.
  split; [reflexivity |].
  apply (accepted_floor_normalised "b05" (-5)). reflexivity.
Defined.

Lemma read_digits_app (s t : string) :
  forall acc n, all_digits s = true -> no_digit_ahead t = true ->
    read_digits (s ++ t)%string acc n
    = (digits_value_from acc s, (n + String.length s)%nat).
Proof.
  induction s as [| c r IH]; intros acc n Hd Ht; simpl in *.
  - rewrite Nat.add_0_r. destruct t as [| c t]; [reflexivity |].
    simpl in Ht. apply negb_true_iff in Ht. simpl. now rewrite Ht.
  - apply andb_prop in Hd as [Hc Hr]. rewrite Hc, IH by assumption.
    f_equal. lia.
Qed.

Lemma strtol_digits_app (c : ascii) (r t : string) :
  all_digits (String c r) = true -> no_digit_ahead t = true ->
  strtol (String c r ++ t)%string = strtol (String c r).
Proof.
  intros Hd Ht. rewrite (strtol_digits c r Hd).
  pose proof Hd as Hd'. simpl in Hd'. apply andb_prop in Hd' as [Hc _].
  change (String c r ++ t)%string with (String c (r ++ t)%string).
  unfold strtol.
  assert (Hs : skip_space (String c (r ++ t)%string) = String c (r ++ t)%string).
  { apply isdigit_cases in Hc. simpl in Hc.
    repeat (destruct Hc as [<- | Hc]; [reflexivity |]). destruct Hc. }
  rewrite Hs.
  assert (Hm : match String c (r ++ t)%string with
               | String "-"%char r0 => (true, r0)
               | String "+"%char r0 => (false, r0)
               | _ => (false, String c (r ++ t)%string)
               end = (false, String c (r ++ t)%string)).
  { apply isdigit_cases in Hc. simpl in Hc.
    repeat (destruct Hc as [<- | Hc]; [reflexivity |]). destruct Hc. }
  rewrite Hm.
  change (String c (r ++ t)%string) with (String c r ++ t)%string.
  rewrite read_digits_app by assumption. reflexivity.
Qed.

(** X3: The parser reads a leading number and ignores what follows it: a
    valid label followed by any text that does not go on with a digit
    parses like the label alone. *)
Theorem trailing_text_ignored (s t : string) :
  valid_label s = true -> no_digit_ahead t = true ->
  floor_num_handler (s ++ t) = floor_num_handler s.
Proof.
  intros Hs Ht. destruct s as [| c r]; [discriminate Hs |].
  unfold valid_label in Hs.
  change (String c r ++ t)%string with (String c (r ++ t)%string).
  destruct (Ascii.eqb c "B") eqn:EB.
  - apply Ascii.eqb_eq in EB. subst c. unfold floor_num_handler.
    simpl orb. cbv iota.
    pose proof (decimal_in_digits _ _ _ Hs) as Hd.
    destruct r as [| c1 r1]; [discriminate Hs |].
    now rewrite (strtol_digits_app c1 r1 t Hd Ht).
  - pose proof (decimal_in_digits _ _ _ Hs) as Hd.
    pose proof Hd as Hd'. simpl in Hd'. apply andb_prop in Hd' as [Hc1 _].
    unfold floor_num_handler. rewrite (digit_not_prefix c Hc1).
    change (String c (r ++ t)%string) with (String c r ++ t)%string.
    now rewrite (strtol_digits_app c r t Hd Ht).
Qed.

Lemma trailing_text_ignored_witness :
  valid_label "12" = true /\ no_digit_ahead "abc" = true
  /\ floor_num_handler ("12" ++ "abc") = floor_num_handler "12".
Proof.
  split; [reflexivity |]. split; [reflexivity |].
  apply (trailing_text_ignored "12" "abc"); reflexivity.
Defined.

End FloorIndexFacts.

(** ** The floor codec, label by label *)

Module FloorGrammarFacts.
Import CLib Floor FloorIndex FloorGrammar FloorFacts FloorIndexFacts.

Lemma skip_space_shape (s : string) :
  exists ws : string,
    s = ws ++ skip_space s /\ all_space ws = true
    /\ match skip_space s with
       | String c _ => isspace c = false
       | EmptyString => True
       end.
Proof.
  induction s as [| c r IH]; cbn [skip_space].
  - exists "". now repeat split.
  - destruct (isspace c) eqn:E.
    + destruct IH as (ws & Hs & Hw & Hh). exists (String c ws).
      cbn. rewrite E, Hw. now rewrite <- Hs.
    + exists "". cbn. now repeat split.
Qed.

Lemma skip_space_app (ws t : string) :
  all_space ws = true ->
  match t with String c _ => isspace c = false | EmptyString => True end ->
  skip_space (ws ++ t) = t.
Proof.
  intros Hw Ht. induction ws as [| c ws IH]; cbn in *.
  - destruct t as [| c r]; [reflexivity |]. cbn. now rewrite Ht.
  - apply andb_prop in Hw as [Hc Hw]. rewrite Hc. now apply IH.
Qed.

Lemma read_digits_shape (s : string) :
  forall (acc : Z) (n : nat),
    exists ds rest : string,
      s = ds ++ rest /\ all_digits ds = true /\ no_digit_ahead rest = true
      /\ read_digits s acc n
         = (digits_value_from acc ds, (n + String.length ds)%nat).
Proof.
  induction s as [| c r IH]; intros acc n; cbn [read_digits].
  - exists "", "". cbn. rewrite Nat.add_0_r. now repeat split.
  - destruct (isdigit c) eqn:E.
    + destruct (IH (acc * 10 + digit_val c) (S n)) as (ds & rest & Hs & Hd & Hr & Hv).
      exists (String c ds), rest. cbn. rewrite E, Hd, Hv, <- Hs.
      repeat split; auto; f_equal; lia.
    + exists "", (String c r). cbn. rewrite E, Nat.add_0_r. now repeat split.
Qed.

Lemma digit_head (c : ascii) :
  isdigit c = true ->
  isspace c = false /\ c <> "-"%char /\ c <> "+"%char.
Proof.
  intros H. apply isdigit_cases in H. simpl in H.
  repeat (destruct H as [<- | H];
          [split; [reflexivity | split; discriminate] |]).
  destruct H.
Qed.

Lemma clamp_long_nonpos (v : Z) : v <= 0 -> clamp_long v <= 0.
Proof.
  intros H. unfold clamp_long, LONG_MAX, LONG_MIN.
  destruct (v >? 2 ^ 63 - 1) eqn:E1; [lia |].
  destruct (v <? - 2 ^ 63) eqn:E2; lia.
Qed.

(** What [strtol] has read when it reports a number of [1..hi]. *)
Lemma strtol_shape (s : string) (v hi : Z) :
  hi <= 999 -> strtol s = (v, true) -> 1 <= v <= hi -> lenient_numeral s v.
Proof.
  intros Hhi H Hv. unfold strtol in H.
  destruct (skip_space_shape s) as (ws & Hs & Hw & Hh).
  set (s1 := skip_space s) in *. clearbody s1.
  assert (Hcase :
    exists (neg : bool) (sign s2 : string),
      match s1 with
      | String "-"%char r => (true, r)
      | String "+"%char r => (false, r)
      | _ => (false, s1)
      end = (neg, s2)
      /\ s1 = sign ++ s2
      /\ (neg = true \/ sign = "" \/ sign = "+")).
  { destruct s1 as [| c r]; [exists false, "", ""; now auto |].
    destruct (Ascii.eqb_spec c "-") as [-> | Hm];
      [exists true, "-", r; now auto |].
    destruct (Ascii.eqb_spec c "+") as [-> | Hp];
      [exists false, "+", r; now auto |].
    exists false, "", (String c r). repeat split; auto.
    destruct c as [[] [] [] [] [] [] [] []]; try reflexivity;
      exfalso; auto. }
  destruct Hcase as (neg & sign & s2 & Hm & Hs1 & Hsign).
  rewrite Hm in H.
  destruct (read_digits_shape s2 0 0) as (ds & rest & Hs2 & Hd & Hr & Hrd).
  rewrite Hrd in H.
  change (digits_value_from 0 ds) with (digits_value ds) in H.
  pose proof (digits_value_nonneg _ Hd) as H0.
  set (dv := digits_value ds) in *.
  assert (Hne : ds <> "") by (intros ->; discriminate H).
  destruct (0 + String.length ds)%nat eqn:El;
    [destruct ds; [contradiction | discriminate El] |].
  injection H as H.
  destruct neg.
  - exfalso. pose proof (clamp_long_nonpos (- dv) ltac:(lia)). lia.
  - destruct Hsign as [Hn | Hsign]; [discriminate Hn |].
    destruct (Z_le_gt_dec dv 999) as [Hle | Hgt].
    + rewrite clamp_long_small in H by lia.
      exists ws, sign, ds, rest. repeat split; auto.
      now rewrite Hs, Hs1, Hs2.
    + pose proof (clamp_long_big dv ltac:(lia)). lia.
Qed.

(** And back: [strtol] on a lenient numeral. *)
Lemma strtol_lenient (s : string) (v : Z) :
  lenient_numeral s v -> 1 <= v <= 999 -> strtol s = (v, true).
Proof.
  intros (ws & sign & ds & rest & -> & Hw & Hsign & Hne & Hd & Hr & <-) Hv.
  destruct ds as [| c ds]; [contradiction |].
  pose proof Hd as Hd'. cbn in Hd'. apply andb_prop in Hd' as [Hc _].
  destruct (digit_head c Hc) as (Hsp & Hm & Hp).
  pose proof (read_digits_app (String c ds) rest 0 0 Hd Hr) as Hrd.
  change (digits_value_from 0 (String c ds)) with (digits_value (String c ds))
    in Hrd.
  pose proof (clamp_long_small (digits_value (String c ds)) ltac:(lia)) as Hcl.
  cbn [String.length Nat.add] in Hrd.
  unfold strtol.
  destruct Hsign as [-> | ->].
  - rewrite skip_space_app; [| exact Hw | exact Hsp].
    change ("" ++ String c ds ++ rest) with (String c (ds ++ rest)).
    change (String c ds ++ rest) with (String c (ds ++ rest)) in Hrd.
    revert Hrd. generalize (ds ++ rest). intros t Hrd.
    pose proof Hc as Hc'. apply isdigit_cases in Hc'. simpl in Hc'.
    repeat (destruct Hc' as [<- | Hc'];
            [cbv iota beta; now rewrite Hrd, Hcl |]).
    destruct Hc'.
  - rewrite skip_space_app; [| exact Hw | reflexivity].
    change ("+" ++ String c ds ++ rest) with (String "+" (String c ds ++ rest)).
    cbv iota beta. now rewrite Hrd, Hcl.
Qed.

(** A lenient numeral begins with white space, a plus sign or a digit. *)
Lemma lenient_numeral_head (s : string) (v : Z) :
  lenient_numeral s v ->
  match s with
  | String c _ => isspace c || Ascii.eqb c "+" || isdigit c = true
  | EmptyString => False
  end.
Proof.
  intros (ws & sign & ds & rest & -> & Hw & Hsign & Hne & Hd & _).
  destruct ws as [| c ws]; cbn in *.
  - destruct Hsign as [-> | ->]; cbn; [| reflexivity].
    destruct ds as [| c ds]; [contradiction |]. cbn in *.
    apply andb_prop in Hd as [Hc _]. rewrite Hc. apply orb_true_r.
  - apply andb_prop in Hw as [Hc _]. now rewrite Hc.
Qed.

Lemma floor_num_handler_reads (f : string) (i : Z) :
  floor_num_handler f = Some i <-> reads_as f i.
Proof.
  split.
  - intros H. unfold floor_num_handler in H.
    destruct f as [| c r]; [discriminate H |].
    destruct (Ascii.eqb c "b" || Ascii.eqb c "B") eqn:Ec.
    + destruct (strtol r) as [v moved] eqn:Es.
      destruct (negb moved || (v <? 1) || (v >? 99)) eqn:E; [discriminate H |].
      injection H as <-.
      apply orb_false_elim in E as [E E3]. apply orb_false_elim in E as [E1 E2].
      apply negb_false_iff in E1. subst moved.
      apply Z.ltb_ge in E2. rewrite Z.gtb_ltb in E3. apply Z.ltb_ge in E3.
      right. split; [lia |]. exists r. split.
      * apply orb_prop in Ec as [Ec | Ec]; apply Ascii.eqb_eq in Ec; subst c;
          auto.
      * rewrite Z.opp_involutive. apply (strtol_shape r v 99); auto; lia.
    + destruct (strtol (String c r)) as [v moved] eqn:Es.
      destruct (negb moved || (v <? 1) || (v >? 999)) eqn:E; [discriminate H |].
      injection H as <-.
      apply orb_false_elim in E as [E E3]. apply orb_false_elim in E as [E1 E2].
      apply negb_false_iff in E1. subst moved.
      apply Z.ltb_ge in E2. rewrite Z.gtb_ltb in E3. apply Z.ltb_ge in E3.
      left. split; [lia |]. apply (strtol_shape _ v 999); auto; lia.
  - intros [[Hi Hn] | [Hi (r & Hf & Hn)]].
    + pose proof (lenient_numeral_head f i Hn) as Hh.
      destruct f as [| c r]; [contradiction |].
      unfold floor_num_handler.
      assert (Ec : Ascii.eqb c "b" || Ascii.eqb c "B" = false).
      { destruct (Ascii.eqb_spec c "b") as [-> | _]; [discriminate Hh |].
        destruct (Ascii.eqb_spec c "B") as [-> | _]; [discriminate Hh |].
        reflexivity. }
      rewrite Ec, (strtol_lenient _ i Hn Hi). cbn [negb orb].
      replace (i <? 1) with false by (symmetry; apply Z.ltb_ge; lia).
      replace (i >? 999) with false
        by (symmetry; rewrite Z.gtb_ltb; apply Z.ltb_ge; lia).
      reflexivity.
    + unfold floor_num_handler.
      assert (E : exists c, f = String c r
                            /\ Ascii.eqb c "b" || Ascii.eqb c "B" = true)
        by (destruct Hf as [-> | ->]; eexists; split; reflexivity).
      destruct E as (c & -> & Ec). rewrite Ec.
      rewrite (strtol_lenient r (- i) Hn ltac:(lia)). cbn [negb orb].
      replace (- i <? 1) with false by (symmetry; apply Z.ltb_ge; lia).
      replace (- i >? 99) with false
        by (symmetry; rewrite Z.gtb_ltb; apply Z.ltb_ge; lia).
      now rewrite Z.opp_involutive.
Qed.

(** C3, as the code has it: every valid label (a decimal without leading
    zero for 1..999, or B and such a decimal for 1..99) parses to a
    nonzero index, negative exactly for B floors, that [index_handler]
    turns back into the label.  Beyond the labels the parser accepts
    exactly the lenient spellings: after an optional B or b, white space,
    an optional plus sign, digits with leading zeros allowed that denote a
    number of the range, and then any text that does not go on with a
    digit; it reads them as that number, and it rejects every other
    string. *)
Theorem label_codec :
  (forall s : string, valid_label s = true ->
     exists i : Z,
       floor_num_handler s = Some i /\ i <> 0
       /\ (is_basement s = true -> i < 0)
       /\ (is_basement s = false -> 0 < i)
       /\ index_handler i = s)
  /\ (forall (f : string) (i : Z),
        floor_num_handler f = Some i <-> reads_as f i)
  /\ (forall f : string,
        (forall i : Z, ~ reads_as f i) -> floor_num_handler f = None).
Proof.
  split; [| split].
  - intros s H. destruct s as [| c r]; [discriminate H |].
    unfold valid_label in H. unfold is_basement.
    destruct (Ascii.eqb_spec c "B") as [-> | Hc].
    + destruct (basement_round_trip r H) as (i & Hp & Hneg & Hback).
      exists i. repeat split; try assumption; try lia; try (intros; discriminate).
    + destruct (plain_round_trip (String c r) H) as (i & Hp & Hpos & Hback).
      exists i. repeat split; try assumption; try lia; try (intros; discriminate).
  - apply floor_num_handler_reads.
  - intros f H. destruct (floor_num_handler f) as [i |] eqn:E; [| reflexivity].
    exfalso. apply (H i). now apply floor_num_handler_reads.
Qed.

Lemma label_codec_witness :
  (exists i : Z,
     floor_num_handler "B12" = Some i /\ i <> 0
     /\ (is_basement "B12" = true -> i < 0)
     /\ (is_basement "B12" = false -> 0 < i)
     /\ index_handler i = "B12")
  /\ floor_num_handler "b +007x" = Some (-7)
  /\ (forall i : Z,
        ~ reads_as "-5" i /\ ~ reads_as "B-5" i /\ ~ reads_as "abc" i
        /\ ~ reads_as "Bx" i /\ ~ reads_as "x1" i /\ ~ reads_as "" i
        /\ ~ reads_as "0" i /\ ~ reads_as "1000" i /\ ~ reads_as "B100" i).
Proof.
  destruct label_codec as (H1 & H2 & _).
  split; [apply (H1 "B12"); reflexivity |].
  split.
  - apply H2. right. split; [lia |]. exists " +007x". split; [now right |].
    exists " ", "+", "007", "x". repeat split; auto; discriminate.
  - intros i. repeat split; intros H; apply H2 in H; discriminate H.
Defined.

(** The claim fails under both readings of the grammar: with leading
    zeros allowed, 007 is a label that does not come back (it comes back
    as 7); without them, 007 and b5 are outside the grammar and are
    accepted. *)
Lemma lenient_spellings_counterexample :
  ~ codec_claim liberal_label /\ ~ codec_claim valid_label.
Proof.
  split.
  - intros [H _]. destruct (H "007" eq_refl) as (i & Hp & _ & Hb).
    vm_compute in Hp. injection Hp as <-. vm_compute in Hb. discriminate Hb.
  - intros [_ H]. specialize (H "b5" eq_refl). vm_compute in H.
    discriminate H.
Qed.

End FloorGrammarFacts.

(** ** The panel, operation by operation *)

Module PanelWriteFacts.
Import CLib Floor Shm Internal FloorIndex.
Import SchedulerFacts FloorIndexFacts PanelFacts.





End PanelWriteFacts.

(** ** The frame codec *)

Module FrameFacts.
Import CLib Frame.
Local Open Scope list_scope.

Lemma quiet_cons (r : sys_result) (os : list sys_result) :
  quiet (r :: os) = true -> quiet_result r = true /\ quiet os = true.
Proof. unfold quiet. simpl. intros H. now apply andb_prop in H. Qed.

Lemma take_split {A : Type} (a b : nat) :
  forall l : list A, take (a + b) l = take a l ++ take b (drop a l).
Proof.
  induction a as [| a IH]; intros l; [reflexivity |].
  destruct l as [| x l]; [simpl; now destruct b |].
  simpl. now rewrite IH.
Qed.

Lemma write_all_quiet (os : list sys_result) :
  forall p, quiet os = true ->
    exists os', write_all os p = (p, true, os') /\ quiet os' = true.
Proof.
  induction os as [| r os IH]; intros p Hq.
  - exists []. destruct p; now split.
  - apply quiet_cons in Hq as [Hr Hq]. destruct p as [| b p].
    + exists (r :: os). split; [reflexivity |]. unfold quiet. simpl.
      now rewrite Hr.
    + destruct r as [k | |]; [| | discriminate Hr].
      * cbn [write_all].
        destruct (IH (drop (Nat.min (S k) (length (b :: p))) (b :: p)) Hq)
          as (os' & Hw & Hq').
        rewrite Hw. exists os'. split; [| exact Hq'].
        now rewrite take_drop.
      * cbn [write_all]. apply IH. exact Hq.
Qed.

Lemma read_all_quiet (os : list sys_result) :
  forall n w, quiet os = true -> (n <= length w)%nat ->
    exists os', read_all os n w = Some (take n w, drop n w, os')
                /\ quiet os' = true.
Proof.
  induction os as [| r os IH]; intros n w Hq Hn.
  - exists []. destruct n as [| n]; [now rewrite take_0, drop_0 |].
    cbn [read_all]. apply Nat.leb_le in Hn. rewrite Hn. now split.
  - pose proof Hq as Hq0. apply quiet_cons in Hq as [Hr Hq].
    destruct n as [| n].
    + exists (r :: os). now rewrite take_0, drop_0.
    + destruct r as [k | |]; [| | discriminate Hr].
      * destruct w as [| b w]; [simpl in Hn; lia |].
        cbn [read_all].
        set (got := Nat.min (S k) (Nat.min (S n) (length (b :: w)))).
        assert (Hgot : (got <= S n)%nat) by (subst got; lia).
        destruct (IH (S n - got)%nat (drop got (b :: w)) Hq) as (os' & Hr' & Hq').
        { rewrite length_drop. lia. }
        rewrite Hr'. exists os'. split; [| exact Hq'].
        rewrite drop_drop.
        replace (got + (S n - got))%nat with (S n) by lia.
        f_equal. f_equal. f_equal.
        rewrite <- take_split. f_equal. lia.
      * cbn [read_all]. now apply IH.
Qed.

Lemma read_all_short (os : list sys_result) :
  forall n w, (length w < n)%nat -> read_all os n w = None.
Proof.
  induction os as [| r os IH]; intros n w Hn.
  - destruct n as [| n]; [lia |]. cbn [read_all].
    destruct (Nat.leb_spec (S n) (length w)); [lia | reflexivity].
  - destruct n as [| n]; [lia |].
    destruct r as [k | |]; cbn [read_all]; [| now apply IH | reflexivity].
    destruct w as [| b w]; [reflexivity |].
    set (got := Nat.min (S k) (Nat.min (S n) (length (b :: w)))).
    rewrite IH; [reflexivity |]. rewrite length_drop. subst got. lia.
Qed.

Lemma write_all_sound (os : list sys_result) :
  forall p out ok os',
    write_all os p = (out, ok, os') ->
    exists tail, p = out ++ tail /\ (ok = true -> tail = []).
Proof.
  induction os as [| r os IH]; intros p out ok os' H.
  - destruct p; inversion H; subst; exists []; split; auto;
      now rewrite app_nil_r.
  - destruct p as [| b p].
    + inversion H; subst. exists []. now split.
    + destruct r as [k | |]; cbn [write_all] in H.
      * destruct (write_all os (drop (Nat.min (S k) (length (b :: p))) (b :: p)))
          as [[out2 ok2] os2] eqn:E.
        injection H as Ho Hk Hs. subst out ok os'.
        destruct (IH _ _ _ _ E) as (tail & Hp & Hok).
        exists tail. split; [| exact Hok].
        simpl in Hp. simpl. rewrite <- app_assoc, <- Hp, take_drop.
        reflexivity.
      * now apply IH in H.
      * inversion H; subst. exists (b :: p). split; [reflexivity | discriminate].
Qed.

Lemma read_all_sound (os : list sys_result) :
  forall n w bs rest os',
    read_all os n w = Some (bs, rest, os') ->
    w = bs ++ rest /\ length bs = n.
Proof.
  induction os as [| r os IH]; intros n w bs rest os' H.
  - destruct n as [| n]; [inversion H; now subst |].
    cbn [read_all] in H. destruct (Nat.leb_spec (S n) (length w)); [| discriminate].
    inversion H; subst. split; [now rewrite take_drop |].
    rewrite length_take. lia.
  - destruct n as [| n]; [inversion H; now subst |].
    destruct r as [k | |]; cbn [read_all] in H; [| now apply IH in H | discriminate].
    destruct w as [| b w]; [discriminate |].
    set (got := Nat.min (S k) (Nat.min (S n) (length (b :: w)))) in *.
    destruct (read_all os (S n - got) (drop got (b :: w)))
      as [[[bs2 rest2] os2] |] eqn:E; [| discriminate].
    injection H as Hb Hr Hs. subst bs rest os'.
    destruct (IH _ _ _ _ _ E) as [Hw Hl].
    change (b :: take (Nat.min k (Nat.min n (length w))) w ++ bs2)
      with (take got (b :: w) ++ bs2).
    split.
    + rewrite <- app_assoc, <- Hw. now rewrite take_drop.
    + rewrite length_app, length_take, Hl. subst got. lia.
Qed.

(** X4: The two loops, under any schedule of short transfers, interruptions
    and failures: [write_all] puts out a prefix of its bytes, in order, and
    reports success only when it put out all of them; [read_all] returns
    exactly the next [n] bytes of the stream or fails.  Under a schedule
    without failures [write_all] succeeds, and [read_all] succeeds exactly
    when the stream still holds [n] bytes. *)
Theorem io_loops_retry (os : list sys_result) (n : nat) (w p : list ascii) :
  (exists tail,
     p = fst (fst (write_all os p)) ++ tail
     /\ (snd (fst (write_all os p)) = true -> tail = []))
  /\ (forall bs rest os',
        read_all os n w = Some (bs, rest, os') ->
        w = bs ++ rest /\ length bs = n)
  /\ (quiet os = true ->
      snd (fst (write_all os p)) = true
      /\ ((n <= length w)%nat ->
          exists os', read_all os n w = Some (take n w, drop n w, os'))
      /\ ((length w < n)%nat -> read_all os n w = None)).
Proof.
  split; [| split].
  - destruct (write_all os p) as [[out ok] os'] eqn:E.
    exact (write_all_sound os p out ok os' E).
  - intros bs rest os'. apply read_all_sound.
  - intros Hq. split; [| split].
    + destruct (write_all_quiet os p Hq) as (os' & -> & _). reflexivity.
    + intros Hn. destruct (read_all_quiet os n w Hq Hn) as (os' & Hr & _).
      now exists os'.
    + apply read_all_short.
Qed.

Lemma io_loops_retry_witness :
  quiet [Sys_some 0; Sys_eintr; Sys_some 1] = true
  /\ snd (fst (write_all [Sys_some 0; Sys_eintr; Sys_some 1]
                 ["a"; "b"; "c"; "d"]%char)) = true
  /\ read_all [Sys_some 0; Sys_eintr; Sys_some 1] 5 ["a"; "b"; "c"]%char = None.
Proof.
  split; [reflexivity |].
  destruct (io_loops_retry [Sys_some 0; Sys_eintr; Sys_some 1] 5
              ["a"; "b"; "c"]%char ["a"; "b"; "c"; "d"]%char) as (_ & _ & H).
  destruct (H eq_refl) as (Hw & _ & Hshort).
  split; [exact Hw |]. apply Hshort. simpl. lia.
Defined.

(** *** Frames *)

Lemma byte_round_trip (v : Z) : 0 <= v < 256 -> byte_val (byte_of v) = v.
Proof.
  intros H. unfold byte_val, byte_of.
  rewrite nat_ascii_embedding by lia. lia.
Qed.

Lemma bytes_length (s : string) :
  length (list_ascii_of_string s) = String.length s.
Proof. induction s as [| c r IH]; simpl; [reflexivity | now rewrite IH]. Qed.

Lemma cstr_take (s : string) :
  forall n, nul_free s = true ->
    cstr (take n (list_ascii_of_string s)) = strtake n s.
Proof.
  induction s as [| c r IH]; intros n H; simpl in *.
  - now destruct n.
  - apply andb_prop in H as [Hc Hr]. apply negb_true_iff in Hc.
    destruct n as [| n]; [reflexivity |]. simpl. rewrite Hc. f_equal.
    now apply IH.
Qed.

Lemma cstr_length (bs : list ascii) : (String.length (cstr bs) <= length bs)%nat.
Proof.
  induction bs as [| b r IH]; simpl; [lia |].
  destruct (Ascii.eqb b zero); simpl; lia.
Qed.

Lemma strtake_strtake (s : string) :
  forall n m, (n <= m)%nat -> strtake n (strtake m s) = strtake n s.
Proof.
  induction s as [| c r IH]; intros n m H.
  - destruct n, m; reflexivity.
  - destruct n as [| n]; [reflexivity |]. destruct m as [| m]; [lia |].
    simpl. f_equal. apply IH. lia.
Qed.

Lemma strtake_whole (s : string) :
  forall n, (String.length s <= n)%nat -> strtake n s = s.
Proof.
  induction s as [| c r IH]; intros n H; [now destruct n |].
  destruct n as [| n]; simpl in *; [lia |]. f_equal. apply IH. lia.
Qed.

Lemma sent_len_range (s : string) :
  0 <= sent_len s <= 65535 /\ sent_len s <= Z.of_nat (String.length s).
Proof.
  unfold sent_len. destruct (Z.of_nat (String.length s) >? 65535) eqn:E; lia.
Qed.

Lemma send_frame_quiet (os : list sys_result) (s : string) :
  quiet os = true ->
  exists os',
    send_frame os s
    = ([byte_of (sent_len s / 256); byte_of (sent_len s mod 256)]
       ++ take (Z.to_nat (sent_len s)) (list_ascii_of_string s), 0, os')
    /\ quiet os' = true.
Proof.
  intros Hq. unfold send_frame. fold (sent_len s).
  destruct (write_all_quiet os
              [byte_of (sent_len s / 256); byte_of (sent_len s mod 256)] Hq)
    as (os1 & -> & Hq1).
  simpl negb. cbv iota.
  destruct (write_all_quiet os1
              (take (Z.to_nat (sent_len s)) (list_ascii_of_string s)) Hq1)
    as (os2 & -> & Hq2).
  exists os2. now split.
Qed.

Lemma drain_quiet (fuel : nat) :
  forall os remainder w,
    quiet os = true -> (Z.to_nat remainder <= fuel)%nat ->
    (Z.to_nat remainder <= length w)%nat ->
    exists os', drain fuel os remainder w = Some (drop (Z.to_nat remainder) w, os')
                /\ quiet os' = true.
Proof.
  induction fuel as [| fuel IH]; intros os remainder w Hq Hf Hw.
  - exists os. simpl. destruct (remainder >? 0) eqn:E; [lia |].
    replace (Z.to_nat remainder) with 0%nat by lia. now rewrite drop_0.
  - cbn [drain]. destruct (remainder >? 0) eqn:E.
    + set (chunk := if remainder >? 512 then 512 else remainder).
      assert (Hc : 0 < chunk <= remainder)
        by (subst chunk; destruct (remainder >? 512) eqn:E'; lia).
      destruct (read_all_quiet os (Z.to_nat chunk) w Hq ltac:(lia))
        as (os1 & -> & Hq1).
      destruct (IH os1 (remainder - chunk) (drop (Z.to_nat chunk) w) Hq1)
        as (os2 & -> & Hq2).
      * lia.
      * rewrite length_drop. lia.
      * exists os2. split; [| exact Hq2]. rewrite drop_drop.
        repeat f_equal. lia.
    + exists os. replace (Z.to_nat remainder) with 0%nat by lia.
      now rewrite drop_0.
Qed.

Lemma drain_short (fuel : nat) :
  forall os remainder w,
    (length w < Z.to_nat remainder)%nat -> drain fuel os remainder w = None.
Proof.
  induction fuel as [| fuel IH]; intros os remainder w Hw; cbn [drain];
    destruct (remainder >? 0) eqn:E; try lia; [reflexivity |].
  set (chunk := if remainder >? 512 then 512 else remainder).
  assert (Hc : 0 < chunk <= remainder)
    by (subst chunk; destruct (remainder >? 512) eqn:E'; lia).
  destruct (read_all os (Z.to_nat chunk) w) as [[[bs w'] os'] |] eqn:Er;
    [| reflexivity].
  destruct (read_all_sound _ _ _ _ _ _ Er) as [Hw' Hl].
  apply IH. subst w. rewrite length_app in Hw. lia.
Qed.

(** What a receiver makes of a frame that was sent whole, followed by
    [rest]. *)
Lemma receive_sent (os : list sys_result) (s : string) (rest : list ascii)
    (capacity : Z) :
  quiet os = true -> nul_free s = true -> 1 <= capacity ->
  exists os',
    receive_frame os
      (([byte_of (sent_len s / 256); byte_of (sent_len s mod 256)]
        ++ take (Z.to_nat (sent_len s)) (list_ascii_of_string s)) ++ rest)
      capacity
    = Some (strtake (Z.to_nat (Z.min (capacity - 1) 65535)) s, rest, os').
Proof.
  intros Hq Hnul Hcap. destruct (sent_len_range s) as [Hr Hle].
  set (payload := take (Z.to_nat (sent_len s)) (list_ascii_of_string s)).
  assert (Hpl : length payload = Z.to_nat (sent_len s)).
  { subst payload. rewrite length_take, bytes_length. lia. }
  unfold receive_frame.
  destruct (read_all_quiet os 2
              (([byte_of (sent_len s / 256); byte_of (sent_len s mod 256)]
                ++ payload) ++ rest) Hq) as (os1 & -> & Hq1).
  { simpl. lia. }
  cbn [app take drop]. rewrite take_0, drop_0. cbv beta iota.
  rewrite !byte_round_trip
    by (try apply Z.mod_pos_bound; try split;
        try apply Z.div_pos; try apply Z.div_lt_upper_bound; lia).
  replace (sent_len s / 256 * 256 + sent_len s mod 256) with (sent_len s)
    by (rewrite (Z.div_mod (sent_len s) 256) at 1; lia).
  destruct (sent_len s >=? capacity) eqn:E.
  - (* the payload is cut to fit *)
    destruct (read_all_quiet os1 (Z.to_nat (capacity - 1)) (payload ++ rest) Hq1)
      as (os2 & -> & Hq2).
    { rewrite length_app. lia. }
    destruct (drain_quiet (Z.to_nat (sent_len s - (capacity - 1))) os2
                (sent_len s - (capacity - 1))
                (drop (Z.to_nat (capacity - 1)) (payload ++ rest)) Hq2)
      as (os3 & -> & Hq3).
    + lia.
    + rewrite length_drop, length_app. lia.
    + exists os3. f_equal. f_equal.
      f_equal.
      * rewrite take_app_le by lia. subst payload.
        rewrite take_take, Nat.min_l by lia.
        rewrite cstr_take by assumption. f_equal. lia.
      * rewrite drop_drop.
        replace (Z.to_nat (capacity - 1)
                 + Z.to_nat (sent_len s - (capacity - 1)))%nat
          with (length payload) by lia.
        now rewrite drop_app_length.
  - (* the payload fits *)
    destruct (read_all_quiet os1 (Z.to_nat (sent_len s)) (payload ++ rest) Hq1)
      as (os2 & -> & Hq2).
    { rewrite length_app. lia. }
    exists os2. f_equal. f_equal. f_equal.
    + rewrite <- Hpl, take_app_length. subst payload.
      rewrite cstr_take by assumption.
      unfold sent_len in *.
      destruct (Z.of_nat (String.length s) >? 65535) eqn:E'.
      * f_equal. lia.
      * rewrite !strtake_whole by lia. reflexivity.
    + rewrite <- Hpl. now rewrite drop_app_length.
Qed.

(** X5: Sending then receiving: under schedules without failures
    [send_frame] returns 0, and [receive_frame] on the bytes it wrote,
    whatever follows them on the stream, yields the string cut to what the
    length field and the buffer can hold (65535 and [capacity - 1]
    characters) and leaves exactly what follows. *)
Theorem frame_round_trip (os1 os2 : list sys_result) (s : string)
    (rest : list ascii) (capacity : Z) :
  quiet os1 = true -> quiet os2 = true -> nul_free s = true -> 1 <= capacity ->
  frame_ret (send_frame os1 s) = 0
  /\ exists os',
       receive_frame os2 (frame_bytes (send_frame os1 s) ++ rest) capacity
       = Some (strtake (Z.to_nat (Z.min (capacity - 1) 65535)) s, rest, os').
Proof.
  intros Hq1 Hq2 Hnul Hcap.
  destruct (send_frame_quiet os1 s Hq1) as (os1' & -> & _).
  split; [reflexivity |]. unfold frame_bytes. cbn [fst].
  now apply receive_sent.
Qed.

Lemma frame_round_trip_witness :
  quiet [Sys_some 0; Sys_eintr] = true /\ nul_free "FLOOR 12" = true
  /\ frame_ret (send_frame [Sys_some 0; Sys_eintr] "FLOOR 12") = 0
  /\ exists os',
       receive_frame [Sys_eintr; Sys_some 2]
         (frame_bytes (send_frame [Sys_some 0; Sys_eintr] "FLOOR 12")
          ++ ["x"%char]) 64
       = Some (strtake (Z.to_nat (Z.min (64 - 1) 65535)) "FLOOR 12",
               ["x"%char], os').
Proof.
  split; [reflexivity |]. split; [reflexivity |].
  apply (frame_round_trip [Sys_some 0; Sys_eintr] [Sys_eintr; Sys_some 2]
           "FLOOR 12" ["x"%char] 64); (reflexivity || lia).
Defined.

Lemma drain_sound (fuel : nat) :
  forall os remainder w w' os',
    drain fuel os remainder w = Some (w', os') -> exists gone, w = gone ++ w'.
Proof.
  induction fuel as [| fuel IH]; intros os r w w' os' H; cbn [drain] in H;
    destruct (r >? 0).
  - discriminate.
  - injection H as <- <-. now exists [].
  - destruct (read_all os (Z.to_nat (if r >? 512 then 512 else r)) w)
      as [[[bs w1] os1] |] eqn:E; [| discriminate].
    destruct (read_all_sound _ _ _ _ _ _ E) as [-> _].
    destruct (IH _ _ _ _ _ H) as [gone ->].
    exists (bs ++ gone). now rewrite app_assoc.
  - injection H as <- <-. now exists [].
Qed.

(** X6: Under any schedule and on any stream, what [receive_frame] leaves in
    the buffer is shorter than the buffer, and the stream it hands back is
    what follows the bytes it consumed, the two header bytes among them. *)
Theorem receive_frame_fits (os : list sys_result) (w : list ascii)
    (capacity : Z) (str : string) (rest : list ascii)
    (os' : list sys_result) :
  1 <= capacity ->
  receive_frame os w capacity = Some (str, rest, os') ->
  Z.of_nat (String.length str) < capacity
  /\ exists consumed, w = consumed ++ rest /\ (2 <= length consumed)%nat.
Proof.
  intros Hcap H. unfold receive_frame in H.
  destruct (read_all os 2 w) as [[[hdr w1] os1] |] eqn:E0; [| discriminate].
  destruct (read_all_sound _ _ _ _ _ _ E0) as [Hw0 Hl0].
  destruct hdr as [| hi [| lo [| x hdr]]]; try discriminate. clear Hl0.
  set (len := byte_val hi * 256 + byte_val lo) in *.
  destruct (len >=? capacity) eqn:E.
  - destruct (read_all os1 (Z.to_nat (capacity - 1)) w1)
      as [[[buf w2] os2] |] eqn:E1; [| discriminate].
    destruct (read_all_sound _ _ _ _ _ _ E1) as [Hw1 Hl1].
    destruct (drain (Z.to_nat (len - (capacity - 1))) os2
                (len - (capacity - 1)) w2) as [[w3 os3] |] eqn:E2;
      [| discriminate].
    injection H as <- <- <-. split.
    + pose proof (cstr_length buf). lia.
    + destruct (drain_sound _ _ _ _ _ _ E2) as [gone Hg].
      exists ([hi; lo] ++ buf ++ gone). rewrite Hw0, Hw1, Hg.
      split; [now rewrite <- !app_assoc |]. simpl. lia.
  - destruct (read_all os1 (Z.to_nat len) w1) as [[[buf w2] os2] |] eqn:E1;
      [| discriminate].
    destruct (read_all_sound _ _ _ _ _ _ E1) as [Hw1 Hl1].
    injection H as <- <- <-. split.
    + pose proof (cstr_length buf). rewrite Z.geb_leb in E.
      apply Z.leb_gt in E. subst len.
      pose proof (Nat2Z.is_nonneg (nat_of_ascii hi)).
      pose proof (Nat2Z.is_nonneg (nat_of_ascii lo)).
      unfold byte_val in *. lia.
    + exists ([hi; lo] ++ buf). rewrite Hw0, Hw1.
      split; [now rewrite <- !app_assoc |]. simpl. lia.
Qed.

Lemma receive_frame_fits_witness :
  Z.of_nat (String.length "CALL") < 5
  /\ exists consumed,
       frame_bytes (send_frame [] "CALL 1 12") = consumed ++ []
       /\ (2 <= length consumed)%nat.
Proof.
  apply (receive_frame_fits [Sys_some 0; Sys_eintr]
           (frame_bytes (send_frame [] "CALL 1 12")) 5 "CALL" [] []);
    [lia | reflexivity].
Defined.

(** X7: A frame that stops early, by however little and under any schedule,
    is not received: [receive_frame] reports an error. *)
Theorem cut_frame_rejected (os1 os2 : list sys_result) (s : string)
    (k : nat) (capacity : Z) :
  quiet os1 = true -> 1 <= capacity ->
  (k < length (frame_bytes (send_frame os1 s)))%nat ->
  receive_frame os2 (take k (frame_bytes (send_frame os1 s))) capacity = None.
Proof.
  intros Hq Hcap Hk.
  destruct (send_frame_quiet os1 s Hq) as (os' & Hs & _).
  unfold frame_bytes in *. rewrite Hs in *. cbn [fst] in *. clear Hs.
  pose proof (sent_len_range s) as [Hr Hle].
  set (hi := byte_of (sent_len s / 256)) in *.
  set (lo := byte_of (sent_len s mod 256)) in *.
  set (payload := take (Z.to_nat (sent_len s)) (list_ascii_of_string s)) in *.
  assert (Hpl : length payload = Z.to_nat (sent_len s)).
  { subst payload. rewrite length_take, bytes_length. lia. }
  rewrite length_app in Hk. cbn [length] in Hk.
  unfold receive_frame.
  destruct (read_all os2 2 (take k ([hi; lo] ++ payload)))
    as [[[hdr w1] osa] |] eqn:E0; [| reflexivity].
  destruct (read_all_sound _ _ _ _ _ _ E0) as [Hw0 Hl0].
  destruct hdr as [| h [| l [| x hdr]]]; try discriminate. clear Hl0.
  assert (Hk2 : (2 <= k)%nat).
  { apply (f_equal (@length ascii)) in Hw0.
    rewrite length_take, !length_app in Hw0. simpl in Hw0. lia. }
  destruct k as [| [| k]]; try lia. cbn [app take] in Hw0.
  injection Hw0 as <- <- Hw1.
  assert (Hb : byte_val hi * 256 + byte_val lo = sent_len s).
  { subst hi lo. rewrite !byte_round_trip.
    - pose proof (Z.div_mod (sent_len s) 256). lia.
    - apply Z.mod_pos_bound. lia.
    - split; [apply Z.div_pos; lia | apply Z.div_lt_upper_bound; lia]. }
  rewrite Hb.
  assert (Hlen : length w1 = k) by (rewrite <- Hw1, length_take; lia).
  destruct (sent_len s >=? capacity) eqn:E.
  - destruct (read_all osa (Z.to_nat (capacity - 1)) w1)
      as [[[buf w2] osb] |] eqn:E1; [| reflexivity].
    destruct (read_all_sound _ _ _ _ _ _ E1) as [Hw2 Hl2].
    rewrite drain_short; [reflexivity |].
    apply (f_equal (@length ascii)) in Hw2. rewrite length_app in Hw2.
    rewrite Z.geb_leb in E. apply Z.leb_le in E. lia.
  - rewrite read_all_short; [reflexivity | lia].
Qed.

Lemma cut_frame_rejected_witness :
  receive_frame [Sys_some 0]
    (take 10 (frame_bytes (send_frame [Sys_eintr] "CALL 1 12"))) 64 = None.
Proof.
  apply (cut_frame_rejected [Sys_eintr] [Sys_some 0] "CALL 1 12" 10 64);
    [reflexivity | lia | vm_compute; lia].
Defined.

End FrameFacts.

(** ** The queue as a bounded first-in first-out list *)

Module QueueOrderFacts.
Import CLib Floor Controller QueueView QueueFacts.
Local Open Scope list_scope.

Lemma without_app (d : Z) (l r : list Z) :
  without d (l ++ r) = without d l ++ without d r.
Proof.
  induction l as [| x l IH]; simpl; [reflexivity |].
  destruct (x =? d); simpl; now rewrite IH.
Qed.

Lemma without_delete (d : Z) (l : list Z) :
  forall i : nat, l !! i = Some d -> without d (delete i l) = without d l.
Proof.
  induction l as [| x l IH]; intros i H; [discriminate |].
  destruct i as [| i]; simpl in *.
  - injection H as ->. now rewrite Z.eqb_refl.
  - destruct (x =? d); [now apply IH | f_equal; now apply IH].
Qed.

Lemma without_push (d : Z) (l : list Z) : without d (push l d) = without d l.
Proof.
  unfold push. destruct (Z.of_nat (length l) <? MAX_QUEUE); [| reflexivity].
  rewrite without_app. simpl. rewrite Z.eqb_refl. apply app_nil_r.
Qed.

Lemma push_keeps (l : list Z) (f x : Z) : x ∈ l -> x ∈ push l f.
Proof.
  intros H. unfold push. destruct (Z.of_nat (length l) <? MAX_QUEUE);
    [apply elem_of_app; now left | exact H].
Qed.

Lemma push_from (l : list Z) (f x : Z) : x ∈ push l f -> x ∈ l \/ x = f.
Proof.
  unfold push. destruct (Z.of_nat (length l) <? MAX_QUEUE); [| now left].
  intros H. apply elem_of_app in H as [H | H]; [now left |].
  apply list_elem_of_singleton in H. now right.
Qed.

Lemma place_dst_keeps (l : list Z) (s d x : Z) :
  Z.of_nat (length l) <= MAX_QUEUE -> x ∈ l -> x ∈ place_dst l s d.
Proof.
  intros Hlen Hx. unfold place_dst.
  destruct ((index_of d l >=? 0) && (index_of d l <? index_of s l)) eqn:E.
  - change (-1 <? 0) with true. cbv iota.
    apply andb_prop in E as [E1 E2]. rewrite Z.geb_leb in E1.
    apply Z.leb_le in E1. apply Z.ltb_lt in E2.
    pose proof (proj1 (index_of_present d l) E1) as Hd.
    pose proof (index_of_lookup d l Hd) as Hl.
    assert (Hi : (Z.to_nat (index_of d l) < length l)%nat)
      by (apply lookup_lt_is_Some; eauto).
    destruct (Z.eq_dec x d) as [-> | Hne].
    + unfold push. rewrite length_delete by eauto.
      destruct (Z.ltb_spec (Z.of_nat (length l - 1)) MAX_QUEUE); [| lia].
      apply elem_of_app. right. now apply list_elem_of_singleton.
    + apply push_keeps. apply list_elem_of_lookup in Hx as [j Hj].
      destruct (decide (j < Z.to_nat (index_of d l))%nat) as [Hlt | Hge].
      * apply (list_elem_of_lookup_2 _ j).
        rewrite list_lookup_delete_lt by exact Hlt. exact Hj.
      * destruct j as [| j].
        -- assert (Z.to_nat (index_of d l) = 0%nat) by lia. congruence.
        -- apply (list_elem_of_lookup_2 _ j).
           destruct (decide (S j = Z.to_nat (index_of d l))) as [He | Hn];
             [congruence |].
           rewrite list_lookup_delete_ge by lia. exact Hj.
  - destruct (index_of d l <? 0); [now apply push_keeps | exact Hx].
Qed.

Lemma place_dst_from (l : list Z) (s d x : Z) :
  x ∈ place_dst l s d -> x ∈ l \/ x = d.
Proof.
  unfold place_dst.
  destruct ((index_of d l >=? 0) && (index_of d l <? index_of s l)).
  - change (-1 <? 0) with true. cbv iota. intros H.
    apply push_from in H as [H | H]; [left | now right].
    eapply elem_of_sublist; [exact H | apply sublist_delete].
  - destruct (index_of d l <? 0); [apply push_from | now left].
Qed.

Lemma place_dst_without (l : list Z) (s d : Z) :
  without d (place_dst l s d) = without d l.
Proof.
  unfold place_dst.
  destruct ((index_of d l >=? 0) && (index_of d l <? index_of s l)) eqn:E.
  - change (-1 <? 0) with true. cbv iota. rewrite without_push.
    apply andb_prop in E as [E1 _]. rewrite Z.geb_leb in E1.
    apply Z.leb_le in E1. apply without_delete, index_of_lookup.
    now apply index_of_present.
  - destruct (index_of d l <? 0); [apply without_push | reflexivity].
Qed.

(** X8: On a well-formed row the three array operations are the operations of
    a bounded first-in first-out list: [in_queue] is membership in the
    live part, [queue_floor] appends while there is room and does nothing
    on a full queue, [dequeue_floor] drops the head and does nothing on
    an empty queue. *)
Theorem array_queue_is_fifo (car : CarID) (f : Z) :
  wf_queue car ->
  (in_queue car f = true <-> f ∈ queue car)
  /\ queue (queue_floor car f)
     = (if queue_len car <? MAX_QUEUE then queue car ++ [f] else queue car)
  /\ queue (dequeue_floor car) = tail (queue car)
  /\ queue_len (queue_floor car f) = Z.of_nat (length (queue (queue_floor car f)))
  /\ queue_len (dequeue_floor car)
     = Z.of_nat (length (queue (dequeue_floor car))).
Proof.
  intros Hwf. conj_split.
  - rewrite (in_queue_mem car f Hwf). apply mem_elem.
  - rewrite (queue_floor_push car f Hwf). unfold push.
    rewrite (queue_length car Hwf). destruct Hwf as [Hl _].
    now rewrite Z2Nat.id by lia.
  - now apply dequeue_floor_tail.
  - pose proof (queue_floor_wf car f Hwf) as Hwf'.
    rewrite (queue_length _ Hwf'). destruct Hwf' as [Hl _]. lia.
  - pose proof (dequeue_floor_wf car Hwf) as Hwf'.
    rewrite (queue_length _ Hwf'). destruct Hwf' as [Hl _]. lia.
Qed.

Lemma array_queue_is_fifo_witness :
  wf_queue (enqueue Samples.car_A 3 7)
  /\ (in_queue (enqueue Samples.car_A 3 7) 7 = true
      <-> 7 ∈ queue (enqueue Samples.car_A 3 7))
  /\ queue (dequeue_floor (enqueue Samples.car_A 3 7)) = [7].
Proof.
  assert (Hwf : wf_queue (enqueue Samples.car_A 3 7))
    by (split; [vm_compute; split; discriminate | reflexivity]).
  split; [exact Hwf |].
  destruct (array_queue_is_fifo (enqueue Samples.car_A 3 7) 7 Hwf)
    as (H1 & _ & H3 & _).
  split; [exact H1 | exact H3].
Defined.

(** X9: A call never drops a stop and never reorders the stops of others:
    every floor queued before [enqueue] is queued after it, the only
    floors it can add are the two of the call, and the stops other than
    the destination keep their order, the source joining them at the end
    when it is new and there is room. *)
Theorem enqueue_keeps_stops (car : CarID) (src dst : Z) :
  wf_queue car ->
  (forall x, x ∈ queue car -> x ∈ queue (enqueue car src dst))
  /\ (forall x, x ∈ queue (enqueue car src dst) ->
        x ∈ queue car \/ x = src \/ x = dst)
  /\ without dst (queue (enqueue car src dst))
     = without dst (queue car) ++ new_source (queue car) src dst.
Proof.
  intros Hwf. rewrite (enqueue_queue car src dst Hwf).
  pose proof (queue_length car Hwf) as Hlen. destruct Hwf as [Hl _].
  assert (Hb : Z.of_nat (length (queue car)) <= MAX_QUEUE) by lia.
  clear Hlen Hl. generalize dependent (queue car). intros l Hb.
  unfold enqueue_list, new_source.
  destruct (Z.eqb_spec src dst) as [-> | Hne].
  - simpl orb. cbv iota. conj_split;
      [tauto | intros x Hx; now left | now rewrite app_nil_r].
  - cbn [orb].
    set (l1 := if negb (mem src l) then push l src else l).
    assert (H1 : forall x, x ∈ l -> x ∈ l1).
    { intros x Hx. subst l1. destruct (negb (mem src l));
        [now apply push_keeps | exact Hx]. }
    assert (H2 : forall x, x ∈ l1 -> x ∈ l \/ x = src).
    { intros x Hx. subst l1. destruct (negb (mem src l));
        [now apply push_from | now left]. }
    assert (H3 : Z.of_nat (length l1) <= MAX_QUEUE).
    { subst l1. destruct (negb (mem src l)); [| exact Hb].
      destruct (push_cases l src) as [[Hlt ->] | [_ ->]]; [| exact Hb].
      rewrite length_app. simpl. lia. }
    conj_split.
    + intros x Hx. apply place_dst_keeps; auto.
    + intros x Hx. apply place_dst_from in Hx as [Hx | Hx]; [| tauto].
      apply H2 in Hx. tauto.
    + rewrite place_dst_without. subst l1.
      destruct (mem src l); cbn [negb orb]; [now rewrite app_nil_r |].
      unfold push.
      destruct (Z.ltb_spec (Z.of_nat (length l)) MAX_QUEUE) as [Hlt | Hge].
      * destruct (Z.leb_spec MAX_QUEUE (Z.of_nat (length l))); [lia |].
        rewrite without_app. simpl.
        destruct (Z.eqb_spec src dst); [congruence | reflexivity].
      * destruct (Z.leb_spec MAX_QUEUE (Z.of_nat (length l))); [| lia].
        now rewrite app_nil_r.
Qed.

Lemma enqueue_keeps_stops_witness :
  wf_queue (enqueue Samples.car_A 3 7)
  /\ without 3 (queue (enqueue (enqueue Samples.car_A 3 7) 9 3))
     = without 3 (queue (enqueue Samples.car_A 3 7))
       ++ new_source (queue (enqueue Samples.car_A 3 7)) 9 3.
Proof.
  assert (Hwf : wf_queue (enqueue Samples.car_A 3 7))
    by (split; [vm_compute; split; discriminate | reflexivity]).
  split; [exact Hwf |].
  apply (enqueue_keeps_stops (enqueue Samples.car_A 3 7) 9 3 Hwf).
Defined.

End QueueOrderFacts.

(** ** The safety monitor: what a wakeup does to the block *)

Module MonitorFacts.
Import CLib Floor Shm Safety.
Local Open Scope list_scope.

Lemma validate_settles (n : nat) (m : car_shared_mem) :
  validate 0 (block_after (validate n m))
  = mk_wake (block_after (validate n m)) 0 [].
Proof.
  unfold validate.
  destruct (negb (emergency_mode m =? 1)
            && (negb (parses (current_floor m))
                || negb (parses (destination_floor m))
                || negb (is_valid_status m) || negb (are_valid_fields m)
                || negb (is_valid_obstruction m))) eqn:E;
    cbn [block_after].
  - reflexivity.
  - now rewrite E.
Qed.

(** A block on which a wakeup finds nothing to do. *)
Lemma wakeup_fixed (m : car_shared_mem) :
  safety_system m = 1 ->
  streq (status m) "Closing" && (door_obstruction m =? 1) = false ->
  (emergency_stop m =? 1) && (emergency_mode m =? 0) = false ->
  (overload m =? 1) && (emergency_mode m =? 0) = false ->
  validate 0 m = mk_wake m 0 [] ->
  safety_wakeup m = mk_wake m 0 [].
Proof.
  intros H1 H2 H3 H4 H5. unfold safety_wakeup.
  rewrite H1. change (negb (1 =? 1)) with false. cbv iota.
  rewrite H2, H3, H4. exact H5.
Qed.

Lemma validate_keeps (n : nat) (m : car_shared_mem) :
  let m' := block_after (validate n m) in
  current_floor m' = current_floor m
  /\ destination_floor m' = destination_floor m
  /\ status m' = status m
  /\ open_button m' = open_button m /\ close_button m' = close_button m
  /\ safety_system m' = safety_system m
  /\ door_obstruction m' = door_obstruction m /\ overload m' = overload m
  /\ emergency_stop m' = emergency_stop m
  /\ individual_service_mode m' = individual_service_mode m
  /\ (emergency_mode m' = emergency_mode m \/ emergency_mode m' = 1).
Proof.
  unfold validate.
  destruct (negb (emergency_mode m =? 1) && _); cbn; repeat split; tauto.
Qed.

Ltac shm_fields :=
  cbn [block_after set_status set_safety_system set_emergency_mode
       set_emergency_stop current_floor destination_floor status open_button
       close_button safety_system door_obstruction overload emergency_stop
       individual_service_mode emergency_mode] in *.

Lemma wakeup_leaves (m : car_shared_mem) :
  let m' := block_after (safety_wakeup m) in
  safety_system m' = 1
  /\ streq (status m') "Closing" && (door_obstruction m' =? 1) = false
  /\ (emergency_stop m' =? 1) && (emergency_mode m' =? 0) = false
  /\ (overload m' =? 1) && (emergency_mode m' =? 0) = false
  /\ validate 0 m' = mk_wake m' 0 [].
Proof.
  destruct m as [cur dst st ob cb ss obs ov es ism em].
  cbv zeta. unfold safety_wakeup. cbn [safety_system].
  set (m1 := (if negb (ss =? 1)
              then (set_safety_system 1
                      (mk_shm cur dst st ob cb ss obs ov es ism em), 1%nat)
              else (mk_shm cur dst st ob cb ss obs ov es ism em, 0%nat))).
  assert (Hm1 : exists n, m1 = (mk_shm cur dst st ob cb 1 obs ov es ism em, n)).
  { subst m1. destruct (Z.eqb_spec ss 1) as [-> | _]; cbn; eauto. }
  destruct Hm1 as [n1 ->]. shm_fields.
  destruct (streq st "Closing" && (obs =? 1)) eqn:E2; shm_fields;
    (destruct ((es =? 1) && (em =? 0)) eqn:E3;
     [| destruct ((ov =? 1) && (em =? 0)) eqn:E4]); shm_fields.
  - repeat split; try reflexivity. apply andb_false_r.
  - repeat split; try reflexivity; apply andb_false_r.
  - pose proof (validate_keeps (S n1)
                  (set_status "Opening"
                     (mk_shm cur dst st ob cb 1 obs ov es ism em))) as K.
    cbv zeta in K. shm_fields.
    destruct K as (_ & _ & K3 & _ & _ & K6 & K7 & K8 & K9 & _ & K11).
    repeat split.
    + exact K6.
    + now rewrite K3.
    + rewrite K9. destruct K11 as [-> | ->]; [exact E3 | apply andb_false_r].
    + rewrite K8. destruct K11 as [-> | ->]; [exact E4 | apply andb_false_r].
    + apply validate_settles.
  - repeat split; try reflexivity; [exact E2 | apply andb_false_r].
  - repeat split; try reflexivity;
      [exact E2 | apply andb_false_r | apply andb_false_r].
  - pose proof (validate_keeps n1
                  (mk_shm cur dst st ob cb 1 obs ov es ism em)) as K.
    cbv zeta in K. shm_fields.
    destruct K as (_ & _ & K3 & _ & _ & K6 & K7 & K8 & K9 & _ & K11).
    repeat split.
    + exact K6.
    + now rewrite K3, K7.
    + rewrite K9. destruct K11 as [-> | ->]; [exact E3 | apply andb_false_r].
    + rewrite K8. destruct K11 as [-> | ->]; [exact E4 | apply andb_false_r].
    + apply validate_settles.
Qed.

(** X10: One wakeup is enough: on the block a wakeup leaves behind, the next
    wakeup changes nothing, broadcasts nothing and prints nothing. *)
Theorem safety_wakeup_settles (m : car_shared_mem) :
  safety_wakeup (block_after (safety_wakeup m))
  = mk_wake (block_after (safety_wakeup m)) 0 [].
Proof.
  destruct (wakeup_leaves m) as (H1 & H2 & H3 & H4 & H5).
  now apply wakeup_fixed.
Qed.

Lemma flag01_cases (v : Z) : flag01 v = true -> v = 0 \/ v = 1.
Proof.
  unfold flag01. intros H. apply orb_prop in H as [H | H];
    apply Z.eqb_eq in H; tauto.
Qed.

(** X11: What a wakeup leaves behind is a car in emergency mode, or a block
    that passes every check of the monitor with no stop and no overload
    pending. *)
Theorem safety_wakeup_outcome (m : car_shared_mem) :
  let m' := block_after (safety_wakeup m) in
  safety_system m' = 1
  /\ (emergency_mode m' = 1
      \/ (parses (current_floor m') = true
          /\ parses (destination_floor m') = true
          /\ is_valid_status m' = true /\ are_valid_fields m' = true
          /\ is_valid_obstruction m' = true
          /\ emergency_mode m' = 0 /\ emergency_stop m' = 0
          /\ overload m' = 0)).
Proof.
  cbv zeta. destruct (wakeup_leaves m) as (H1 & _ & H3 & H4 & H5).
  split; [exact H1 |].
  set (m' := block_after (safety_wakeup m)) in *. clearbody m'.
  unfold validate in H5.
  destruct (Z.eqb_spec (emergency_mode m') 1) as [He | He]; [now left |].
  right. cbn [negb andb] in H5.
  destruct (parses (current_floor m')); [| discriminate H5].
  destruct (parses (destination_floor m')); [| discriminate H5].
  destruct (is_valid_status m'); [| discriminate H5].
  destruct (are_valid_fields m') eqn:Ef; [| discriminate H5].
  destruct (is_valid_obstruction m'); [| discriminate H5].
  unfold are_valid_fields in Ef.
  repeat (apply andb_prop in Ef as [Ef ?]).
  assert (Hm : emergency_mode m' = 0)
    by (destruct (flag01_cases (emergency_mode m')); [assumption | | ]; tauto).
  rewrite Hm in H3, H4. rewrite andb_true_r in H3, H4.
  apply Z.eqb_neq in H3, H4.
  repeat split; try assumption.
  - destruct (flag01_cases (emergency_stop m')); [assumption | | ]; tauto.
  - destruct (flag01_cases (overload m')); [assumption | | ]; tauto.
Qed.

Lemma validate_result (n : nat) (m : car_shared_mem) :
  validate n m = mk_wake m n []
  \/ (emergency_mode m <> 1
      /\ validate n m
         = mk_wake (set_emergency_mode 1 m) (S n) ["Data consistency error!"]).
Proof.
  unfold validate. destruct (Z.eqb_spec (emergency_mode m) 1) as [He | He];
    cbn [negb andb]; [now left |].
  destruct (negb (parses (current_floor m))
            || negb (parses (destination_floor m))
            || negb (is_valid_status m) || negb (are_valid_fields m)
            || negb (is_valid_obstruction m)); [right | left]; tauto.
Qed.

(** X12: The writes of a wakeup.  It never touches the floors, the buttons,
    the two sensors or the service flag; it leaves [safety_system] at 1;
    it can turn Closing into Opening (only under an obstruction), raise
    [emergency_mode] (never clear it) and clear a pressed stop button (only
    while raising [emergency_mode]).  It broadcasts exactly when it has
    changed the block, and it prints only when it has just raised
    [emergency_mode]. *)
Theorem safety_wakeup_writes (m : car_shared_mem) :
  let r := safety_wakeup m in
  let m' := block_after r in
  current_floor m' = current_floor m
  /\ destination_floor m' = destination_floor m
  /\ open_button m' = open_button m /\ close_button m' = close_button m
  /\ door_obstruction m' = door_obstruction m /\ overload m' = overload m
  /\ individual_service_mode m' = individual_service_mode m
  /\ safety_system m' = 1
  /\ (status m' = status m
      \/ (status m = "Closing" /\ door_obstruction m = 1
          /\ status m' = "Opening"))
  /\ (emergency_mode m' = emergency_mode m
      \/ (emergency_mode m <> 1 /\ emergency_mode m' = 1))
  /\ (emergency_stop m' = emergency_stop m
      \/ (emergency_stop m = 1 /\ emergency_mode m = 0
          /\ emergency_stop m' = 0 /\ emergency_mode m' = 1))
  /\ (broadcasts r = 0%nat <-> m' = m)
  /\ (printed r <> [] -> emergency_mode m <> 1 /\ emergency_mode m' = 1).
Proof.
  destruct m as [cur dst st ob cb ss obs ov es ism em].
  cbv zeta. unfold safety_wakeup. cbn [safety_system].
  destruct (Z.eqb_spec ss 1) as [-> | Hss]; cbn [negb]; shm_fields;
    (destruct (streq st "Closing" && (obs =? 1)) eqn:E2;
     [apply andb_prop in E2 as [E2 E2'];
      apply String.eqb_eq in E2; apply Z.eqb_eq in E2' |]); shm_fields;
    (destruct ((es =? 1) && (em =? 0)) eqn:E3;
     [apply andb_prop in E3 as [E3 E3'];
      apply Z.eqb_eq in E3; apply Z.eqb_eq in E3'
     | destruct ((ov =? 1) && (em =? 0)) eqn:E4;
       [apply andb_prop in E4 as [E4 E4'];
        apply Z.eqb_eq in E4; apply Z.eqb_eq in E4' |]]); shm_fields;
    try match goal with
        | |- context [validate ?n ?b] =>
            destruct (validate_result n b) as [-> | [Hv ->]]
        end; shm_fields;
    repeat match goal with
           | |- _ /\ _ => split
           | |- _ <-> _ => split
           end;
    try reflexivity; try (left; reflexivity);
    try (intros; discriminate); try (intros; congruence);
    try (right; repeat split; (assumption || reflexivity || congruence));
    try (intros H; exfalso; apply H; reflexivity);
    try (intros _; split; [congruence | reflexivity]);
    try (intros H;
         unfold set_emergency_stop, set_emergency_mode, set_status,
           set_safety_system in H;
         shm_fields; injection H; intros; subst;
         (discriminate || congruence || lia)).
Qed.

End MonitorFacts.

(** ** The car on its way *)

Module MotionFacts.
Import CLib Floor FloorIndex Shm Car CarMotion FloorIndexFacts QueueFacts.
Local Open Scope list_scope.

Lemma next_floor_toward (c d : Z) :
  valid_index c = true -> valid_index d = true -> c <> d ->
  valid_index (next_floor c d) = true
  /\ S (floor_distance (next_floor c d) d) = floor_distance c d
  /\ Z.min c d <= next_floor c d <= Z.max c d.
Proof.
  intros Hc Hd Hne. apply valid_index_range in Hc, Hd.
  unfold next_floor.
  destruct (Z.ltb_spec c d) as [Hlt | Hge].
  - destruct (Z.eqb_spec (c + 1) 0) as [E | E].
    + split; [reflexivity |]. unfold floor_distance, ordinal.
      destruct (Z.ltb_spec d 0), (Z.ltb_spec c 0); cbn; lia.
    + split; [apply valid_index_range; lia |].
      unfold floor_distance, ordinal.
      destruct (Z.ltb_spec d 0), (Z.ltb_spec c 0),
        (Z.ltb_spec (c + 1) 0); lia.
  - destruct (Z.gtb_spec c d) as [Hgt | Hle]; [| lia].
    destruct (Z.eqb_spec (c - 1) 0) as [E | E].
    + split; [reflexivity |]. unfold floor_distance, ordinal.
      destruct (Z.ltb_spec d 0), (Z.ltb_spec c 0); cbn; lia.
    + split; [apply valid_index_range; lia |].
      unfold floor_distance, ordinal.
      destruct (Z.ltb_spec d 0), (Z.ltb_spec c 0),
        (Z.ltb_spec (c - 1) 0); lia.
Qed.

Lemma floor_distance_zero (c d : Z) :
  valid_index c = true -> valid_index d = true ->
  floor_distance c d = 0%nat -> c = d.
Proof.
  intros Hc Hd. apply valid_index_range in Hc, Hd.
  unfold floor_distance, ordinal.
  destruct (Z.ltb_spec d 0), (Z.ltb_spec c 0); lia.
Qed.

Lemma floor_distance_same (d : Z) : floor_distance d d = 0%nat.
Proof. unfold floor_distance. rewrite Z.sub_diag. reflexivity. Qed.

Lemma floor_validator_inside (cfg : car_range) (f : Z) :
  in_range cfg f -> floor_validator cfg f = f.
Proof.
  unfold in_range, floor_validator. intros H.
  destruct (Z.ltb_spec f (g_lowest_floor_int cfg)); [lia |].
  destruct (Z.gtb_spec f (g_highest_floor_int cfg)); [lia | reflexivity].
Qed.

Lemma floor_validator_range (cfg : car_range) (f : Z) :
  g_lowest_floor_int cfg <= g_highest_floor_int cfg ->
  in_range cfg (floor_validator cfg f).
Proof.
  unfold in_range, floor_validator. intros H.
  destruct (Z.ltb_spec f (g_lowest_floor_int cfg)); [lia |].
  destruct (Z.gtb_spec f (g_highest_floor_int cfg)); lia.
Qed.

(** [move_one_floor] when nothing interferes with the delay. *)
Lemma move_one_floor_eq (cfg : car_range) (m : car_shared_mem) :
  move_one_floor cfg m
  = set_status "Closed"
      (set_current_floor
         (index_handler
            (floor_validator cfg
               (next_floor (floor_or_zero (current_floor m))
                  (floor_or_zero (destination_floor m)))))
         (set_status "Between" m)).
Proof. reflexivity. Qed.

Lemma move_step (cfg : car_range) (m : car_shared_mem) (c d : Z) :
  floor_num_handler (current_floor m) = Some c ->
  floor_num_handler (destination_floor m) = Some d ->
  in_range cfg c -> in_range cfg d ->
  current_floor (move_one_floor cfg m) = index_handler (next_floor c d)
  /\ destination_floor (move_one_floor cfg m) = destination_floor m
  /\ status (move_one_floor cfg m) = "Closed"
  /\ in_range cfg (next_floor c d)
  /\ floor_num_handler (current_floor (move_one_floor cfg m))
     = Some (next_floor c d)
  /\ (c <> d -> S (floor_distance (next_floor c d) d) = floor_distance c d).
Proof.
  intros Hc Hd Rc Rd. rewrite move_one_floor_eq.
  unfold floor_or_zero. rewrite Hc, Hd. cbn [default from_option]. unfold id.
  pose proof (accepted_index_valid _ _ Hc) as Vc.
  pose proof (accepted_index_valid _ _ Hd) as Vd.
  assert (Hn : valid_index (next_floor c d) = true
               /\ in_range cfg (next_floor c d)
               /\ (c <> d ->
                   S (floor_distance (next_floor c d) d) = floor_distance c d)).
  { destruct (Z.eq_dec c d) as [-> | Hne].
    - unfold next_floor. rewrite Z.ltb_irrefl.
      destruct (Z.gtb_spec d d); [lia |]. tauto.
    - destruct (next_floor_toward c d Vc Vd Hne) as (H1 & H2 & H3).
      unfold in_range in *. conj_split; auto; lia. }
  destruct Hn as (Vn & Rn & Dn).
  rewrite (floor_validator_inside cfg _ Rn). cbn.
  conj_split; auto. now apply index_parses.
Qed.

(** X13: A car left alone reaches its destination one floor at a time: with
    the current and the destination floor inside the range,
    [floor_distance] passes of [move_one_floor] bring the car to the
    destination, no smaller number of passes does, and every pass ends
    inside the range with the doors closed and the destination as it
    was. *)
Theorem car_arrives (cfg : car_range) (m : car_shared_mem) (c d : Z) :
  floor_num_handler (current_floor m) = Some c ->
  floor_num_handler (destination_floor m) = Some d ->
  in_range cfg c -> in_range cfg d ->
  floor_num_handler
    (current_floor (Nat.iter (floor_distance c d) (move_one_floor cfg) m))
  = Some d
  /\ forall k : nat,
       (k < floor_distance c d)%nat ->
       exists f,
         floor_num_handler (current_floor (Nat.iter k (move_one_floor cfg) m))
         = Some f
         /\ f <> d /\ in_range cfg f
         /\ floor_distance f d = (floor_distance c d - k)%nat
         /\ destination_floor (Nat.iter k (move_one_floor cfg) m)
            = destination_floor m.
Proof.
  intros Hc Hd Rc Rd.
  pose proof (accepted_index_valid _ _ Hd) as Vd.
  assert (Hk : forall k : nat,
             (k <= floor_distance c d)%nat ->
             exists f,
               floor_num_handler
                 (current_floor (Nat.iter k (move_one_floor cfg) m)) = Some f
               /\ in_range cfg f
               /\ floor_distance f d = (floor_distance c d - k)%nat
               /\ destination_floor (Nat.iter k (move_one_floor cfg) m)
                  = destination_floor m).
  { induction k as [| k IH]; intros Hle.
    - exists c. cbn. conj_split; auto. lia.
    - destruct IH as (f & Hf & Rf & Df & Hdst); [lia |].
      cbn [Nat.iter].
      set (mk := Nat.iter k (move_one_floor cfg) m) in *.
      assert (Hd' : floor_num_handler (destination_floor mk) = Some d)
        by now rewrite Hdst.
      destruct (move_step cfg mk f d Hf Hd' Rf Rd)
        as (_ & M2 & _ & M4 & M5 & M6).
      exists (next_floor f d). conj_split; auto.
      + assert (f <> d)
          by (intros ->; rewrite floor_distance_same in Df; lia).
        specialize (M6 H). lia. }
  split.
  - destruct (Hk (floor_distance c d) (le_n _)) as (f & Hf & _ & Df & _).
    rewrite Hf. f_equal. apply floor_distance_zero; auto.
    + eapply accepted_index_valid; eauto.
    + lia.
  - intros k Hlt. destruct (Hk k ltac:(lia)) as (f & Hf & Rf & Df & Hdst).
    exists f. conj_split; auto.
    intros ->. rewrite floor_distance_same in Df. lia.
Qed.

Lemma car_arrives_witness :
  floor_num_handler
    (current_floor
       (Nat.iter (floor_distance (-2) 3) (move_one_floor (mk_range (-5) 10))
          (mk_shm "b2" "3" "Closed" 0 0 1 0 0 0 0 0)))
  = Some 3.
Proof.
  apply (car_arrives (mk_range (-5) 10)
           (mk_shm "b2" "3" "Closed" 0 0 1 0 0 0 0 0) (-2) 3);
    [reflexivity | reflexivity | unfold in_range; cbn; lia
    | unfold in_range; cbn; lia].
Defined.

Lemma floor_or_zero_cases (f : string) :
  (floor_num_handler f = None /\ floor_or_zero f = 0)
  \/ (floor_num_handler f = Some (floor_or_zero f)
      /\ valid_index (floor_or_zero f) = true).
Proof.
  unfold floor_or_zero. destruct (floor_num_handler f) as [i |] eqn:E.
  - right. split; [reflexivity |]. now apply (accepted_index_valid f).
  - now left.
Qed.

(** X14: Whatever the block holds, a pass of [move_one_floor] under a valid
    range ends on a floor of the range, written as a valid label, as soon
    as one of the two floors of the block can be read.  When neither can
    be read and the range has floors on both sides of the ground, the pass
    writes 0, which is no floor. *)
Theorem move_stays_in_range (cfg : car_range) (m : car_shared_mem) :
  valid_range cfg ->
  (is_Some (floor_num_handler (current_floor m))
   \/ is_Some (floor_num_handler (destination_floor m)) ->
   exists f,
     current_floor (move_one_floor cfg m) = index_handler f
     /\ floor_num_handler (current_floor (move_one_floor cfg m)) = Some f
     /\ valid_label (current_floor (move_one_floor cfg m)) = true
     /\ in_range cfg f
     /\ status (move_one_floor cfg m) = "Closed")
  /\ (floor_num_handler (current_floor m) = None ->
      floor_num_handler (destination_floor m) = None ->
      g_lowest_floor_int cfg < 0 < g_highest_floor_int cfg ->
      current_floor (move_one_floor cfg m) = "0"
      /\ floor_num_handler (current_floor (move_one_floor cfg m)) = None).
Proof.
  intros (Vlo & Vhi & Hle). rewrite move_one_floor_eq. cbn. split.
  - intros Hone.
    set (c := floor_or_zero (current_floor m)).
    set (d := floor_or_zero (destination_floor m)).
    assert (Hcd : (c = 0 \/ valid_index c = true)
                  /\ (d = 0 \/ valid_index d = true)
                  /\ (c <> 0 \/ d <> 0)).
    { subst c d.
      destruct (floor_or_zero_cases (current_floor m)) as [[E1 Z1] | [E1 V1]],
        (floor_or_zero_cases (destination_floor m)) as [[E2 Z2] | [E2 V2]].
      - destruct Hone as [[x Hx] | [x Hx]]; congruence.
      - pose proof (proj1 (valid_index_range _) V2). conj_split; auto.
        right. lia.
      - pose proof (proj1 (valid_index_range _) V1). conj_split; auto.
        left. lia.
      - pose proof (proj1 (valid_index_range _) V1). conj_split; auto.
        left. lia. }
    clearbody c d. destruct Hcd as (Hc & Hd & Hnz).
    assert (Vn : valid_index (next_floor c d) = true).
    { assert (Hc' : c = 0 \/ 1 <= c <= 999 \/ -99 <= c <= -1)
        by (destruct Hc as [? | Hc]; [| apply valid_index_range in Hc]; tauto).
      assert (Hd' : d = 0 \/ 1 <= d <= 999 \/ -99 <= d <= -1)
        by (destruct Hd as [? | Hd]; [| apply valid_index_range in Hd]; tauto).
      apply valid_index_range. unfold next_floor.
      destruct (Z.ltb_spec c d); [destruct (Z.eqb_spec (c + 1) 0); lia |].
      destruct (Z.gtb_spec c d); [destruct (Z.eqb_spec (c - 1) 0); lia |].
      lia. }
    pose proof (floor_validator_range cfg (next_floor c d) Hle) as Rf.
    assert (Vf : valid_index (floor_validator cfg (next_floor c d)) = true).
    { unfold floor_validator in *.
      destruct (next_floor c d <? g_lowest_floor_int cfg); [exact Vlo |].
      destruct (next_floor c d >? g_highest_floor_int cfg); [exact Vhi |].
      exact Vn. }
    exists (floor_validator cfg (next_floor c d)).
    pose proof round_trip_checked as Hall. rewrite forallb_forall in Hall.
    destruct (round_trip_ok_spec _ (Hall _ (valid_index_listed _ Vf)))
      as [P1 P2].
    conj_split; auto.
  - intros E1 E2 Hr. unfold floor_or_zero. rewrite E1, E2.
    cbn [default from_option]. unfold next_floor.
    change (0 <? 0) with false. change (0 >? 0) with false. cbv iota.
    unfold floor_validator.
    destruct (Z.ltb_spec 0 (g_lowest_floor_int cfg)); [lia |].
    destruct (Z.gtb_spec 0 (g_highest_floor_int cfg)); [lia |].
    split; reflexivity.
Qed.

Lemma move_stays_in_range_witness :
  valid_range (mk_range (-5) 10)
  /\ exists f,
       current_floor (move_one_floor (mk_range (-5) 10)
                        (mk_shm "10" "99" "Closed" 0 0 1 0 0 0 0 0))
       = index_handler f
       /\ in_range (mk_range (-5) 10) f.
Proof.
  assert (Hr : valid_range (mk_range (-5) 10))
    by (unfold valid_range; cbn; conj_split; (reflexivity || lia)).
  split; [exact Hr |].
  destruct (move_stays_in_range (mk_range (-5) 10)
              (mk_shm "10" "99" "Closed" 0 0 1 0 0 0 0 0) Hr) as [H _].
  destruct H as (f & H1 & _ & _ & H4 & _); [left; cbn; eauto |].
  exists f. now split.
Defined.

End MotionFacts.

(** ** The service panel and the car in service mode *)

Module ServiceFacts.
Import CLib Floor FloorIndex Shm Car CarMotion Internal.
Import FloorIndexFacts QueueFacts SchedulerFacts MotionFacts.
Local Open Scope list_scope.

Lemma set_destination_twice (v : string) (m : car_shared_mem) :
  set_destination_floor v (set_destination_floor v m)
  = set_destination_floor v m.
Proof. reflexivity. Qed.

(** X15: Every panel command is idempotent: run on the block it has just
    written, it writes the same block again and ends with the same code.
    Pressing up twice before the car has moved still asks for one
    floor. *)
Theorem internal_main_idempotent (operation : string) (m : car_shared_mem) :
  internal_main operation (block_after (internal_main operation m))
  = internal_main operation m.
Proof.
  unfold internal_main.
  destruct (streq operation "open"); [reflexivity |].
  destruct (streq operation "close"); [reflexivity |].
  destruct (streq operation "stop"); [reflexivity |].
  destruct (streq operation "service_on"); [reflexivity |].
  destruct (streq operation "service_off"); [reflexivity |].
  destruct (streq operation "up" || streq operation "down");
    [| reflexivity].
  destruct (individual_service_mode m =? 0) eqn:E1;
    [cbn [refuse block_after]; now rewrite E1 |].
  destruct (streq (status m) "Between") eqn:E2;
    [cbn [refuse block_after]; now rewrite E1, E2 |].
  destruct (negb (streq (status m) "Closed")) eqn:E3;
    [cbn [refuse block_after]; now rewrite E1, E2, E3 |].
  destruct (floor_num_handler (current_floor m)) as [c |] eqn:E4;
    cbn [succeed block_after set_destination_floor individual_service_mode
         status current_floor];
    rewrite E1, E2, E3, E4; reflexivity.
Qed.

Lemma label_fits (i : Z) : strtake 3 (index_handler i) = index_handler i.
Proof. apply strtake_all, index_handler_length. Qed.

(** X16: One panel command, one floor.  In service mode with the doors closed,
    [up] or [down] followed by a pass of [service_between] moves the car
    to the next floor in that direction when that floor is in the range
    (and the step does not cross from B1 to 1 or back); a further pass
    changes nothing. *)
Theorem service_step (cfg : car_range) (m : car_shared_mem)
    (operation : string) (c : Z) :
  individual_service_mode m <> 0 -> status m = "Closed" ->
  floor_num_handler (current_floor m) = Some c ->
  operation = "up" \/ operation = "down" ->
  valid_range cfg ->
  in_range cfg (if streq operation "up" then c + 1 else c - 1) ->
  (if streq operation "up" then c + 1 else c - 1) <> 0 ->
  let t := if streq operation "up" then c + 1 else c - 1 in
  let m1 := block_after (internal_main operation m) in
  exit_code (internal_main operation m) = 0
  /\ m1 = set_destination_floor (index_handler t) m
  /\ service_between cfg m1
     = set_current_floor (index_handler t) m1
  /\ floor_num_handler (current_floor (service_between cfg m1)) = Some t
  /\ service_between cfg (service_between cfg m1) = service_between cfg m1.
Proof.
  intros Hs Hst Hc Hop (Vlo & Vhi & Hle) Rt Ht. cbv zeta.
  set (t := if streq operation "up" then c + 1 else c - 1) in *.
  assert (Vt : valid_index t = true).
  { apply valid_index_range. apply valid_index_range in Vlo, Vhi.
    unfold in_range in Rt. lia. }
  pose proof (index_parses t Vt) as Pt.
  apply Z.eqb_neq in Hs.
  assert (Hm : internal_main operation m
               = succeed (set_destination_floor (index_handler t) m)).
  { unfold internal_main. rewrite Hs, Hst, Hc.
    change (streq "Closed" "Between") with false.
    change (negb (streq "Closed" "Closed")) with false. cbv iota.
    subst t. destruct Hop as [-> | ->]; cbn [streq String.eqb Ascii.eqb
      Bool.eqb orb]; cbv iota.
    - destruct (Z.eqb_spec (c + 1) 0) as [E | _]; [cbn in Ht; lia |].
      now rewrite label_fits.
    - destruct (Z.eqb_spec (c + -1) 0) as [E | _]; [cbn in Ht; lia |].
      replace (c + -1) with (c - 1) by lia. now rewrite label_fits. }
  rewrite Hm. cbn [succeed exit_code block_after].
  set (m1 := set_destination_floor (index_handler t) m).
  assert (Hadj : t = c + 1 \/ t = c - 1)
    by (subst t; destruct (streq operation "up"); tauto).
  assert (Hsb : service_between cfg m1 = set_current_floor (index_handler t) m1).
  { unfold service_between. subst m1.
    cbn [individual_service_mode status set_destination_floor current_floor
         destination_floor].
    rewrite Hs, Hst. change (negb (streq "Closed" "Closed")) with false.
    cbn [orb]. cbv iota. unfold floor_or_zero. rewrite Pt, Hc.
    cbn [default from_option]. unfold id.
    assert (Hb : (t =? c + 1) || (t =? c - 1) = true).
    { destruct Hadj as [-> | ->]; rewrite Z.eqb_refl;
        [reflexivity | apply orb_true_r]. }
    rewrite Hb. cbn [negb]. cbv iota.
    rewrite move_one_floor_eq.
    cbn [set_destination_floor current_floor destination_floor].
    unfold floor_or_zero. rewrite Pt, Hc. cbn [default from_option]. unfold id.
    assert (Hn : next_floor c t = t).
    { unfold next_floor. destruct Hadj as [E | E].
      - destruct (Z.ltb_spec c t); [| lia].
        destruct (Z.eqb_spec (c + 1) 0); lia.
      - destruct (Z.ltb_spec c t); [lia |].
        destruct (Z.gtb_spec c t); [| lia].
        destruct (Z.eqb_spec (c - 1) 0); lia. }
    rewrite Hn, (floor_validator_inside cfg t Rt).
    destruct m; cbn in Hst |- *. now rewrite Hst. }
  conj_split.
  - reflexivity.
  - reflexivity.
  - exact Hsb.
  - rewrite Hsb. exact Pt.
  - rewrite Hsb. unfold service_between. subst m1.
    cbn [individual_service_mode status set_destination_floor current_floor
         destination_floor set_current_floor].
    rewrite Hs, Hst. change (negb (streq "Closed" "Closed")) with false.
    cbn [orb]. cbv iota. unfold floor_or_zero. rewrite Pt.
    cbn [default from_option]. unfold id.
    assert (Hb : (t =? t + 1) || (t =? t - 1) = false).
    { apply orb_false_iff. split; apply Z.eqb_neq; lia. }
    rewrite Hb. cbn [negb]. cbv iota. now rewrite label_fits.
Qed.

Lemma service_step_witness :
  current_floor
    (service_between (mk_range (-5) 10)
       (block_after (internal_main "down" (mk_shm "B2" "B2" "Closed" 0 0 1 0 0 0 1 0))))
  = "B3".
Proof.
  destruct (service_step (mk_range (-5) 10)
              (mk_shm "B2" "B2" "Closed" 0 0 1 0 0 0 1 0) "down" (-2))
    as (_ & _ & H & _).
  - cbn. lia.
  - reflexivity.
  - reflexivity.
  - now right.
  - unfold valid_range. cbn. conj_split; (reflexivity || lia).
  - unfold in_range. cbn. lia.
  - cbn. lia.
  - rewrite H. reflexivity.
Defined.

End ServiceFacts.

(** ** The registry *)

Module RegistryFacts.
Import CLib Floor FloorIndex Controller Registry.
Import FloorIndexFacts QueueFacts SchedulerFacts RoutingFacts QueueOrderFacts.
Local Open Scope list_scope.

(** *** The three searches *)

Lemma named_test (nm : string) (c : CarID) :
  negb (in_use c =? 0) && streq (name c) nm = true <-> named nm c.
Proof.
  unfold named, streq. rewrite andb_true_iff, negb_true_iff, Z.eqb_neq.
  now rewrite String.eqb_eq.
Qed.

Lemma find_registry_from_spec (cars : list CarID) (nm : string) :
  forall i : nat,
    match find_registry_from i cars nm with
    | Some k =>
        exists c, (i <= k)%nat /\ cars !! (k - i)%nat = Some c /\ named nm c
          /\ forall j cj, (j < k - i)%nat -> cars !! j = Some cj ->
                          ~ named nm cj
    | None => forall c, c ∈ cars -> ~ named nm c
    end.
Proof.
  induction cars as [| c cars IH]; intros i; cbn [find_registry_from].
  - intros c Hc. inversion Hc.
  - destruct (negb (in_use c =? 0) && streq (name c) nm) eqn:E.
    + apply named_test in E. exists c. rewrite Nat.sub_diag.
      repeat split; auto; try apply E. intros j cj Hj. lia.
    + assert (Hn : ~ named nm c)
        by (intros H; apply named_test in H; congruence).
      specialize (IH (S i)).
      destruct (find_registry_from (S i) cars nm) as [k |].
      * destruct IH as (c' & Hle & Hl & Hc' & Hmin).
        exists c'. split; [lia |].
        replace (k - i)%nat with (S (k - S i)) by lia.
        split; [exact Hl |]. split; [exact Hc' |].
        intros j cj Hj Hlk. destruct j as [| j].
        -- cbn in Hlk. injection Hlk as <-. exact Hn.
        -- apply (Hmin j cj); [lia | exact Hlk].
      * intros c' Hc'. apply elem_of_cons in Hc' as [-> | Hc']; auto.
Qed.

Lemma find_registry_some (cars : list CarID) (nm : string) (k : nat) :
  find_registry cars nm = Some k ->
  exists c, cars !! k = Some c /\ named nm c
    /\ forall j cj, (j < k)%nat -> cars !! j = Some cj -> ~ named nm cj.
Proof.
  unfold find_registry. intros H.
  pose proof (find_registry_from_spec cars nm 0) as S. rewrite H in S.
  destruct S as (c & _ & Hl & Hc & Hmin). rewrite Nat.sub_0_r in *.
  exists c. auto.
Qed.

Lemma find_registry_none (cars : list CarID) (nm : string) :
  find_registry cars nm = None -> forall c, c ∈ cars -> ~ named nm c.
Proof.
  unfold find_registry. intros H.
  pose proof (find_registry_from_spec cars nm 0) as S. now rewrite H in S.
Qed.

Lemma find_registry_unique (cars : list CarID) (i : nat) (c : CarID) :
  unique_names cars -> cars !! i = Some c -> in_use c <> 0 ->
  find_registry cars (name c) = Some i.
Proof.
  intros Hu Hi Hc.
  destruct (find_registry cars (name c)) as [k |] eqn:E.
  - apply find_registry_some in E as (c' & Hk & [Hc1 Hc2] & _).
    f_equal. apply (Hu k i c' c); auto.
  - exfalso. apply (find_registry_none _ _ E c).
    + eapply list_elem_of_lookup_2; eauto.
    + now split.
Qed.

Lemma holds_test (fd : Z) (c : CarID) :
  negb (in_use c =? 0) && (socket_fd c =? fd) = true <-> holds fd c.
Proof.
  unfold holds. rewrite andb_true_iff, negb_true_iff, Z.eqb_neq.
  now rewrite Z.eqb_eq.
Qed.

Lemma socket_row_from_spec (cars : list CarID) (fd : Z) :
  forall i : nat,
    match socket_row_from i cars fd with
    | Some k =>
        exists c, (i <= k)%nat /\ cars !! (k - i)%nat = Some c /\ holds fd c
          /\ forall j cj, (j < k - i)%nat -> cars !! j = Some cj ->
                          ~ holds fd cj
    | None => forall c, c ∈ cars -> ~ holds fd c
    end.
Proof.
  induction cars as [| c cars IH]; intros i; cbn [socket_row_from].
  - intros c Hc. inversion Hc.
  - destruct (negb (in_use c =? 0) && (socket_fd c =? fd)) eqn:E.
    + apply holds_test in E. exists c. rewrite Nat.sub_diag.
      repeat split; auto; try apply E. intros j cj Hj. lia.
    + assert (Hn : ~ holds fd c)
        by (intros H; apply holds_test in H; congruence).
      specialize (IH (S i)).
      destruct (socket_row_from (S i) cars fd) as [k |].
      * destruct IH as (c' & Hle & Hl & Hc' & Hmin).
        exists c'. split; [lia |].
        replace (k - i)%nat with (S (k - S i)) by lia.
        split; [exact Hl |]. split; [exact Hc' |].
        intros j cj Hj Hlk. destruct j as [| j].
        -- cbn in Hlk. injection Hlk as <-. exact Hn.
        -- apply (Hmin j cj); [lia | exact Hlk].
      * intros c' Hc'. apply elem_of_cons in Hc' as [-> | Hc']; auto.
Qed.

Lemma socket_row_some (cars : list CarID) (fd : Z) (k : nat) :
  socket_row cars fd = Some k ->
  exists c, cars !! k = Some c /\ holds fd c
    /\ forall j cj, (j < k)%nat -> cars !! j = Some cj -> ~ holds fd cj.
Proof.
  unfold socket_row. intros H.
  pose proof (socket_row_from_spec cars fd 0) as S. rewrite H in S.
  destruct S as (c & _ & Hl & Hc & Hmin). rewrite Nat.sub_0_r in *.
  exists c. auto.
Qed.

Lemma socket_row_first (cars : list CarID) (fd : Z) (k : nat) (c : CarID) :
  cars !! k = Some c -> holds fd c ->
  (forall j cj, (j < k)%nat -> cars !! j = Some cj -> ~ holds fd cj) ->
  socket_row cars fd = Some k.
Proof.
  intros Hk Hc Hmin. destruct (socket_row cars fd) as [k' |] eqn:E.
  - apply socket_row_some in E as (c' & Hk' & Hc' & Hmin').
    f_equal. destruct (Nat.lt_trichotomy k' k) as [H | [H | H]]; auto.
    + exfalso. exact (Hmin k' c' H Hk' Hc').
    + exfalso. exact (Hmin' k c H Hk Hc).
  - exfalso. unfold socket_row in E.
    pose proof (socket_row_from_spec cars fd 0) as S. rewrite E in S.
    apply (S c); [eapply list_elem_of_lookup_2; eauto | exact Hc].
Qed.

Lemma alter_insert (f : CarID -> CarID) (cars : list CarID) (i : nat)
    (c : CarID) :
  cars !! i = Some c -> alter f i cars = <[i := f c]> cars.
Proof.
  intros H. apply list_eq. intros j.
  rewrite list_lookup_alter, list_lookup_insert.
  assert (i < length cars)%nat by (apply lookup_lt_is_Some; eauto).
  destruct (decide (i = j)) as [-> | Hne].
  - rewrite H. cbn. destruct (decide (j = j /\ (j < length cars)%nat));
      [reflexivity | tauto].
  - destruct (decide (i = j /\ (i < length cars)%nat)); [tauto | reflexivity].
Qed.

(** The slot [car_connection_manager] writes to. *)
Lemma find_slot_spec (cars : list CarID) (nm : string) :
  forall (i free : Z),
    0 <= i -> free < i ->
    let '(free', index) := find_slot i cars nm free in
    let chosen := if index <? 0 then free' else index in
    (0 <= index ->
     exists c, i <= index /\ cars !! Z.to_nat (index - i) = Some c
       /\ named nm c)
    /\ (index < 0 -> forall c, c ∈ cars -> ~ named nm c)
    /\ (index < 0 -> 0 <= free -> free' = free)
    /\ (index < 0 -> free < 0 -> 0 <= free' ->
        exists c, i <= free' /\ cars !! Z.to_nat (free' - i) = Some c
          /\ in_use c = 0)
    /\ (index < 0 -> free < 0 -> free' < 0 ->
        forall c, c ∈ cars -> in_use c <> 0)
    /\ (index < 0 -> index = -1).
Proof.
  induction cars as [| c cars IH]; intros i free Hi Hf; cbn [find_slot].
  - cbv zeta. conj_split; try lia.
    + intros _ c Hc. inversion Hc.
    + intros _ _ _ c Hc. inversion Hc.
  - destruct (negb (in_use c =? 0) && streq (name c) nm) eqn:E.
    + apply named_test in E. cbv zeta. conj_split; try lia.
      intros _. exists c. rewrite Z.sub_diag. repeat split; auto;
        try apply E. lia.
    + assert (Hn : ~ named nm c)
        by (intros H; apply named_test in H; congruence).
      set (free1 := if (in_use c =? 0) && (free <? 0) then i else free).
      assert (Hf1 : free1 < i + 1)
        by (subst free1; destruct ((in_use c =? 0) && (free <? 0)); lia).
      specialize (IH (i + 1) free1 ltac:(lia) Hf1).
      destruct (find_slot (i + 1) cars nm free1) as [free' index].
      cbv zeta in IH |- *.
      destruct IH as (I1 & I2 & I3 & I4 & I5 & I6).
      conj_split.
      * intros H0. destruct (I1 H0) as (c' & Hle & Hl & Hc').
        exists c'. split; [lia |]. split; [| exact Hc'].
        replace (Z.to_nat (index - i)) with (S (Z.to_nat (index - (i + 1))))
          by lia. exact Hl.
      * intros H0 c' Hc'. apply elem_of_cons in Hc' as [-> | Hc']; auto.
      * intros H0 Hfree. subst free1.
        destruct (Z.ltb_spec free 0); [lia |].
        rewrite andb_false_r in I3. auto.
      * intros H0 Hfree Hfree'. subst free1.
        destruct (Z.ltb_spec free 0); [| lia]. rewrite andb_true_r in *.
        destruct (Z.eqb_spec (in_use c) 0) as [Hc0 | Hc0].
        -- rewrite (I3 H0 Hi). exists c. rewrite Z.sub_diag.
           repeat split; auto. lia.
        -- destruct (I4 H0 H Hfree') as (c' & Hle & Hl & Hc').
           exists c'. split; [lia |]. split; [| exact Hc'].
           replace (Z.to_nat (free' - i))
             with (S (Z.to_nat (free' - (i + 1)))) by lia. exact Hl.
      * intros H0 Hfree Hfree' c' Hc'. subst free1.
        destruct (Z.ltb_spec free 0); [| lia]. rewrite andb_true_r in *.
        destruct (Z.eqb_spec (in_use c) 0) as [Hc0 | Hc0].
        -- specialize (I3 H0 Hi). lia.
        -- apply elem_of_cons in Hc' as [-> | Hc']; auto.
      * exact I6.
Qed.

(** *** Rows that stay well formed *)

Lemma queue_floor_fields (car : CarID) (f : Z) :
  same_routing_data car (queue_floor car f)
  /\ socket_fd (queue_floor car f) = socket_fd car.
Proof.
  unfold queue_floor, same_routing_data.
  destruct (queue_len car <? MAX_QUEUE); cbn; tauto.
Qed.

Lemma enqueue_fields (car : CarID) (s d : Z) :
  same_routing_data car (enqueue car s d)
  /\ socket_fd (enqueue car s d) = socket_fd car.
Proof.
  unfold enqueue. destruct (s =? d); [unfold same_routing_data; tauto |].
  assert (H1 : same_routing_data car
                 (if negb (in_queue car s) then queue_floor car s else car)
               /\ socket_fd (if negb (in_queue car s)
                             then queue_floor car s else car)
                  = socket_fd car).
  { destruct (negb (in_queue car s)); [apply queue_floor_fields |].
    unfold same_routing_data; tauto. }
  set (c1 := if negb (in_queue car s) then queue_floor car s else car) in *.
  clearbody c1. destruct (find_indexes c1 s d) as [si di].
  destruct ((di >=? 0) && (di <? si)).
  - change (-1 <? 0) with true. cbv iota.
    match goal with
    | |- context [queue_floor ?c d] =>
        destruct (queue_floor_fields c d) as [H2 H3]
    end.
    unfold same_routing_data in *. cbn in H2, H3. intuition congruence.
  - destruct (di <? 0); [| exact H1].
    destruct (queue_floor_fields c1 d) as [H2 H3].
    unfold same_routing_data in *. intuition congruence.
Qed.

Lemma dequeue_floor_fields (car : CarID) :
  same_routing_data car (dequeue_floor car)
  /\ socket_fd (dequeue_floor car) = socket_fd car
  /\ status (dequeue_floor car) = status car
  /\ cur_floor (dequeue_floor car) = cur_floor car.
Proof.
  unfold dequeue_floor, same_routing_data.
  destruct (queue_len car <=? 0); cbn; tauto.
Qed.

Lemma scheduler_row (car : CarID) :
  fst (car_scheduler_handler car) = car
  \/ fst (car_scheduler_handler car) = dequeue_floor car.
Proof.
  unfold car_scheduler_handler. cbn [fst].
  destruct (queue_len car >? 0); [| now left].
  destruct (streq (status car) "Opening"
            && streq (cur_floor car) (index_handler (aget (q car) 0)));
    [now right | now left].
Qed.





Lemma enqueue_from (car : CarID) (s d x : Z) :
  wf_queue car -> x ∈ queue (enqueue car s d) ->
  x ∈ queue car \/ x = s \/ x = d.
Proof.
  intros Hwf. rewrite (enqueue_queue car s d Hwf). unfold enqueue_list.
  destruct (s =? d); [tauto |]. intros H.
  apply place_dst_from in H as [H | H]; [| tauto].
  destruct (negb (mem s (queue car))); [| tauto].
  apply push_from in H. tauto.
Qed.



Lemma scan_token_length (n : nat) :
  forall s : string, (String.length (fst (scan_token n s)) <= n)%nat.
Proof.
  induction n as [| n IH]; intros s; cbn; [lia |].
  destruct s as [| c r]; cbn; [lia |].
  destruct (isspace c); cbn; [lia |].
  specialize (IH r). destruct (scan_token n r) as [t rest]. cbn in *. lia.
Qed.

Lemma scan_token_no_space (n : nat) :
  forall s : string, no_space (fst (scan_token n s)) = true.
Proof.
  induction n as [| n IH]; intros s; cbn; [reflexivity |].
  destruct s as [| c r]; cbn; [reflexivity |].
  destruct (isspace c) eqn:E; cbn; [reflexivity |].
  specialize (IH r). destruct (scan_token n r) as [t rest]. cbn in *.
  now rewrite E, IH.
Qed.

Lemma sscanf_car_name (frame : string) :
  let '(nm, lo, hi) := sscanf_car frame in
  (String.length nm <= 31)%nat /\ no_space nm = true
  /\ (nm = EmptyString -> lo = EmptyString).
Proof.
  unfold sscanf_car. destruct (strip_prefix "CAR" frame) as [r |];
    [| cbn; conj_split; [lia | reflexivity | reflexivity]].
  unfold scan_s. pose proof (scan_token_length 31 (skip_space r)) as H.
  pose proof (scan_token_no_space 31 (skip_space r)) as H'.
  destruct (scan_token 31 (skip_space r)) as [nm r1]. cbn [fst] in H, H'.
  destruct nm as [| c nm]; [cbn; conj_split; [lia | reflexivity | reflexivity] |].
  destruct (scan_token 3 (skip_space r1)) as [lo r2].
  destruct lo as [| c' lo]; [conj_split; [exact H | exact H' | discriminate] |].
  destruct (scan_token 3 (skip_space r2)) as [hi r3].
  conj_split; [exact H | exact H' | discriminate].
Qed.

(** *** Registries that stay well formed *)











(** What a registration does. *)
Lemma registration_cases (cars : list CarID) (fd : Z)
    (nm lowest highest : string) :
  (exists l h i old,
     floor_num_handler lowest = Some l /\ floor_num_handler highest = Some h
     /\ cars !! i = Some old
     /\ car_connection_manager cars fd nm lowest highest
        = (<[i := register_row fd nm lowest (Z.min l h) (Z.max l h) old]> cars,
           Z.of_nat i)
     /\ (named nm old
         \/ (in_use old = 0 /\ forall c, c ∈ cars -> ~ named nm c)))
  \/ (car_connection_manager cars fd nm lowest highest = (cars, -2)
      /\ is_Some (floor_num_handler lowest)
      /\ is_Some (floor_num_handler highest)
      /\ forall c, c ∈ cars -> in_use c <> 0 /\ name c <> nm)
  \/ (car_connection_manager cars fd nm lowest highest = (cars, -1)
      /\ (floor_num_handler lowest = None
          \/ floor_num_handler highest = None)).
Proof.
  unfold car_connection_manager.
  destruct (floor_num_handler lowest) as [l |]; [| right; right; tauto].
  destruct (floor_num_handler highest) as [h |]; [| right; right; tauto].
  assert (Hsw : (if l >? h then (h, l) else (l, h)) = (Z.min l h, Z.max l h)).
  { destruct (Z.gtb_spec l h); f_equal; lia. }
  rewrite Hsw. clear Hsw.
  pose proof (find_slot_spec cars nm 0 (-1) ltac:(lia) ltac:(lia)) as S.
  destruct (find_slot 0 cars nm (-1)) as [free index]. cbv zeta in S.
  destruct S as (S1 & S2 & _ & S4 & S5 & _).
  destruct (Z.ltb_spec index 0) as [Hi | Hi].
  - destruct (Z.ltb_spec free 0) as [Hf | Hf].
    + right. left. conj_split; eauto.
      intros c Hc. split; [now apply S5 |].
      intros Hn. apply (S2 Hi c Hc). split; [now apply S5 | exact Hn].
    + left. destruct (S4 Hi ltac:(lia) Hf) as (c & _ & Hl & Hc).
      rewrite Z.sub_0_r in Hl.
      exists l, h, (Z.to_nat free), c. conj_split; auto.
      rewrite (alter_insert _ _ _ _ Hl). f_equal. lia.
  - left. destruct (S1 Hi) as (c & _ & Hl & Hc).
    rewrite Z.sub_0_r in Hl.
    exists l, h, (Z.to_nat index), c. conj_split; auto.
    destruct (Z.ltb_spec index 0); [lia |].
    rewrite (alter_insert _ _ _ _ Hl). f_equal. lia.
Qed.



(** *** Frames on the wire *)
















(** *** A trip *)









End RegistryFacts.

(** ** STATUS frames and the scheduler *)

Module StatusFrameFacts.
Import CLib Floor Controller Registry.
Import QueueFacts SchedulerFacts RoutingFacts RegistryFacts.
Local Open Scope list_scope.







End StatusFrameFacts.

(** ** Calls on a queue without room *)

Module CallCapacityFacts.
Import CLib Floor Controller Registry.
Import QueueFacts SchedulerFacts RoutingFacts CapacityFacts RegistryFacts.
Local Open Scope list_scope.

(** A call that a car of the registry covers first, whatever its queue
    holds. *)
Lemma call_reply (cars : list CarID) (i : nat) (car : CarID)
    (src dst : string) (s d : Z) :
  names_fit cars -> unique_names cars ->
  cars !! i = Some car -> first_cover cars s d car ->
  is_token src = true -> is_token dst = true ->
  floor_num_handler src = Some s -> floor_num_handler dst = Some d ->
  s <> d ->
  tcp_call_thread cars (call_frame src dst)
  = mk_call_result (<[i := enqueue car s d]> cars)
      [("CAR " ++ name car)%string] (send_car (enqueue car s d)).
Proof.
  intros Hfit Hu Hi Hfc Hts Htd Es Ed Hne.
  assert (U : in_use car <> 0) by (destruct Hfc as (_ & _ & [U _] & _); exact U).
  assert (Hsrc : src <> EmptyString) by (intros ->; discriminate Es).
  assert (Hlen : (String.length (name car) <= 31)%nat)
    by (apply Hfit; eapply list_elem_of_lookup_2; eauto).
  unfold tcp_call_thread.
  rewrite (sscanf_call_fields src dst Hts Htd Hsrc), Es, Ed.
  apply Z.eqb_neq in Hne. rewrite Hne.
  rewrite (car_selector_first cars s d car Hfit Hfc).
  rewrite (find_registry_unique cars i car Hu Hi U), Hi.
  f_equal. f_equal. apply strtake_all. cbn. lia.
Qed.

(** C10: every queue operation keeps the length within 0..32; an
    enqueue on a full queue changes nothing, and on a queue with one free
    slot it takes the source floor and drops the destination floor.  None
    of this is an error: a call that a car covers is answered CAR with the
    name of the car whatever the queue of the car holds, and the row of
    the car is left as [enqueue] leaves it; so on a full queue the client
    is told CAR and nothing is queued, and with one free slot the client
    is told CAR, the source is queued and the destination is dropped.
    The reply does not depend on the queues at all. *)
Theorem queue_capacity :
  (forall (car : CarID) (f s d : Z),
     wf_queue car ->
     wf_queue (queue_floor car f) /\ wf_queue (dequeue_floor car)
     /\ wf_queue (enqueue car s d))
  /\ (forall (car : CarID) (s d : Z),
        wf_queue car -> queue_len car = MAX_QUEUE -> s <> d ->
        s ∉ queue car -> d ∉ queue car ->
        enqueue car s d = car)
  /\ (forall (car : CarID) (s d : Z),
        wf_queue car -> queue_len car = MAX_QUEUE - 1 -> s <> d ->
        s ∉ queue car -> d ∉ queue car ->
        queue (enqueue car s d) = queue car ++ [s]
        /\ queue_len (enqueue car s d) = MAX_QUEUE)
  /\ (forall (cars : list CarID) (i : nat) (car : CarID) (src dst : string)
             (s d : Z),
        names_fit cars -> unique_names cars ->
        cars !! i = Some car -> first_cover cars s d car ->
        is_token src = true -> is_token dst = true ->
        floor_num_handler src = Some s -> floor_num_handler dst = Some d ->
        s <> d ->
        tcp_call_thread cars (call_frame src dst)
        = mk_call_result (<[i := enqueue car s d]> cars)
            [("CAR " ++ name car)%string] (send_car (enqueue car s d)))
  /\ (forall (cars : list CarID) (i : nat) (car : CarID) (src dst : string)
             (s d : Z),
        names_fit cars -> unique_names cars ->
        cars !! i = Some car -> first_cover cars s d car ->
        is_token src = true -> is_token dst = true ->
        floor_num_handler src = Some s -> floor_num_handler dst = Some d ->
        s <> d -> wf_queue car -> queue_len car = MAX_QUEUE ->
        s ∉ queue car -> d ∉ queue car ->
        to_client (tcp_call_thread cars (call_frame src dst))
        = [("CAR " ++ name car)%string]
        /\ registry_after (tcp_call_thread cars (call_frame src dst)) = cars)
  /\ (forall (cars cars' : list CarID) (frame : string),
        Forall2 same_routing_data cars cars' ->
        to_client (tcp_call_thread cars frame)
        = to_client (tcp_call_thread cars' frame)).
Proof.
  assert (Hfull : forall (car : CarID) (s d : Z),
        wf_queue car -> queue_len car = MAX_QUEUE -> s <> d ->
        s ∉ queue car -> d ∉ queue car ->
        enqueue car s d = car).
  { intros car s d Hwf Hlen Hne Hs Hd.
    apply enqueue_fixed; try assumption; try (now right).
    intros H. contradiction. }
  split; [| split; [| split; [| split; [| split]]]].
  - intros car f s d Hwf.
    auto using queue_floor_wf, dequeue_floor_wf, enqueue_wf.
  - exact Hfull.
  - intros car s d Hwf Hlen Hne Hs Hd.
    pose proof (enqueue_wf car s d Hwf) as Hwf'.
    pose proof (queue_length car Hwf) as Hl.
    assert (Hq : queue (enqueue car s d) = queue car ++ [s]).
    { rewrite enqueue_queue by assumption. unfold enqueue_list, place_dst.
      destruct (Z.eqb_spec s d); [contradiction |].
      rewrite (proj2 (mem_false s (queue car)) Hs). simpl negb. cbv iota.
      destruct (push_cases (queue car) s) as [[_ ->] | [Hge _]];
        [| unfold MAX_QUEUE in *; lia].
      assert (Hd' : d ∉ queue car ++ [s]).
      { rewrite elem_of_app, list_elem_of_singleton. intros [H | H]; congruence. }
      rewrite (proj2 (index_of_absent d _) Hd'). simpl.
      destruct (push_cases (queue car ++ [s]) d) as [[Hlt _] | [_ ->]];
        [| reflexivity].
      rewrite length_app in Hlt. simpl in Hlt. unfold MAX_QUEUE in *. lia. }
    split; [exact Hq |].
    pose proof (queue_length _ Hwf') as Hl'. rewrite Hq, length_app in Hl'.
    simpl in Hl'. destruct Hwf' as [Hb _]. unfold MAX_QUEUE in *. lia.
  - intros. now apply call_reply.
  - intros cars i car src dst s d Hfit Hu Hi Hfc Hts Htd Es Ed Hne Hwf Hlen
      Hs Hd.
    rewrite (call_reply cars i car src dst s d) by assumption.
    rewrite (Hfull car s d) by assumption. cbn [to_client registry_after].
    split; [reflexivity |]. now apply list_insert_id.
  - intros cars cars' frame H. now apply to_client_same.
Qed.

Lemma queue_capacity_witness :
  tcp_call_thread [Samples.car_full] (call_frame "33" "34")
  = mk_call_result [Samples.car_full] ["CAR A"] ["FLOOR 1"]
  /\ to_client (tcp_call_thread [Samples.car_31] (call_frame "33" "34"))
     = ["CAR A"]
  /\ (exists c,
        registry_after (tcp_call_thread [Samples.car_31] (call_frame "33" "34"))
        = [c]
        /\ queue c = queue Samples.car_31 ++ [33] /\ queue_len c = MAX_QUEUE).
Proof.
  assert (Hfit : forall car, name car = "A" -> names_fit [car]).
  { intros car Hn c Hc. apply list_elem_of_singleton in Hc. subst c.
    rewrite Hn. simpl. lia. }
  assert (Hu : forall car, unique_names [car]).
  { intros car [| i] [| j] ci cj Hi Hj; try reflexivity;
      try discriminate Hi; try discriminate Hj;
      cbn in Hi, Hj; try (destruct i; discriminate Hi);
      try (destruct j; discriminate Hj). }
  assert (Hfc : forall car, in_use car = 1 -> lowest_floor car = 1 ->
                            highest_floor car = 40 ->
                            first_cover [car] 33 34 car).
  { intros car H1 H2 H3. exists 0%nat. split; [reflexivity |].
    split; [unfold covers; rewrite H1, H2, H3; lia |].
    intros j c Hj. lia. }
  assert (Hwf : wf_queue Samples.car_31)
    by (split; [vm_compute; split; discriminate | reflexivity]).
  assert (Hwf' : wf_queue Samples.car_full)
    by (split; [vm_compute; split; discriminate | reflexivity]).
  assert (Hout : forall car x, mem x (queue car) = false -> x ∉ queue car).
  { intros car x Hm H. apply mem_elem in H. congruence. }
  assert (H33 : floor_num_handler "33" = Some 33) by reflexivity.
  assert (H34 : floor_num_handler "34" = Some 34) by reflexivity.
  assert (Hne : 33 <> 34) by lia.
  assert (Hs31 : 33 ∉ queue Samples.car_31)
    by (apply Hout; vm_compute; reflexivity).
  assert (Hd31 : 34 ∉ queue Samples.car_31)
    by (apply Hout; vm_compute; reflexivity).
  assert (Hsf : 33 ∉ queue Samples.car_full)
    by (apply Hout; vm_compute; reflexivity).
  assert (Hdf : 34 ∉ queue Samples.car_full)
    by (apply Hout; vm_compute; reflexivity).
  assert (Hl31 : queue_len Samples.car_31 = MAX_QUEUE - 1)
    by (vm_compute; reflexivity).
  assert (Hlf : queue_len Samples.car_full = MAX_QUEUE)
    by (vm_compute; reflexivity).
  assert (Hc31 : first_cover [Samples.car_31] 33 34 Samples.car_31)
    by (apply Hfc; vm_compute; reflexivity).
  assert (Hcf : first_cover [Samples.car_full] 33 34 Samples.car_full)
    by (apply Hfc; vm_compute; reflexivity).
  assert (Hn31 : name Samples.car_31 = "A") by (vm_compute; reflexivity).
  assert (Hnf : name Samples.car_full = "A") by (vm_compute; reflexivity).
  destruct queue_capacity as (_ & H2 & H3 & H4 & _).
  pose proof (H4 [Samples.car_full] 0%nat Samples.car_full "33" "34" 33 34
                (Hfit _ Hnf) (Hu _) eq_refl Hcf eq_refl eq_refl H33 H34 Hne)
    as Rf.
  pose proof (H4 [Samples.car_31] 0%nat Samples.car_31 "33" "34" 33 34
                (Hfit _ Hn31) (Hu _) eq_refl Hc31 eq_refl eq_refl H33 H34 Hne)
    as R31.
  rewrite (H2 Samples.car_full 33 34 Hwf' Hlf Hne Hsf Hdf), Hnf in Rf.
  rewrite Hn31 in R31.
  destruct (H3 Samples.car_31 33 34 Hwf Hl31 Hne Hs31 Hd31) as [Q1 Q2].
  split; [| split].
  - rewrite Rf. f_equal; vm_compute; reflexivity.
  - now rewrite R31.
  - exists (enqueue Samples.car_31 33 34). rewrite R31.
    split; [reflexivity | now split].
Defined.

End CallCapacityFacts.

(** ** The registry under any order of the critical sections *)

Module SectionFacts.
Import CLib Floor FloorIndex Controller Registry Sections.
Import QueueFacts SchedulerFacts RoutingFacts FloorIndexFacts RegistryFacts.
Local Open Scope list_scope.

Lemma row_sound_same (c c' : CarID) :
  row_sound c -> same_routing_data c c' ->
  wf_queue c' -> NoDup (queue c') ->
  (forall f, f ∈ queue c' -> f ∈ queue c) ->
  row_sound c'.
Proof.
  intros (Hwf & Hnd & Hfl & Hfree & Huse) (E1 & E2 & E3 & E4) Hwf' Hnd' Hsub.
  unfold row_sound. rewrite <- E1, <- E2, <- E3, <- E4.
  conj_split; auto.
  intros H0. specialize (Hfree H0).
  assert (Hq : queue c = []) by (unfold queue; rewrite Hfree; apply take_0).
  rewrite Hq in Hsub.
  destruct (queue c') as [| x l] eqn:E.
  - now apply queue_nil.
  - exfalso. specialize (Hsub x ltac:(left)). inversion Hsub.
Qed.

Lemma row_sound_update (c : CarID) (st cur dst : string) :
  row_sound c -> row_sound (update_row st cur dst c).
Proof.
  intros H. apply (row_sound_same c); auto; try apply H.
  unfold same_routing_data. cbn. tauto.
Qed.

Lemma row_sound_dequeue (c : CarID) : row_sound c -> row_sound (dequeue_floor c).
Proof.
  intros H. pose proof H as (Hwf & Hnd & _).
  apply (row_sound_same c); auto.
  - apply dequeue_floor_fields.
  - now apply dequeue_floor_wf.
  - rewrite dequeue_floor_tail by exact Hwf.
    destruct (queue c) as [| x l]; [constructor |].
    cbn. now apply NoDup_cons in Hnd as [_ Hnd].
  - intros f. rewrite dequeue_floor_tail by exact Hwf.
    destruct (queue c) as [| x l]; cbn; [tauto | now right].
Qed.

Lemma row_sound_scheduler (c : CarID) :
  row_sound c -> row_sound (fst (car_scheduler_handler c)).
Proof.
  intros H. destruct (scheduler_row c) as [-> | ->];
    [exact H | now apply row_sound_dequeue].
Qed.

Lemma row_sound_enqueue (c : CarID) (s d : Z) :
  row_sound c -> in_use c <> 0 ->
  valid_index s = true -> valid_index d = true ->
  row_sound (enqueue c s d).
Proof.
  intros (Hwf & Hnd & Hfl & Hfree & Huse) Hin Vs Vd.
  destruct (enqueue_fields c s d) as [(E1 & E2 & E3 & E4) _].
  unfold row_sound. rewrite <- E1, <- E2, <- E3, <- E4.
  conj_split; auto.
  - now apply enqueue_wf.
  - rewrite (enqueue_queue c s d Hwf).
    destruct (Z.eq_dec s d) as [-> | Hne].
    + unfold enqueue_list. now rewrite Z.eqb_refl.
    + apply enqueue_list_post; auto.
      rewrite (queue_length c Hwf). destruct Hwf as [Hl _]. lia.
  - intros f Hf. apply enqueue_from in Hf as [Hf | [-> | ->]]; auto.
  - tauto.
Qed.

Lemma row_sound_free (c : CarID) : row_sound c -> row_sound (free_row c).
Proof.
  intros (Hwf & _). destruct Hwf as [Hl Hlen].
  unfold row_sound, wf_queue, queue, free_row. cbn.
  conj_split; auto; try lia; try tauto.
  - constructor.
  - intros f Hf. inversion Hf.
Qed.

Lemma register_row_sound (fd : Z) (nm lowest : string) (l h : Z)
    (old : CarID) :
  row_sound old -> valid_index l = true -> valid_index h = true ->
  nm <> EmptyString -> (String.length nm <= 31)%nat ->
  no_space nm = true ->
  row_sound (register_row fd nm lowest (Z.min l h) (Z.max l h) old).
Proof.
  intros (Hwf & _) Vl Vh Hne Hlen Hns. destruct Hwf as [_ Hq].
  unfold row_sound.
  change (queue (register_row fd nm lowest (Z.min l h) (Z.max l h) old))
    with (take 0 (q old)). rewrite take_0.
  conj_split; try (cbn; tauto); try (cbn; lia).
  - split; [vm_compute; split; discriminate | exact Hq].
  - constructor.
  - intros f Hf. inversion Hf.
  - intros _. cbn [register_row in_use lowest_floor highest_floor Controller.name].
    rewrite (strtake_all 31 nm Hlen). conj_split; auto.
    + destruct (Z.min_spec l h) as [[_ ->] | [_ ->]]; assumption.
    + destruct (Z.max_spec l h) as [[_ ->] | [_ ->]]; assumption.
    + lia.
Qed.

Lemma registry_sound_insert (cars : list CarID) (i : nat) (c' : CarID) :
  registry_sound cars -> (i < length cars)%nat -> row_sound c' ->
  (in_use c' <> 0 ->
   forall j cj, j <> i -> cars !! j = Some cj -> in_use cj <> 0 ->
                Controller.name cj <> Controller.name c') ->
  registry_sound (<[i := c']> cars).
Proof.
  intros (Hlen & Hrows & Hu) Hi Hrow Hnew. unfold registry_sound.
  rewrite length_insert. conj_split; auto.
  - intros car Hcar. apply list_elem_of_lookup in Hcar as [j Hj].
    apply list_lookup_insert_Some in Hj as [(_ & <- & _) | (_ & Hj)]; auto.
    apply Hrows. eapply list_elem_of_lookup_2; eauto.
  - intros i1 i2 c1 c2 H1 H2 U1 U2 Hn.
    apply list_lookup_insert_Some in H1 as [(<- & <- & _) | (N1 & H1)];
      apply list_lookup_insert_Some in H2 as [(<- & <- & _) | (N2 & H2)];
      auto.
    + exfalso. apply (Hnew U1 i2 c2); auto.
    + exfalso. apply (Hnew U2 i1 c1); auto.
    + eapply Hu; eauto.
Qed.

Lemma registry_sound_same (cars : list CarID) (i : nat) (c c' : CarID) :
  registry_sound cars -> cars !! i = Some c -> row_sound c' ->
  (in_use c' <> 0 -> named (Controller.name c') c) ->
  registry_sound (<[i := c']> cars).
Proof.
  intros Hok Hi Hrow Hsame. apply registry_sound_insert; auto.
  - apply lookup_lt_is_Some; eauto.
  - intros U j cj Hne Hj Uj Hn. destruct (Hsame U) as [Uc Hc].
    destruct Hok as (_ & _ & Hu). apply Hne.
    apply (Hu j i cj c); auto. congruence.
Qed.

Lemma registry_sound_row (cars : list CarID) (i : nat) (c : CarID) :
  registry_sound cars -> cars !! i = Some c -> row_sound c.
Proof.
  intros (_ & Hrows & _) Hi. apply Hrows.
  eapply list_elem_of_lookup_2; eauto.
Qed.

Lemma initial_sound : registry_sound g_cars_initial.
Proof.
  unfold registry_sound. conj_split; [reflexivity | |].
  - intros car Hcar. unfold g_cars_initial in Hcar.
    apply list_elem_of_In, repeat_spec in Hcar. subst car.
    unfold row_sound.
    change (queue empty_row) with (@nil Z).
    conj_split; try (cbn; tauto).
    + split; [vm_compute; split; discriminate | reflexivity].
    + constructor.
    + intros f Hf. inversion Hf.
  - intros i j ci cj Hi _ Ui. exfalso. apply Ui.
    apply list_elem_of_lookup_2, list_elem_of_In, repeat_spec in Hi.
    now subst ci.
Qed.

Lemma remove_car_sound (cars : list CarID) (fd : Z) :
  registry_sound cars -> registry_sound (remove_car cars fd).
Proof.
  intros Hok. unfold remove_car.
  destruct (socket_row cars fd) as [i |] eqn:E; [| exact Hok].
  apply socket_row_some in E as (c & Hi & _).
  rewrite (alter_insert _ _ _ _ Hi).
  apply (registry_sound_same cars i c); auto.
  - apply row_sound_free. eapply registry_sound_row; eauto.
  - cbn. tauto.
Qed.

Lemma update_status_sound (cars : list CarID) (fd : Z) (st cur dst : string) :
  registry_sound cars -> registry_sound (update_status cars fd st cur dst).
Proof.
  intros Hok. unfold update_status.
  destruct (socket_row cars fd) as [i |] eqn:E; [| exact Hok].
  apply socket_row_some in E as (c & Hi & _).
  rewrite (alter_insert _ _ _ _ Hi).
  apply (registry_sound_same cars i c); auto.
  - apply row_sound_update. eapply registry_sound_row; eauto.
  - cbn. intros U. now split.
Qed.

Lemma registration_sound (cars : list CarID) (fd : Z)
    (nm lowest highest : string) :
  registry_sound cars -> (String.length nm <= 31)%nat ->
  no_space nm = true ->
  (nm = EmptyString -> lowest = EmptyString) ->
  registry_sound (fst (car_connection_manager cars fd nm lowest highest)).
Proof.
  intros Hok Hlen Hns Hempty.
  destruct (registration_cases cars fd nm lowest highest)
    as [(l & h & i & old & El & Eh & Hi & -> & Hold) | [(-> & _) | (-> & _)]];
    [| exact Hok | exact Hok].
  cbn [fst].
  assert (Hne : nm <> EmptyString).
  { intros E. rewrite (Hempty E) in El. discriminate El. }
  pose proof (accepted_index_valid _ _ El) as Vl.
  pose proof (accepted_index_valid _ _ Eh) as Vh.
  apply registry_sound_insert; auto.
  - apply lookup_lt_is_Some; eauto.
  - apply register_row_sound; auto. eapply registry_sound_row; eauto.
  - intros _ j cj Hj Hl U. cbn [register_row Controller.name].
    rewrite (strtake_all 31 nm Hlen). intros Hn.
    destruct Hold as [[Uo No] | [_ Hnone]].
    + destruct Hok as (_ & _ & Hu). apply Hj.
      apply (Hu j i cj old); auto. congruence.
    + apply (Hnone cj); [eapply list_elem_of_lookup_2; eauto | now split].
Qed.

(** *** The steps of the threads *)

Lemma call_select_sound (cars : list CarID) (fd : Z) (frame : string) :
  cars_now (call_select cars fd frame) = cars
  /\ thread_sound (thread_now (call_select cars fd frame)).
Proof.
  unfold call_select. destruct (sscanf_call frame) as [src dst].
  destruct (floor_num_handler src) as [s |] eqn:Es; [| now split].
  destruct (floor_num_handler dst) as [d |] eqn:Ed; [| now split].
  destruct (s =? d); [now split |].
  destruct (car_selector cars s d) as [nm |]; [| now split].
  split; [reflexivity |]. split; eapply accepted_index_valid; eauto.
Qed.

Lemma call_enqueue_sound (cars : list CarID) (nm : string) (s d : Z) :
  registry_sound cars -> valid_index s = true -> valid_index d = true ->
  registry_sound (cars_now (call_enqueue cars nm s d)).
Proof.
  intros Hok Vs Vd. unfold call_enqueue.
  destruct (find_registry cars nm) as [i |] eqn:E; [| exact Hok].
  apply find_registry_some in E as (c & Hi & [U Hn] & _).
  rewrite Hi. cbn [cars_now].
  apply (registry_sound_same cars i c); auto.
  - apply row_sound_enqueue; auto. eapply registry_sound_row; eauto.
  - destruct (enqueue_fields c s d) as [(E1 & E2 & _) _].
    rewrite <- E1, <- E2. intros _. now split.
Qed.

Lemma car_receive_sound (cars : list CarID) (fd : Z) (nm : string)
    (frame : option string) :
  registry_sound cars ->
  registry_sound (cars_now (car_receive cars fd nm frame))
  /\ thread_sound (thread_now (car_receive cars fd nm frame)).
Proof.
  intros Hok. unfold car_receive.
  destruct frame as [frame |]; [| split; [now apply remove_car_sound | exact I]].
  destruct (strip_prefix "STATUS " frame) as [r |].
  - destruct (sscanf_status r) as [[st cur] dst].
    split; [now apply update_status_sound | exact I].
  - destruct (streq frame "INDIVIDUAL SERVICE" || streq frame "EMERGENCY");
      (split; [| exact I]); [exact Hok | now apply remove_car_sound].
Qed.

Lemma car_schedule_sound (cars : list CarID) (fd : Z) (nm : string) :
  registry_sound cars ->
  registry_sound (cars_now (car_schedule cars fd nm))
  /\ thread_sound (thread_now (car_schedule cars fd nm)).
Proof.
  intros Hok. unfold car_schedule.
  destruct (find_registry cars nm) as [i |] eqn:E; [| now split].
  apply find_registry_some in E as (c & Hi & _ & _). rewrite Hi.
  pose proof (row_sound_scheduler c (registry_sound_row cars i c Hok Hi)) as Hr.
  assert (Hs : in_use (fst (car_scheduler_handler c)) <> 0 ->
               named (Controller.name (fst (car_scheduler_handler c))) c).
  { destruct (scheduler_row c) as [-> | ->]; [intros U; now split |].
    destruct (dequeue_floor_fields c) as ((E1 & E2 & _) & _).
    rewrite <- E1, <- E2. intros U. now split. }
  destruct (car_scheduler_handler c) as [c' out]. cbn [fst] in *.
  split; [| exact I]. cbn [cars_now].
  now apply (registry_sound_same cars i c).
Qed.

Lemma first_frame_sound (cars : list CarID) (fd : Z) (f : option string) :
  registry_sound cars ->
  registry_sound (cars_now (first_frame_step cars fd f))
  /\ thread_sound (thread_now (first_frame_step cars fd f)).
Proof.
  intros Hok. unfold first_frame_step.
  destruct f as [f |]; [| now split].
  destruct (strip_prefix "CAR " f) as [r |].
  - pose proof (sscanf_car_name f) as Hn.
    destruct (sscanf_car f) as [[nm lo] hi].
    destruct Hn as (Hlen & Hns & Hempty).
    pose proof (registration_sound cars fd nm lo hi Hok Hlen Hns Hempty) as H.
    destruct (car_connection_manager cars fd nm lo hi) as [cars' index].
    cbn [fst] in H. split; [exact H |]. now destruct (index <? 0).
  - destruct (strip_prefix "CALL " f) as [r |]; [| now split].
    destruct (call_select_sound cars fd f) as [-> H]. now split.
Qed.

Lemma thread_step_sound (cars : list CarID) (th : thread)
    (input : option string) :
  registry_sound cars -> thread_sound th ->
  registry_sound (cars_now (thread_step cars th input))
  /\ thread_sound (thread_now (thread_step cars th input)).
Proof.
  intros Hok Hth. destruct th as [fd | fd nm s d | fd nm | fd nm |];
    cbn [thread_step].
  - now apply first_frame_sound.
  - destruct Hth as [Vs Vd]. split; [now apply call_enqueue_sound |].
    unfold call_enqueue. destruct (find_registry cars nm) as [i |]; [| exact I].
    destruct (cars !! i); exact I.
  - now apply car_receive_sound.
  - now apply car_schedule_sound.
  - now split.
Qed.

Lemma controller_step_sound (st : controller_state) (e : controller_event) :
  registry_sound (g_cars st) -> Forall thread_sound (threads st) ->
  registry_sound (g_cars (controller_step st e))
  /\ Forall thread_sound (threads (controller_step st e)).
Proof.
  intros Hok Hth. destruct e as [fd | k input]; cbn [controller_step].
  - cbn [g_cars threads]. split; [exact Hok |].
    apply Forall_app. split; [exact Hth | now repeat constructor].
  - destruct (threads st !! k) as [th |] eqn:Hk; [| now split].
    cbv zeta. cbn [g_cars threads].
    destruct (thread_step_sound (g_cars st) th input Hok) as [H1 H2].
    { rewrite Forall_forall in Hth. apply Hth.
      eapply list_elem_of_lookup_2; eauto. }
    split; [exact H1 |]. now apply Forall_insert.
Qed.

Lemma controller_run_sound (es : list controller_event) :
  registry_sound (g_cars (controller_run es))
  /\ Forall thread_sound (threads (controller_run es)).
Proof.
  unfold controller_run.
  assert (H0 : registry_sound (g_cars (mk_state g_cars_initial []))
               /\ Forall thread_sound (threads (mk_state g_cars_initial [])))
    by (split; [exact initial_sound | constructor]).
  revert H0. generalize (mk_state g_cars_initial []).
  induction es as [| e es IH]; intros st H0; cbn [fold_left]; [exact H0 |].
  apply IH. destruct H0 as [H1 H2]. now apply controller_step_sound.
Qed.

(** *** The handlers are their steps run back to back *)

Lemma call_steps (cars : list CarID) (fd : Z) (frame : string) :
  let r1 := call_select cars fd frame in
  let r2 := thread_step (cars_now r1) (thread_now r1) None in
  cars_now r2 = registry_after (tcp_call_thread cars frame)
  /\ map snd (sent r1) = to_client (tcp_call_thread cars frame)
  /\ map snd (sent r2) = to_car (tcp_call_thread cars frame)
  /\ thread_now r2 = Finished.
Proof.
  cbv zeta. unfold call_select, tcp_call_thread.
  destruct (sscanf_call frame) as [src dst].
  destruct (floor_num_handler src) as [s |]; [| now repeat split].
  destruct (floor_num_handler dst) as [d |]; [| now repeat split].
  destruct (s =? d); [now repeat split |].
  destruct (car_selector cars s d) as [nm |]; [| now repeat split].
  cbn [cars_now thread_now sent thread_step]. unfold call_enqueue.
  destruct (find_registry cars nm) as [i |]; [| now repeat split].
  destruct (cars !! i) as [c |]; [| now repeat split].
  cbn [cars_now thread_now sent registry_after to_client to_car map snd].
  repeat split. rewrite map_map. cbn [snd]. apply map_id.
Qed.

Lemma car_steps (cars : list CarID) (fd : Z) (nm : string)
    (frame : option string) :
  let r1 := car_receive cars fd nm frame in
  let r2 := match thread_now r1 with
            | Car_reported _ _ =>
                thread_step (cars_now r1) (thread_now r1) None
            | _ => mk_step (cars_now r1) (thread_now r1) []
            end in
  cars_now r2 = cars_after (tcp_car_frame cars fd nm frame)
  /\ map snd (sent r2) = to_the_car (tcp_car_frame cars fd nm frame)
  /\ (thread_now r2 = Car_listens fd nm <->
      goes_on (tcp_car_frame cars fd nm frame) = true).
Proof.
  cbv zeta. unfold car_receive, tcp_car_frame.
  destruct frame as [frame |];
    [| cbn; repeat split; intros H; discriminate H].
  destruct (strip_prefix "STATUS " frame) as [r |].
  - destruct (sscanf_status r) as [[st cur] dst].
    cbn [cars_now thread_now thread_step]. unfold car_schedule.
    destruct (find_registry (update_status cars fd st cur dst) nm) as [i |];
      [| now repeat split].
    destruct (update_status cars fd st cur dst !! i) as [c |];
      [| now repeat split].
    destruct (car_scheduler_handler c) as [c' out].
    cbn [cars_now thread_now sent cars_after to_the_car goes_on].
    repeat split. rewrite map_map. cbn [snd]. apply map_id.
  - destruct (streq frame "INDIVIDUAL SERVICE" || streq frame "EMERGENCY");
      cbn; repeat split; intros H; discriminate H.
Qed.

Lemma first_steps (cars : list CarID) (fd : Z) (f : option string) :
  let r1 := first_frame_step cars fd f in
  let r2 := match thread_now r1 with
            | Call_chosen _ _ _ _ =>
                thread_step (cars_now r1) (thread_now r1) None
            | _ => mk_step (cars_now r1) (thread_now r1) []
            end in
  cars_now r2 = registry (tcp_thread cars fd f)
  /\ map snd (sent r1) = to_peer (tcp_thread cars fd f)
  /\ map snd (sent r2) = to_served_car (tcp_thread cars fd f)
  /\ thread_now r2
     = match car_thread (tcp_thread cars fd f) with
       | Some nm => Car_listens fd nm
       | None => Finished
       end.
Proof.
  cbv zeta. unfold first_frame_step, tcp_thread.
  destruct f as [f |]; [| now repeat split].
  destruct (strip_prefix "CAR " f) as [r |].
  - destruct (sscanf_car f) as [[nm lo] hi].
    destruct (car_connection_manager cars fd nm lo hi) as [cars' index].
    destruct (index <? 0); now repeat split.
  - destruct (strip_prefix "CALL " f) as [r |]; [| now repeat split].
    unfold call_select, tcp_call_thread.
    destruct (sscanf_call f) as [src dst].
    destruct (floor_num_handler src) as [s |]; [| now repeat split].
    destruct (floor_num_handler dst) as [d |]; [| now repeat split].
    destruct (s =? d); [now repeat split |].
    destruct (car_selector cars s d) as [nm |]; [| now repeat split].
    cbn [cars_now thread_now sent thread_step]. unfold call_enqueue.
    destruct (find_registry cars nm) as [i |]; [| now repeat split].
    destruct (cars !! i) as [c |]; [| now repeat split].
    cbn [cars_now thread_now sent registry to_peer to_served_car car_thread
         registry_after to_client to_car map snd].
    repeat split. rewrite map_map. cbn [snd]. apply map_id.
Qed.

(** X17: Whatever connects and whatever frames arrive, and in whatever
    order the threads of the controller take their critical sections,
    the registry keeps its shape: sixteen rows; no two rows in use under
    one name; every row in use with a name of 1 to 31 characters without
    white space and a range of floors in order; every queue within its 32
    slots, without a floor twice, and made of floor indices; and the rows
    not in use with an empty queue.  That a queue holds only floors of
    the range of its car is not kept: a car that registers again with
    other floors between the two critical sections of a call leaves the
    call's floors queued outside its range. *)
Theorem registry_invariant :
  (forall es : list controller_event,
     registry_sound (g_cars (controller_run es)))
  /\ exists (car : CarID) (f : Z),
       car ∈ g_cars (controller_run late_call)
       /\ in_use car <> 0 /\ f ∈ queue car
       /\ ~ (lowest_floor car <= f <= highest_floor car).
Proof.
  split; [intros es; apply controller_run_sound |].
  exists (mk_car 1 8 "A" 20 30 (3 :: 7 :: repeat 0 30) 2 "Closed" "20" "20"), 3.
  conj_split.
  - apply list_elem_of_lookup. exists 0%nat. vm_compute. reflexivity.
  - discriminate.
  - vm_compute. left.
  - cbn. lia.
Qed.

End SectionFacts.

(** ** Car and controller on the wire *)

Module LinkFacts.
Import CLib Floor FloorIndex Controller Registry Shm Car CarLink.
Import FloorIndexFacts QueueFacts SchedulerFacts RoutingFacts RegistryFacts.
Local Open Scope list_scope.







Lemma floor_frame_prefix (t : string) :
  strip_prefix "FLOOR " ("FLOOR " ++ t)%string = Some t
  /\ strip_prefix "FLOOR" ("FLOOR " ++ t)%string = Some (String " " t).
Proof. split; reflexivity. Qed.

Lemma sscanf_floor_label (h : Z) :
  valid_index h = true ->
  sscanf_floor ("FLOOR " ++ index_handler h)%string = index_handler h.
Proof.
  intros V. destruct (label_field h V) as [Ht _]. unfold sscanf_floor.
  destruct (floor_frame_prefix (index_handler h)) as [_ ->].
  now rewrite (scan_s_last _ Ht).
Qed.

(** X22: The floor the controller sends is the floor the car heads for.  The
    FLOOR frame [send_car] builds for the head of a queue is read by the
    receive thread of the car as the label of that floor: a car that is
    not between floors takes it as its destination at once; a car between
    floors keeps its destination, holds the floor as pending, and takes
    it as its destination at the next [exists_pending]. *)
Theorem floor_order_reaches_car (c : CarID) (h : Z) (rest : list Z)
    (p : car_process) :
  wf_queue c -> queue c = h :: rest -> valid_index h = true ->
  exists f,
    send_car c = [f]
    /\ (status (shm p) <> "Between" ->
        tcp_receive_frame f p
        = mk_process (set_destination_floor (index_handler h) (shm p))
            (pending_floor p) (has_pending p)
        /\ floor_num_handler
             (destination_floor (shm (tcp_receive_frame f p))) = Some h)
    /\ (status (shm p) = "Between" ->
        shm (tcp_receive_frame f p) = shm p
        /\ exists_pending (tcp_receive_frame f p)
           = mk_process (set_destination_floor (index_handler h) (shm p))
               EmptyString 0
        /\ floor_num_handler
             (destination_floor
                (shm (exists_pending (tcp_receive_frame f p)))) = Some h).
Proof.
  intros Hwf Hq V. exists ("FLOOR " ++ index_handler h)%string.
  split; [now rewrite (send_car_head c Hwf), Hq |].
  assert (Hfit : strtake 3 (index_handler h) = index_handler h)
    by apply strtake_all, index_handler_length.
  unfold tcp_receive_frame.
  destruct (floor_frame_prefix (index_handler h)) as [-> _].
  rewrite (sscanf_floor_label h V), Hfit. unfold streq. split.
  - intros Hb. apply String.eqb_neq in Hb. rewrite Hb.
    split; [reflexivity |]. cbn. now apply index_parses.
  - intros Hb. rewrite Hb. cbn [String.eqb Ascii.eqb Bool.eqb].
    cbv iota. cbn [shm]. split; [reflexivity |].
    unfold exists_pending. cbn [has_pending pending_floor shm negb Z.eqb].
    rewrite Hfit. split; [reflexivity |]. cbn. now apply index_parses.
Qed.

Lemma floor_order_reaches_car_witness :
  exists f,
    send_car (enqueue Samples.car_A 3 7) = [f]
    /\ destination_floor
         (shm (tcp_receive_frame f
                 (mk_process Samples.healthy EmptyString 0))) = "3".
Proof.
  destruct (floor_order_reaches_car (enqueue Samples.car_A 3 7) 3 [7]
              (mk_process Samples.healthy EmptyString 0))
    as (f & H1 & H2 & _).
  - split; [vm_compute; split; discriminate | reflexivity].
  - reflexivity.
  - reflexivity.
  - exists f. split; [exact H1 |].
    destruct H2 as [H2 _]; [discriminate |]. now rewrite H2.
Defined.






End LinkFacts.

(** ** A call from the client to the controller and back *)

Module CallFacts.
Import CLib Floor FloorIndex Controller Registry Call.
Import FloorIndexFacts QueueFacts SchedulerFacts RoutingFacts RegistryFacts.
Local Open Scope list_scope.






End CallFacts.

(** ** The stop button, from the panel to the controller *)

Module EmergencyFacts.
Import CLib Floor Controller Registry Shm Car.
Local Open Scope list_scope.

(** X25: The stop button.  On a car that is neither in emergency nor in
    service mode, the panel's [stop] succeeds and raises
    [emergency_stop]; the next wakeup of the monitor turns it into
    [emergency_mode], clears the button and prints its message; the next
    report of the transmit thread is followed by an EMERGENCY frame, after
    which the thread stops reporting; and the controller, which ignores
    that frame, keeps the car in its registry and its car thread
    running. *)
Theorem stop_button_chain (m : car_shared_mem) (st : tx_state)
    (expired : bool) (cars : list CarID) (fd : Z) (nm : string) :
  emergency_mode m = 0 -> individual_service_mode m = 0 ->
  let p := Internal.internal_main "stop" m in
  let w := Safety.safety_wakeup (Internal.block_after p) in
  let m2 := Safety.block_after w in
  block st = m2 -> link_up st = true ->
  Internal.exit_code p = 0 /\ Internal.broadcast p = true
  /\ emergency_mode m2 = 1 /\ emergency_stop m2 = 0
  /\ individual_service_mode m2 = 0
  /\ Safety.printed w = ["The emergency stop button has been pressed!"]
  /\ sent (tx_round true expired st)
     = sent st ++ [post_status m2; "EMERGENCY"]
  /\ link_up (tx_round true expired st) = false
  /\ emergency_mode (block (tx_round true expired st)) = 1
  /\ tcp_car_frame cars fd nm (Some "EMERGENCY")
     = mk_frame_result cars [] true.
Proof.
  intros He Hs. cbv zeta.
  destruct m as [cur dst stt ob cb ss obs ov es ism em].
  cbn in He, Hs. subst em ism.
  change (Internal.internal_main "stop"
            (mk_shm cur dst stt ob cb ss obs ov es 0 0))
    with (Internal.succeed (mk_shm cur dst stt ob cb ss obs ov 1 0 0)).
  cbn [Internal.succeed Internal.exit_code Internal.broadcast
       Internal.block_after].
  assert (Hw : exists n stt',
             Safety.safety_wakeup (mk_shm cur dst stt ob cb ss obs ov 1 0 0)
             = Safety.mk_wake (mk_shm cur dst stt' ob cb 1 obs ov 0 0 1) n
                 ["The emergency stop button has been pressed!"]).
  { unfold Safety.safety_wakeup. cbn [safety_system].
    destruct (negb (ss =? 1)) eqn:E1;
      cbn [set_safety_system status door_obstruction current_floor
           destination_floor open_button close_button safety_system overload
           emergency_stop individual_service_mode emergency_mode];
      destruct (streq stt "Closing" && (obs =? 1));
      cbn; eauto.
    - apply negb_false_iff, Z.eqb_eq in E1. subst ss. eauto.
    - apply negb_false_iff, Z.eqb_eq in E1. subst ss. eauto. }
  destruct Hw as (n & stt' & ->). cbn [Safety.block_after Safety.printed].
  intros Hb Hl.
  assert (Hr : tx_round true expired st
               = mk_tx (if expired
                        then mk_shm cur dst stt' ob cb 2 obs ov 0 0 1
                        else mk_shm cur dst stt' ob cb 1 obs ov 0 0 1)
                   (sent st
                    ++ [post_status (mk_shm cur dst stt' ob cb 1 obs ov 0 0 1);
                        "EMERGENCY"]) false).
  { unfold tx_round. rewrite Hb. cbn [negb].
    destruct expired.
    - unfold tx_tick, tx_mode_check. cbn [safety_system].
      change (to_uint8 (1 + 1)) with 2. change (1 + 1 >=? 3) with false.
      cbn [set_safety_system individual_service_mode emergency_mode
           current_floor destination_floor status open_button close_button
           door_obstruction overload emergency_stop safety_system].
      change (negb (0 =? 0)) with false. change (negb (1 =? 0)) with true.
      cbv iota. now rewrite <- app_assoc.
    - unfold tx_mode_check.
      cbn [individual_service_mode emergency_mode].
      change (negb (0 =? 0)) with false. change (negb (1 =? 0)) with true.
      cbv iota. now rewrite <- app_assoc. }
  rewrite Hr. cbn [sent link_up block emergency_mode emergency_stop
                   individual_service_mode].
  repeat split; try reflexivity. now destruct expired.
Qed.

Lemma stop_button_chain_witness :
  sent (tx_round true false
          (mk_tx (Safety.block_after
                    (Safety.safety_wakeup
                       (Internal.block_after
                          (Internal.internal_main "stop" Samples.healthy))))
             [] true))
  = ["STATUS Closed 1 1"; "EMERGENCY"].
Proof.
  pose proof (stop_button_chain Samples.healthy
                (mk_tx (Safety.block_after
                          (Safety.safety_wakeup
                             (Internal.block_after
                                (Internal.internal_main "stop"
                                   Samples.healthy))))
                   [] true)
                false [] 0 "A" ltac:(reflexivity) ltac:(reflexivity)) as H.
  cbv zeta in H.
  destruct (H ltac:(reflexivity) ltac:(reflexivity))
    as (_ & _ & _ & _ & _ & _ & Hs & _).
  exact Hs.
Defined.

End EmergencyFacts.

(** ** The transmit thread *)

Module TransmitFacts.
Import CLib Floor Shm Car CarWrites QueueFacts.
Local Open Scope list_scope.

Ltac nothing_new :=
  exists []; rewrite app_nil_r; split; [reflexivity | constructor].

Lemma watchdog_only_refl (a : car_shared_mem) : watchdog_only a a.
Proof. unfold watchdog_only. tauto. Qed.

Lemma watchdog_only_trans (a b c : car_shared_mem) :
  watchdog_only a b -> watchdog_only b c -> watchdog_only a c.
Proof.
  unfold watchdog_only.
  intros (A1 & A2 & A3 & A4 & A5 & A6 & A7 & A8 & A9 & A10)
         (B1 & B2 & B3 & B4 & B5 & B6 & B7 & B8 & B9 & B10).
  rewrite B1, B2, B3, B4, B5, B6, B7, B8, B9.
  repeat (split; [assumption |]).
  destruct B10 as [-> | ->]; tauto.
Qed.

Lemma tx_mode_check_step (m : car_shared_mem) (out : list string) :
  block (tx_mode_check m out) = m
  /\ exists new,
       sent (tx_mode_check m out) = out ++ new
       /\ Forall car_frame new
       /\ (link_up (tx_mode_check m out) = true -> new = []).
Proof.
  unfold tx_mode_check.
  destruct (negb (individual_service_mode m =? 0));
    [| destruct (negb (emergency_mode m =? 0))];
    cbn [block sent link_up]; split; try reflexivity.
  - exists ["INDIVIDUAL SERVICE"]. conj_split; [reflexivity | | discriminate].
    constructor; [| constructor]. right. now left.
  - exists ["EMERGENCY"]. conj_split; [reflexivity | | discriminate].
    constructor; [| constructor]. right. now right.
  - exists []. rewrite app_nil_r. conj_split; [reflexivity | constructor | auto].
Qed.

Lemma tx_step_facts (st : tx_state) (e : tx_event) :
  watchdog_only (block st) (block (tx_step st e))
  /\ (exists new, sent (tx_step st e) = sent st ++ new /\ Forall car_frame new)
  /\ (link_up st = false -> tx_step st e = st)
  /\ (link_up (tx_step st e) = true -> link_up st = true).
Proof.
  unfold tx_step. destruct (link_up st) eqn:El; cbn [negb].
  2:{ conj_split; auto; try (intros; congruence);
        [apply watchdog_only_refl | nothing_new]. }
  destruct e as [| post_ok expired].
  { conj_split; auto; try (intros; congruence);
      [apply watchdog_only_refl | nothing_new]. }
  unfold tx_round. destruct post_ok; cbn [negb].
  2:{ cbn [block sent link_up].
      conj_split; try discriminate; [apply watchdog_only_refl | nothing_new]. }
  assert (Hp : car_frame (post_status (block st))) by (left; eauto).
  destruct expired.
  - unfold tx_tick.
    destruct (safety_system (block st) + 1 >=? 3).
    + cbn [block sent link_up]. conj_split; try discriminate.
      * unfold watchdog_only. cbn. tauto.
      * exists [post_status (block st); "EMERGENCY"].
        rewrite <- app_assoc. split; [reflexivity |].
        constructor; [exact Hp |]. constructor; [| constructor].
        right. now right.
    + destruct (tx_mode_check_step
                  (set_safety_system
                     (to_uint8 (safety_system (block st) + 1)) (block st))
                  (sent st ++ [post_status (block st)]))
        as (Hb & new & Hs & Hf & _).
      rewrite Hb, Hs. conj_split; try discriminate; auto.
      * unfold watchdog_only. cbn. tauto.
      * exists (post_status (block st) :: new). rewrite <- app_assoc.
        split; [reflexivity |]. now constructor.
  - destruct (tx_mode_check_step (block st)
                (sent st ++ [post_status (block st)]))
      as (Hb & new & Hs & Hf & _).
    rewrite Hb, Hs. conj_split; try discriminate; auto.
    + apply watchdog_only_refl.
    + exists (post_status (block st) :: new). rewrite <- app_assoc.
      split; [reflexivity |]. now constructor.
Qed.

Lemma link_down_stays (es : list tx_event) :
  forall st, link_up st = false -> tcp_transmit_thread st es = st.
Proof.
  induction es as [| e es IH]; intros st Hl; [reflexivity |].
  unfold tcp_transmit_thread in *. cbn [fold_left].
  destruct (tx_step_facts st e) as (_ & _ & H & _).
  rewrite (H Hl). now apply IH.
Qed.

(** X26: Whatever the transmit thread meets, it only adds to what it has
    sent, and only STATUS frames of the block and the two mode frames; of
    the block it writes nothing but the watchdog counter and
    [emergency_mode], which it can raise and never lowers; and once the
    link is down it neither sends nor writes. *)
Theorem transmit_thread_writes (es : list tx_event) (st : tx_state) :
  watchdog_only (block st) (block (tcp_transmit_thread st es))
  /\ (exists new,
        sent (tcp_transmit_thread st es) = sent st ++ new
        /\ Forall car_frame new)
  /\ (link_up st = false -> tcp_transmit_thread st es = st)
  /\ (link_up (tcp_transmit_thread st es) = true -> link_up st = true).
Proof.
  revert st. induction es as [| e es IH]; intros st.
  - cbn. conj_split; auto; [apply watchdog_only_refl | nothing_new].
  - unfold tcp_transmit_thread in *. cbn [fold_left].
    destruct (tx_step_facts st e) as (W1 & (n1 & S1 & F1) & D1 & L1).
    destruct (IH (tx_step st e)) as (W2 & (n2 & S2 & F2) & D2 & L2).
    conj_split.
    + eapply watchdog_only_trans; eauto.
    + exists (n1 ++ n2). rewrite S2, S1, <- app_assoc.
      split; [reflexivity |]. now apply Forall_app.
    + intros Hl. rewrite (D1 Hl). apply (link_down_stays es st Hl).
    + auto.
Qed.

End TransmitFacts.

(** ** The main loop of the car *)

Module LoopFacts.
Import CLib Floor FloorIndex Controller Shm Car CarMotion CarLink CarLoop.
Import FloorIndexFacts QueueFacts SchedulerFacts MotionFacts.
Local Open Scope list_scope.

Lemma label_eqb (a b : Z) :
  valid_index a = true -> valid_index b = true ->
  streq (index_handler a) (index_handler b) = (a =? b).
Proof.
  intros Va Vb. unfold streq.
  destruct (String.eqb_spec (index_handler a) (index_handler b)) as [E | E];
    destruct (Z.eqb_spec a b) as [H | H]; try reflexivity.
  - exfalso. apply H. pose proof (index_parses a Va) as Pa.
    rewrite E, (index_parses b Vb) in Pa. congruence.
  - exfalso. apply E. now rewrite H.
Qed.

Lemma not_there_yet (f : string) (c d : Z) :
  floor_num_handler f = Some c -> valid_index d = true -> c <> d ->
  streq f (index_handler d) = false.
Proof.
  intros Hc Vd Hne. unfold streq. apply String.eqb_neq. intros ->.
  rewrite (index_parses d Vd) in Hc. congruence.
Qed.

(** The steps of a pass on a block with nothing pressed, no mode set and
    nothing pending. *)
Lemma main_waits_moving (m : car_shared_mem) :
  streq (current_floor m) (destination_floor m) = false ->
  main_waits m = false.
Proof. intros H. unfold main_waits. rewrite H. apply andb_false_r. Qed.

Lemma quiet_move (cfg : car_range) (cur dst pf : string) (w : list string)
    (ss obs ov es : Z) :
  move_one_floor_l cfg
    (mk_loop (mk_process (mk_shm cur dst "Closed" 0 0 ss obs ov es 0 0) pf 0)
       w)
  = mk_loop (mk_process
               (mk_shm
                  (index_handler
                     (floor_validator cfg
                        (next_floor (floor_or_zero cur) (floor_or_zero dst))))
                  dst "Closed" 0 0 ss obs ov es 0 0) pf 0)
      (w ++ ["Between"; "Closed"]).
Proof.
  unfold move_one_floor_l, status_handler_l, write_status, with_block,
    block_of.
  cbn [process shm set_status status pending_floor has_pending written
       current_floor destination_floor set_current_floor].
  change (streq "Between" "Between") with true. cbv iota.
  now rewrite <- app_assoc.
Qed.

Lemma quiet_to_open (cur dst s pf : string) (w : list string)
    (ss obs ov es : Z) :
  to_open
    (mk_loop (mk_process (mk_shm cur dst s 0 0 ss obs ov es 0 0) pf 0) w)
  = mk_loop (mk_process (mk_shm cur dst "Closed" 0 0 ss obs ov es 0 0) pf 0)
      (w ++ ["Opening"; "Open"; "Closing"; "Closed"]).
Proof.
  unfold to_open, status_handler_l, open_status_handler_l, write_status,
    with_block, block_of, open_window.
  cbn [process shm set_status status pending_floor has_pending written
       close_button open_button Z.eqb fst].
  change (negb (streq (strtake 7 "Opening") "Opening")) with false.
  change (streq "Closing" "Closing") with true. cbv iota.
  cbn [process shm set_status status pending_floor has_pending written
       close_button open_button Z.eqb fst].
  now rewrite <- !app_assoc.
Qed.

Lemma quiet_pending (m : car_shared_mem) (pf : string) (w : list string) :
  exists_pending_l (mk_loop (mk_process m pf 0) w)
  = mk_loop (mk_process m pf 0) w.
Proof. reflexivity. Qed.

Lemma quiet_buttons (cur dst pf : string) (w : list string)
    (ss obs ov es : Z) :
  normal_buttons
    (mk_loop (mk_process (mk_shm cur dst "Closed" 0 0 ss obs ov es 0 0) pf 0)
       w)
  = mk_loop (mk_process (mk_shm cur dst "Closed" 0 0 ss obs ov es 0 0) pf 0)
      w.
Proof. reflexivity. Qed.

Lemma advance_moving (cfg : car_range) (st : loop_state) :
  at_destination st = false -> fetch_status "Closed" st = true ->
  normal_advance cfg st
  = exists_pending_l
      (if at_destination (move_one_floor_l cfg st)
       then to_open (move_one_floor_l cfg st)
       else move_one_floor_l cfg st).
Proof. intros H1 H2. unfold normal_advance. now rewrite H1, H2. Qed.

(** One pass of a car on its way, nothing pressed and nothing pending. *)
Lemma pass_on_the_way (cfg : car_range) (cur : string) (w : list string)
    (pf : string) (ss obs ov es : Z) (c d : Z) :
  floor_num_handler cur = Some c -> valid_index d = true ->
  in_range cfg c -> in_range cfg d -> c <> d ->
  main_loop_pass cfg
    (mk_loop (mk_process
                (mk_shm cur (index_handler d) "Closed" 0 0 ss obs ov es 0 0)
                pf 0) w)
  = mk_loop (mk_process
               (mk_shm (index_handler (next_floor c d)) (index_handler d)
                  "Closed" 0 0 ss obs ov es 0 0) pf 0)
      (w ++ (if next_floor c d =? d then trip_statuses 1
             else ["Between"; "Closed"])).
Proof.
  intros Hc Vd Rc Rd Hne.
  pose proof (accepted_index_valid _ _ Hc) as Vc.
  destruct (next_floor_toward c d Vc Vd Hne) as (Vn & _ & Hb).
  assert (Rn : in_range cfg (next_floor c d))
    by (unfold in_range in *; lia).
  pose proof (not_there_yet cur c d Hc Vd Hne) as Hfar.
  pose proof (label_eqb _ _ Vn Vd) as Hnext.
  pose proof (index_parses d Vd) as Hd.
  revert Hfar Hnext Hd. generalize (index_handler d). intros dst Hfar Hnext Hd.
  unfold main_loop_pass.
  rewrite main_waits_moving by exact Hfar.
  change (negb (individual_service_mode (block_of _) =? 0)) with false.
  change (negb (emergency_mode (block_of _) =? 0)) with false.
  cbv iota. unfold normal_pass.
  rewrite advance_moving by (exact Hfar || reflexivity).
  rewrite quiet_move. unfold floor_or_zero. rewrite Hc, Hd.
  cbn [default from_option]. unfold id.
  rewrite (floor_validator_inside cfg _ Rn).
  unfold at_destination, block_of.
  cbn [process shm current_floor destination_floor].
  rewrite Hnext.
  destruct (next_floor c d =? d).
  - rewrite quiet_to_open, quiet_pending, quiet_buttons.
    now rewrite <- app_assoc.
  - now rewrite quiet_pending, quiet_buttons.
Qed.

Lemma trip_from (cfg : car_range) (pf : string) (ss obs ov es d : Z) :
  valid_index d = true -> in_range cfg d ->
  forall (n : nat) (cur : string) (c : Z) (w : list string),
    floor_num_handler cur = Some c -> in_range cfg c -> c <> d ->
    floor_distance c d = n ->
    Nat.iter n (main_loop_pass cfg)
      (mk_loop (mk_process
                  (mk_shm cur (index_handler d) "Closed" 0 0 ss obs ov es 0 0)
                  pf 0) w)
    = mk_loop (mk_process
                 (mk_shm (index_handler d) (index_handler d) "Closed" 0 0 ss
                    obs ov es 0 0) pf 0)
        (w ++ trip_statuses n)
    /\ forall k, (k < n)%nat ->
         written
           (Nat.iter k (main_loop_pass cfg)
              (mk_loop (mk_process
                          (mk_shm cur (index_handler d) "Closed" 0 0 ss obs ov
                             es 0 0) pf 0) w))
         = w ++ concat (repeat ["Between"; "Closed"] k).
Proof.
  intros Vd Rd. induction n as [| n IH]; intros cur c w Hc Rc Hne Hn.
  - exfalso. apply Hne.
    apply (floor_distance_zero c d (accepted_index_valid _ _ Hc) Vd Hn).
  - pose proof (accepted_index_valid _ _ Hc) as Vc.
    destruct (next_floor_toward c d Vc Vd Hne) as (Vn & Hd & Hb).
    assert (Rn : in_range cfg (next_floor c d))
      by (unfold in_range in *; lia).
    pose proof (pass_on_the_way cfg cur w pf ss obs ov es c d Hc Vd Rc Rd Hne)
      as Hpass.
    destruct (Z.eqb_spec (next_floor c d) d) as [E | E].
    + rewrite E in Hd, Hpass. rewrite floor_distance_same in Hd.
      assert (n = 0%nat) by lia. subst n. split.
      * cbn [Nat.iter]. exact Hpass.
      * intros k Hk. assert (k = 0%nat) by lia. subst k.
        cbn. now rewrite app_nil_r.
    + destruct (IH (index_handler (next_floor c d)) (next_floor c d)
                  (w ++ ["Between"; "Closed"]) (index_parses _ Vn) Rn E
                  ltac:(lia)) as [I1 I2].
      split.
      * rewrite Nat.iter_succ_r, Hpass, I1. now rewrite <- app_assoc.
      * intros k Hk. destruct k as [| k].
        -- cbn. now rewrite app_nil_r.
        -- rewrite Nat.iter_succ_r, Hpass, (I2 k ltac:(lia)).
           now rewrite <- app_assoc.
Qed.

(** X27: A trip in normal mode.  A car at rest with its doors closed, nothing
    pressed and nothing pending, whose destination is another floor of its
    range, needs one pass of the main loop per floor: it writes Between
    and Closed for every floor it travels, then Opening, Open, Closing and
    Closed at the destination, and nothing else; it ends at the
    destination with the rest of the block as it was, and there the loop
    waits. *)
Theorem normal_trip (cfg : car_range) (cur pf : string) (w : list string)
    (ss obs ov es : Z) (c d : Z) :
  floor_num_handler cur = Some c -> valid_index d = true ->
  in_range cfg c -> in_range cfg d -> c <> d ->
  let start :=
    mk_loop (mk_process
               (mk_shm cur (index_handler d) "Closed" 0 0 ss obs ov es 0 0)
               pf 0) w in
  let arrived :=
    mk_loop (mk_process
               (mk_shm (index_handler d) (index_handler d) "Closed" 0 0 ss
                  obs ov es 0 0) pf 0)
      (w ++ trip_statuses (floor_distance c d)) in
  Nat.iter (floor_distance c d) (main_loop_pass cfg) start = arrived
  /\ main_loop_pass cfg arrived = arrived
  /\ forall k, (k < floor_distance c d)%nat ->
       written (Nat.iter k (main_loop_pass cfg) start)
       = w ++ concat (repeat ["Between"; "Closed"] k).
Proof.
  intros Hc Vd Rc Rd Hne. cbv zeta.
  destruct (trip_from cfg pf ss obs ov es d Vd Rd (floor_distance c d) cur c w
              Hc Rc Hne eq_refl) as [H1 H2].
  split; [exact H1 |]. split; [| exact H2].
  unfold main_loop_pass, main_waits, block_of.
  cbn [process shm open_button close_button individual_service_mode
       emergency_mode current_floor destination_floor].
  unfold streq. rewrite String.eqb_refl. reflexivity.
Qed.

Lemma normal_trip_witness :
  written
    (Nat.iter (floor_distance (-1) 2) (main_loop_pass (mk_range (-5) 10))
       (mk_loop (mk_process
                   (mk_shm "B1" (index_handler 2) "Closed" 0 0 1 0 0 0 0 0)
                   EmptyString 0) []))
  = ["Between"; "Closed"; "Between"; "Closed";
     "Opening"; "Open"; "Closing"; "Closed"].
Proof.
  pose proof (normal_trip (mk_range (-5) 10) "B1" EmptyString [] 1 0 0 0
                (-1) 2 ltac:(reflexivity) ltac:(reflexivity)
                ltac:(unfold in_range; cbn; lia)
                ltac:(unfold in_range; cbn; lia) ltac:(lia)) as H.
  cbv zeta in H. destruct H as (H & _). now rewrite H.
Defined.

(** *** The rules of the doors *)

Lemma door_rules_app (a b : list string) :
  forall prev,
    door_rules prev (a ++ b)
    = door_rules prev a && door_rules (last_status prev a) b.
Proof.
  induction a as [| s a IH]; intros prev; cbn [app door_rules last_status];
    [reflexivity |].
  rewrite IH. now rewrite !andb_assoc.
Qed.

Lemma last_status_app (a b : list string) :
  forall prev, last_status prev (a ++ b) = last_status (last_status prev a) b.
Proof.
  induction a as [| s a IH]; intros prev; cbn [app last_status];
    [reflexivity | apply IH].
Qed.

Lemma follows_refl (st : loop_state) : follows st st.
Proof.
  exists []. rewrite app_nil_r. cbn. repeat split; auto; congruence.
Qed.

Lemma follows_trans (a b c : loop_state) :
  follows a b -> follows b c -> follows a c.
Proof.
  intros (n1 & W1 & R1 & S1 & C1) (n2 & W2 & R2 & S2 & C2).
  exists (n1 ++ n2). conj_split.
  - now rewrite W2, W1, app_assoc.
  - rewrite door_rules_app, R1. rewrite <- S1. exact R2.
  - now rewrite last_status_app, <- S1.
  - intros H. apply in_or_app.
    destruct (string_dec (current_floor (block_of b))
                (current_floor (block_of a))) as [E | E].
    + right. apply C2. congruence.
    + left. now apply C1.
Qed.

Ltac chain :=
  repeat first [eassumption | eapply follows_trans; [eassumption |]].

(** A change of the block that leaves the status and the floor alone. *)
Lemma follows_block (m : car_shared_mem) (st : loop_state) :
  status m = status (block_of st) ->
  current_floor m = current_floor (block_of st) ->
  follows st (with_block m st).
Proof.
  intros Hs Hc. exists []. unfold with_block, block_of in *. cbn.
  rewrite app_nil_r. repeat split; auto; congruence.
Qed.

Lemma follows_write (s : string) (st : loop_state) :
  (if streq s "Between" then streq (status (block_of st)) "Closed" else true)
  && (if streq s "Open" then streq (status (block_of st)) "Opening" else true)
  = true ->
  follows st (write_status s st).
Proof.
  intros H. exists [s]. unfold write_status, with_block, block_of in *. cbn.
  repeat split; auto; now rewrite H.
Qed.

Lemma write_status_status (s : string) (st : loop_state) :
  status (block_of (write_status s st)) = s.
Proof. reflexivity. Qed.

Lemma follows_pending (st : loop_state) : follows st (exists_pending_l st).
Proof.
  unfold exists_pending_l, exists_pending.
  destruct (negb (has_pending (process st) =? 0)).
  - exists []. unfold block_of. cbn. rewrite app_nil_r.
    repeat split; auto; congruence.
  - destruct st as [p w]. apply follows_refl.
Qed.

Lemma follows_buttons (st : loop_state) :
  follows st (snd (take_buttons st)).
Proof. unfold take_buttons. cbn [snd]. now apply follows_block. Qed.

Lemma follows_to_open (st : loop_state) :
  follows st (to_open st) /\ status (block_of (to_open st)) = "Closed".
Proof.
  unfold to_open, status_handler_l.
  rewrite write_status_status.
  change (negb (streq (strtake 7 "Opening") "Opening")) with false.
  cbv iota. unfold open_status_handler_l. cbn [fst].
  set (s1 := write_status "Opening" st).
  set (s2 := write_status "Open" s1).
  set (s3 := with_block (open_window (block_of s2)) s2).
  set (s4 := if close_button (block_of s3) =? 1
             then with_block (set_close_button 0 (block_of s3)) s3 else s3).
  set (s5 := write_status "Closing" s4).
  change (streq (status (block_of s5)) "Closing") with true. cbv iota.
  split; [| reflexivity].
  assert (F1 : follows st s1) by (apply follows_write; reflexivity).
  assert (F2 : follows s1 s2) by (apply follows_write; reflexivity).
  assert (F3 : follows s2 s3).
  { apply follows_block; unfold open_window;
      destruct (close_button (block_of s2) =? 0);
      try destruct (open_button (block_of s2) =? 1); reflexivity. }
  assert (F4 : follows s3 s4).
  { subst s4. destruct (close_button (block_of s3) =? 1);
      [now apply follows_block | apply follows_refl]. }
  assert (F5 : follows s4 s5) by (apply follows_write; reflexivity).
  assert (F6 : follows s5 (write_status "Closed" s5))
    by (apply follows_write; reflexivity).
  chain.
Qed.

Lemma follows_move (cfg : car_range) (st : loop_state) :
  status (block_of st) = "Closed" -> follows st (move_one_floor_l cfg st).
Proof.
  intros Hs. unfold move_one_floor_l, status_handler_l.
  rewrite write_status_status.
  change (streq "Between" "Between") with true. cbv iota.
  set (s1 := write_status "Between" st).
  match goal with
  | |- follows _ (write_status _ (with_block ?m s1)) => set (m' := m)
  end.
  exists ["Between"; "Closed"]. unfold write_status, with_block, block_of in *.
  cbn. rewrite Hs. rewrite <- app_assoc. repeat split; auto.
Qed.

Lemma follows_closing (st : loop_state) :
  follows st (to_close (fst (status_handler_l "Closing" st))).
Proof.
  unfold to_close, status_handler_l. cbn [fst].
  eapply follows_trans; apply follows_write; reflexivity.
Qed.

Lemma follows_open_and_hold (st : loop_state) : follows st (open_and_hold st).
Proof.
  unfold open_and_hold.
  destruct (fetch_status "Closed" st || fetch_status "Closing" st);
    [| apply follows_refl].
  unfold status_handler_l. rewrite write_status_status.
  change (streq (strtake 7 "Opening") "Opening") with true. cbv iota.
  eapply follows_trans; apply follows_write; reflexivity.
Qed.

Lemma follows_service_between (cfg : car_range) (st : loop_state) :
  follows st (service_between_l cfg st).
Proof.
  unfold service_between_l.
  destruct (individual_service_mode (block_of st) =? 0); cbn [orb];
    [apply follows_refl |].
  unfold fetch_status.
  destruct (streq (status (block_of st)) "Closed") eqn:E; cbn [negb];
    [| apply follows_refl].
  apply String.eqb_eq in E.
  destruct (negb _); [now apply follows_block | now apply follows_move].
Qed.

Lemma follows_service_pass (cfg : car_range) (st : loop_state) :
  follows st (service_pass cfg st).
Proof.
  unfold service_pass.
  pose proof (follows_service_between cfg st) as F1.
  set (s1 := service_between_l cfg st) in *.
  pose proof (follows_buttons s1) as F2. unfold take_buttons in *.
  cbn [snd] in F2.
  set (s2 := with_block _ s1) in *.
  set (s3 := if negb (open_button (block_of s1) =? 0)
             then open_and_hold s2 else s2).
  assert (F3 : follows s2 s3).
  { subst s3. destruct (negb (open_button (block_of s1) =? 0));
      [apply follows_open_and_hold | apply follows_refl]. }
  assert (F4 : follows s3
                 (if negb (close_button (block_of s1) =? 0)
                  then if fetch_status "Open" s3
                       then to_close (fst (status_handler_l "Closing" s3))
                       else s3
                  else s3)).
  { destruct (negb (close_button (block_of s1) =? 0)); [| apply follows_refl].
    destruct (fetch_status "Open" s3);
      [apply follows_closing | apply follows_refl]. }
  chain.
Qed.

Lemma follows_emergency_pass (st : loop_state) :
  follows st (emergency_pass st).
Proof.
  unfold emergency_pass.
  pose proof (follows_buttons st) as F2. unfold take_buttons in *.
  cbn [snd] in F2.
  set (s2 := with_block _ st) in *.
  set (s3 := if negb (open_button (block_of st) =? 0)
             then open_and_hold s2 else s2).
  assert (F3 : follows s2 s3).
  { subst s3. destruct (negb (open_button (block_of st) =? 0));
      [apply follows_open_and_hold | apply follows_refl]. }
  eapply follows_trans; [exact F2 |]. eapply follows_trans; [exact F3 |].
  destruct (negb (close_button (block_of st) =? 0)); [| apply follows_refl].
  destruct (fetch_status "Open" s3).
  - unfold status_handler_l. rewrite write_status_status.
    change (streq (strtake 7 "Closing") "Closing") with true. cbv iota.
    eapply follows_trans; apply follows_write; reflexivity.
  - destruct (fetch_status "Closing" s3); [| apply follows_refl].
    apply follows_write; reflexivity.
Qed.

Lemma follows_normal_advance (cfg : car_range) (st : loop_state) :
  follows st (normal_advance cfg st).
Proof.
  unfold normal_advance. destruct (at_destination st).
  - eapply follows_trans; [apply follows_to_open | apply follows_pending].
  - unfold fetch_status.
    destruct (streq (status (block_of st)) "Closed") eqn:E.
    + apply String.eqb_eq in E. cbv zeta.
      eapply follows_trans; [now apply follows_move |].
      eapply follows_trans; [| apply follows_pending].
      destruct (at_destination _);
        [apply follows_to_open | apply follows_refl].
    + destruct (streq (status (block_of st)) "Closing");
        [apply follows_closing |].
      destruct (streq (status (block_of st)) "Opening");
        [apply follows_to_open | apply follows_refl].
Qed.

Lemma follows_normal_buttons (st : loop_state) :
  follows st (normal_buttons st).
Proof.
  unfold normal_buttons.
  pose proof (follows_buttons st) as F2. unfold take_buttons in *.
  cbn [snd] in F2.
  set (s2 := with_block _ st) in *.
  set (s3 := if negb (open_button (block_of st) =? 0)
             then if fetch_status "Closed" s2 || fetch_status "Closing" s2
                  then to_open s2 else s2
             else s2).
  assert (F3 : follows s2 s3).
  { subst s3. destruct (negb (open_button (block_of st) =? 0));
      [| apply follows_refl].
    destruct (fetch_status "Closed" s2 || fetch_status "Closing" s2);
      [apply follows_to_open | apply follows_refl]. }
  eapply follows_trans; [exact F2 |]. eapply follows_trans; [exact F3 |].
  destruct (negb (close_button (block_of st) =? 0)); [| apply follows_refl].
  destruct (fetch_status "Open" s3);
    [apply follows_closing | apply follows_refl].
Qed.

Lemma follows_normal_pass (cfg : car_range) (st : loop_state) :
  follows st (normal_pass cfg st).
Proof.
  unfold normal_pass.
  eapply follows_trans;
    [apply follows_normal_advance | apply follows_normal_buttons].
Qed.

Lemma follows_pass (cfg : car_range) (st : loop_state) :
  follows st (main_loop_pass cfg st).
Proof.
  unfold main_loop_pass.
  destruct (main_waits (block_of st)); [apply follows_refl |].
  destruct (negb (individual_service_mode (block_of st) =? 0));
    [apply follows_service_pass |].
  destruct (negb (emergency_mode (block_of st) =? 0));
    [apply follows_emergency_pass | apply follows_normal_pass].
Qed.

(** X28: The doors are closed before the car moves.  Whatever the block
    holds and whatever the mode, over any number of passes of the main
    loop that nothing else disturbs the statuses written obey the rules
    of the doors: Between is written only over Closed, and Open only
    over Opening; the log only grows and ends in the status of the
    block; and the current floor changes only if Between was written. *)
Theorem doors_closed_before_moving (cfg : car_range) (st : loop_state)
    (n : nat) :
  let st' := Nat.iter n (main_loop_pass cfg) st in
  exists new,
    written st' = written st ++ new
    /\ door_rules (status (block_of st)) new = true
    /\ status (block_of st') = last_status (status (block_of st)) new
    /\ (current_floor (block_of st') <> current_floor (block_of st) ->
        In "Between" new).
Proof.
  cbv zeta. change (follows st (Nat.iter n (main_loop_pass cfg) st)).
  induction n as [| n IH]; [apply follows_refl |].
  rewrite Nat.iter_succ.
  eapply follows_trans; [exact IH | apply follows_pass].
Qed.

(** *** Emergency mode *)

Lemma stays_refl (st : loop_state) : stays st st.
Proof.
  unfold stays. conj_split; auto. exists []. rewrite app_nil_r. auto.
Qed.

Lemma stays_trans (a b c : loop_state) : stays a b -> stays b c -> stays a c.
Proof.
  intros (C1 & S1 & E1 & n1 & W1 & N1) (C2 & S2 & E2 & n2 & W2 & N2).
  unfold stays. conj_split; try congruence.
  exists (n1 ++ n2). split.
  - now rewrite W2, W1, app_assoc.
  - intros H. apply in_app_or in H. tauto.
Qed.

Lemma stays_write (s : string) (st : loop_state) :
  s <> "Between" -> stays st (write_status s st).
Proof.
  intros Hs. unfold stays. conj_split; try reflexivity.
  exists [s]. split; [reflexivity |].
  intros [H | []]. now apply Hs.
Qed.

Lemma stays_buttons (st : loop_state) : stays st (snd (take_buttons st)).
Proof.
  unfold stays. conj_split; try reflexivity.
  exists []. cbn. rewrite app_nil_r. auto.
Qed.

Lemma stays_open_and_hold (st : loop_state) : stays st (open_and_hold st).
Proof.
  unfold open_and_hold.
  destruct (fetch_status "Closed" st || fetch_status "Closing" st);
    [| apply stays_refl].
  unfold status_handler_l. rewrite write_status_status.
  change (streq (strtake 7 "Opening") "Opening") with true. cbv iota.
  eapply stays_trans; apply stays_write; discriminate.
Qed.

Lemma stays_emergency_pass (st : loop_state) : stays st (emergency_pass st).
Proof.
  unfold emergency_pass.
  pose proof (stays_buttons st) as F2. unfold take_buttons in *.
  cbn [snd] in F2.
  set (s2 := with_block _ st) in *.
  set (s3 := if negb (open_button (block_of st) =? 0)
             then open_and_hold s2 else s2).
  assert (F3 : stays s2 s3).
  { subst s3. destruct (negb (open_button (block_of st) =? 0));
      [apply stays_open_and_hold | apply stays_refl]. }
  eapply stays_trans; [exact F2 |]. eapply stays_trans; [exact F3 |].
  destruct (negb (close_button (block_of st) =? 0)); [| apply stays_refl].
  destruct (fetch_status "Open" s3).
  - unfold status_handler_l. rewrite write_status_status.
    change (streq (strtake 7 "Closing") "Closing") with true. cbv iota.
    eapply stays_trans; apply stays_write; discriminate.
  - destruct (fetch_status "Closing" s3); [| apply stays_refl].
    apply stays_write; discriminate.
Qed.

(** X29: In emergency mode the car does not move.  With emergency mode set
    and service mode off, over any number of passes of the main loop
    the car keeps its floor and stays in emergency mode, whatever the
    buttons, the status and the destination are; the statuses it writes
    are those of the doors, never Between. *)
Theorem emergency_holds_the_car (cfg : car_range) (st : loop_state)
    (n : nat) :
  individual_service_mode (block_of st) = 0 ->
  emergency_mode (block_of st) <> 0 ->
  let st' := Nat.iter n (main_loop_pass cfg) st in
  current_floor (block_of st') = current_floor (block_of st)
  /\ emergency_mode (block_of st') = emergency_mode (block_of st)
  /\ exists new, written st' = written st ++ new /\ ~ In "Between" new.
Proof.
  intros Hs He. cbv zeta.
  assert (H : stays st (Nat.iter n (main_loop_pass cfg) st)).
  { induction n as [| n IH]; [apply stays_refl |].
    rewrite Nat.iter_succ. eapply stays_trans; [exact IH |].
    destruct IH as (_ & S1 & E1 & _). rewrite <- S1 in Hs. rewrite <- E1 in He.
    revert Hs He. generalize (Nat.iter n (main_loop_pass cfg) st).
    intros s Hs He. unfold main_loop_pass, main_waits.
    rewrite Hs. apply Z.eqb_neq in He. rewrite He.
    rewrite !andb_false_r. cbn [andb Z.eqb negb]. cbv iota.
    apply stays_emergency_pass. }
  destruct H as (C & _ & E & W). auto.
Qed.

Lemma emergency_holds_the_car_witness :
  current_floor
    (block_of
       (Nat.iter 3 (main_loop_pass (mk_range 1 10))
          (mk_loop (mk_process
                      (mk_shm "3" "7" "Closed" 1 0 1 0 0 0 0 1)
                      EmptyString 0) [])))
  = "3".
Proof.
  refine (proj1 (emergency_holds_the_car (mk_range 1 10)
                   (mk_loop (mk_process
                               (mk_shm "3" "7" "Closed" 1 0 1 0 0 0 0 1)
                               EmptyString 0) []) 3 _ _));
    [reflexivity | discriminate].
Defined.

End LoopFacts.
